(** * priority-beam-search: the bounded priority container and the search driver

    A shallow embedding of [src/beam.ts] (classes [Beam] and [Optimizer]).

    Modelling conventions.
    - JS arrays are lists; [heap[i]] is list lookup and [heap[i] = x] is list
      insert.  [heap.length = size] is kept by every operation (invariant
      [wf], lemmas [new_wf], [push_wf], [pop_wf]) and the source reads below
      [size] only; a branch taken on a failed lookup returns the array
      unchanged.
    - A [while (true)] loop is a function of a number of rounds; the number
      given is one the loop cannot exhaust (lemmas [trickleLoop_fuel],
      [bubbleLoop_fuel]).
    - Array indices and sizes are natural numbers.  The source computes them
      with the 32-bit operators [<<] and [>>], which agree with doubling
      and halving for indices below 2^30; longer arrays are outside
      this model.
    - A comparator returns an integer; only its sign is ever used.
    - [Math.log2(i + 1) & 1] truncates the logarithm to an integer, which is
      [Nat.log2 (i + 1)].
    - The selection routine [select] is imported by the source from the
      package floyd-rivest; it is a parameter of the model. *)

From Stdlib Require Import ZArith QArith Qround Qminmax Qabs Lia Lqa String.
From stdpp Require Import base decidable option list.

#[local] Open Scope nat_scope.
#[local] Set Default Proof Using "Type".

(** ** Comparison results *)

(** [enum CMP { LT = -1, EQ = 0, GT = 1 }] *)
Inductive CMP := LT | EQ | GT.

#[global] Instance CMP_eq_dec : EqDecision CMP.
Proof. solve_decision. Defined.

(** [Math.sign] on an integer. *)
Definition sign (x : Z) : CMP :=
  match x with
  | Z0 => EQ
  | Zpos _ => GT
  | Zneg _ => LT
  end.

(** [(Math.log2(i + 1) & 1) === 0] *)
Definition isMinLevel (i : nat) : bool := Nat.even (Nat.log2 (i + 1)).

(** A capacity: a count or [Infinity]. *)
Inductive Limit := Finite (n : nat) | Infinity.

#[global] Instance Limit_eq_dec : EqDecision Limit.
Proof. solve_decision. Defined.

(** [n > limit], [n < limit] and [n <= limit] for a count [n]. *)
Definition gt_limit (n : nat) (l : Limit) : bool :=
  match l with Finite k => k <? n | Infinity => false end.

Definition lt_limit (n : nat) (l : Limit) : bool :=
  match l with Finite k => n <? k | Infinity => true end.

Definition le_limit (n : nat) (l : Limit) : Prop :=
  match l with Finite k => n <= k | Infinity => True end.

(** [a[i] = x] on a JS array: overwrite in range, extend by one at
    [i = a.length]. *)
Definition array_set {A} (a : list A) (i : nat) (x : A) : list A :=
  if i <? length a then <[i:=x]> a else a ++ [x].

(** ** The bounded priority container *)

Module Beam.
Section Beam.
Context {T : Type}.

(** The caller's comparator ([compare] argument of the constructor). *)
Variable cmp : T -> T -> Z.

(** floyd-rivest's [select(items, k, compare)], which permutes [items]
in place. *)
Variable select : list T -> nat -> (T -> T -> CMP) -> list T.

Record t := mk { heap : list T; size : nat; limit : Limit }.

Definition set_heap (b : t) (h : list T) : t :=
{| heap := h; size := size b; limit := limit b |}.

(** [this.compare = (a, b) => Math.sign(compare(a, b))] *)
Definition compare (a b : T) : CMP := sign (cmp a b).

(** [compare(heap[l], heap[r]) === GT ? r : l] *)
Definition pick (b : t) (gt : CMP) (l r : nat) : nat :=
match heap b !! l, heap b !! r with
| Some hl, Some hr => if decide (compare hl hr = gt) then r else l
| _, _ => l
end.

(** Result of [getSmallestDescendent]. *)
Record Descendent := { has : bool; isgc : bool; m : nat }.

(** [getSmallestChild(i, GT)], returning [(has, m)].  The source's local
names [LT] and [GT] are written [lt] and [gt], the constructors of
[CMP] keeping the capitals. *)
Definition getSmallestChild (b : t) (i : nat) (gt : CMP) : bool * nat :=
let l := 2 * i + 1 in
if size b <=? l then (false, l) else
let r := l + 1 in
if size b <=? r then (true, l) else
(true, pick b gt l r).

Definition getSmallestDescendent (b : t) (i : nat) (gt : CMP) : Descendent :=
let l := 2 * i + 1 in
if size b <=? l then {| has := false; isgc := false; m := l |} else
let r := l + 1 in
if size b <=? r then {| has := true; isgc := false; m := l |} else
let '(hasl, lc) := getSmallestChild b l gt in
if negb hasl then {| has := true; isgc := false; m := pick b gt l r |} else
let '(hasr, rc) := getSmallestChild b r gt in
if negb hasr then {| has := true; isgc := true; m := lc |} else
{| has := true; isgc := true; m := pick b gt lc rc |}.

(** The [while (true)] loop of [trickleDown].  Every [continue] moves [i]
to a grandchild, so [size b] rounds are more than the loop can make. *)
Fixpoint trickleLoop (fuel : nat) (lt gt : CMP) (b : t) (i : nat) : t :=
match fuel with
| O => b
| S fuel' =>
let d := getSmallestDescendent b i gt in
if negb (has d) then b else
match heap b !! m d, heap b !! i with
| Some hm, Some hi =>
  if decide (compare hm hi = lt) then
    let b1 := set_heap b (<[m d:=hi]> (<[i:=hm]> (heap b))) in
    if isgc d then
      let p := (m d - 1) / 2 in
      match heap b1 !! p with
      | Some hp =>
        let b2 :=
          if decide (compare hi hp = gt)
          then set_heap b1 (<[m d:=hp]> (<[p:=hi]> (heap b1)))
          else b1 in
        trickleLoop fuel' lt gt b2 (m d)
      | None => b1
      end
    else b1
  else b
| _, _ => b
end
end.

Definition trickleDown (i : nat) (b : t) : t :=
let '(lt, gt) := if isMinLevel i then (LT, GT) else (GT, LT) in
trickleLoop (size b) lt gt b i.

(** The [while (true)] loop of [bubbleUp]; [i] strictly decreases. *)
Fixpoint bubbleLoop (fuel : nat) (lt : CMP) (h : list T) (i : nat) : list T :=
match fuel with
| O => h
| S fuel' =>
if i <? 3 then h else
let gp := ((i - 1) / 2 - 1) / 2 in
match h !! i, h !! gp with
| Some hi, Some hp =>
  if decide (compare hi hp = lt)
  then bubbleLoop fuel' lt (<[gp:=hi]> (<[i:=hp]> h)) gp
  else h
| _, _ => h
end
end.

(** [bubbleUp(i)], called with [i > 0] only. *)
Definition bubbleUp (i : nat) (b : t) : t :=
let p := (i - 1) / 2 in
match heap b !! i, heap b !! p with
| Some hi, Some hp =>
let c := compare hi hp in
let swapped := <[p:=hi]> (<[i:=hp]> (heap b)) in
let '(h1, i1, lt) :=
  if isMinLevel i then
    if decide (c = GT) then (swapped, p, GT) else (heap b, i, LT)
  else if decide (c = LT) then (swapped, p, LT)
  else (heap b, i, GT) in
set_heap b (bubbleLoop i1 lt h1 i1)
| _, _ => b
end.

(** [get [0]()] *)
Definition first (b : t) : option T :=
if 0 <? size b then heap b !! 0 else None.

Definition maxIndex (b : t) : nat :=
if size b <? 2 then 0 else
if size b =? 2 then 1 else
match heap b !! 1, heap b !! 2 with
| Some h1, Some h2 => if decide (compare h1 h2 = LT) then 2 else 1
| _, _ => 1
end.

Definition push (b : t) (e : T) : t :=
if decide (limit b = Finite 0) then b else
if size b =? 0 then
{| heap := array_set (heap b) 0 e; size := 1; limit := limit b |}
else if lt_limit (size b) (limit b) then
let index := size b in
bubbleUp index
  {| heap := array_set (heap b) index e; size := S (size b);
     limit := limit b |}
else if decide (limit b = Finite 1) then
match heap b !! 0 with
| Some h0 =>
  if decide (compare e h0 = LT) then set_heap b (<[0:=e]> (heap b)) else b
| None => b
end
else
let maxI := maxIndex b in
match heap b !! maxI with
| Some hmax =>
  if decide (compare e hmax = LT)
  then trickleDown 0 (trickleDown maxI (set_heap b (<[maxI:=e]> (heap b))))
  else b
| None => b
end.

Definition pop (b : t) : option T * t :=
if size b =? 0 then (None, b) else
let size' := size b - 1 in
let ret := heap b !! 0 in
if 0 <? size' then
let h1 :=
  match heap b !! size' with
  | Some x => <[0:=x]> (heap b)
  | None => heap b
  end in
(ret, trickleDown 0 {| heap := take size' h1; size := size'; limit := limit b |})
else (ret, {| heap := []; size := size'; limit := limit b |}).

(** [for (let i = ...; i >= 0; i--) this.trickleDown(i)] *)
Fixpoint trickleFrom (i : nat) (b : t) : t :=
let b' := trickleDown i b in
match i with
| O => b'
| S j => trickleFrom j b'
end.

(** The constructor. *)
Definition new (lim : Limit) (elements : list T) : t :=
let items := elements in
let b0 :=
match lim with
| Finite k =>
  if gt_limit (length items) lim
  then {| heap := take k (select items k compare); size := k; limit := lim |}
  else {| heap := items; size := length items; limit := lim |}
| Infinity => {| heap := items; size := length items; limit := lim |}
end in
trickleFrom (size b0 / 2) b0.

(** [get length()] *)
Definition length (b : t) : nat := size b.

End Beam.
End Beam.

(** ** Numbers of the options object *)

(** A JS number as the options use it: a finite value, [Infinity],
    [-Infinity] or [NaN].  Times and ratios are rationals (floating-point
    rounding is not modelled); the beam capacity, a count, is an integer. *)
Inductive number (A : Type) := Fin (a : A) | PInf | NInf | NaN.
Arguments Fin {A} a.
Arguments PInf {A}.
Arguments NInf {A}.
Arguments NaN {A}.

(** [Number(x)] for [x] a number or [undefined]. *)
Definition Number {A} (x : option (number A)) : number A :=
  match x with Some n => n | None => NaN end.

Definition Qlt_bool (x y : Q) : bool := negb (Qle_bool y x).

(** [x >= y], [x < y] and [x > y] for a finite [x]. *)
Definition num_ge (x : Q) (y : number Q) : bool :=
  match y with
  | Fin q => Qle_bool q x
  | NInf => true
  | PInf | NaN => false
  end.

Definition num_lt (x : Q) (y : number Q) : bool :=
  match y with
  | Fin q => Qlt_bool x q
  | PInf => true
  | NInf | NaN => false
  end.

Definition num_gt (x : Q) (y : number Q) : bool :=
  match y with
  | Fin q => Qlt_bool q x
  | NInf => true
  | PInf | NaN => false
  end.

(** ** The options object *)

Module OptimizerOptions.
Record t {T : Type} := mk {
  isOptimal : option (T -> bool);
  beamLimit : option (number Z);
  turnTime : option (number Q);
  totalTime : option (number Q);
  maxSavedEquivalents : option (number Q);
  equivBailLimit : option (number Q);
  utilization : option (number Q);
  optimalTimeRatio : option (number Q);
}.
Arguments t T : clear implicits.

(** [options = {}] *)
Definition empty {T} : t T :=
  mk T None None None None None None None None.
End OptimizerOptions.

(** ** The containers of the driver *)

(** [interface SequentialAccess<T>] *)
Class SequentialAccess (T C : Type) := {
  sa_length : C -> nat;
  sa_push : C -> T -> C;
  sa_pop : C -> option T * C;
  sa_first : C -> option T;
}.

(** A plain array: [push] appends, [pop] removes the last element, [[0]] is
    the first element. *)
#[global] Instance array_access {T} : SequentialAccess T (list T) := {
  sa_length a := length a;
  sa_push a e := a ++ [e];
  sa_pop a := (last a, removelast a);
  sa_first a := a !! 0;
}.

#[global] Instance beam_access {T} (cmp : T -> T -> Z) :
  SequentialAccess T (@Beam.t T) := {
  sa_length := Beam.length;
  sa_push := Beam.push cmp;
  sa_pop := Beam.pop cmp;
  sa_first := Beam.first;
}.

(** ** The search driver *)

Module Optimizer.
Section Optimizer.
Context {T : Type} `{EqDecision T}.

Variable select : list T -> nat -> (T -> T -> CMP) -> list T.

Record t := mk {
extend : T -> list T;
check : T -> bool;
evaluate : T -> T -> Z;
isOptimal : option (T -> bool);
beamLimit : Limit;
turnTime : Q;
totalTime : number Q;
maxSavedEquivalents : number Q;
equivBailLimit : number Q;
turnInterval : Q;
optimalTimeRatio : Q;
}.

(** [x || d] on a number or [undefined]: [undefined], [0] and [NaN] are
falsy. *)
Definition or_default (x : option (number Q)) (d : Q) : number Q :=
match x with
| Some (Fin q) => if Qeq_bool q 0%Q then Fin d else Fin q
| Some PInf => PInf
| Some NInf => NInf
| Some NaN | None => Fin d
end.

(** [Math.min(Math.abs(options.utilization || 0.5), 1)] *)
Definition utilization (options : OptimizerOptions.t T) : Q :=
match or_default (OptimizerOptions.utilization options) (1 # 2)%Q with
| Fin q => Qmin (Qabs q) 1%Q
| PInf | NInf => 1%Q
| NaN => (1 # 2)%Q
end.

(** The constructor. *)
Definition new (extend : T -> list T) (check : T -> bool)
(evaluate : T -> T -> Z) (options : OptimizerOptions.t T) : t :=
let optTurnTime := Number (OptimizerOptions.turnTime options) in
let turnTime :=
match optTurnTime with
| Fin q => if Qlt_bool 0%Q q then q else 30%Q
| _ => 30%Q
end in
{| extend := extend;
 check := check;
 evaluate := evaluate;
 isOptimal := OptimizerOptions.isOptimal options;
 beamLimit :=
   match Number (OptimizerOptions.beamLimit options) with
   | Fin z => if (0 <? z)%Z then Finite (Z.to_nat z) else Infinity
   | _ => Infinity
   end;
 turnTime := turnTime;
 totalTime :=
   match Number (OptimizerOptions.totalTime options) with
   | Fin q => if Qlt_bool 0%Q q then Fin q else PInf
   | _ => PInf
   end;
 maxSavedEquivalents :=
   or_default (OptimizerOptions.maxSavedEquivalents options) 0%Q;
 equivBailLimit :=
   match OptimizerOptions.equivBailLimit options with
   | Some x => x
   | None => PInf
   end;
 turnInterval := (turnTime / utilization options)%Q;
 optimalTimeRatio :=
   match Number (OptimizerOptions.optimalTimeRatio options) with
   | Fin q => if Qle_bool 0%Q q && Qle_bool q 1%Q then q else (33 # 50)%Q
   | _ => (33 # 50)%Q
   end |}.

(** [partials]: a [Beam] or a plain array. *)
Inductive Partials := PBeam (b : @Beam.t T) | PArray (a : list T).

Section Run.
Variable o : t.

#[global] Instance partials_access : SequentialAccess T Partials := {
sa_length p :=
match p with PBeam b => sa_length (SequentialAccess := beam_access (evaluate o)) b | PArray a => sa_length a end;
sa_push p e :=
match p with
| PBeam b => PBeam (sa_push (SequentialAccess := beam_access (evaluate o)) b e)
| PArray a => PArray (sa_push a e)
end;
sa_pop p :=
match p with
| PBeam b => let '(r, b') := sa_pop (SequentialAccess := beam_access (evaluate o)) b in (r, PBeam b')
| PArray a => let '(r, a') := sa_pop a in (r, PArray a')
end;
sa_first p :=
match p with PBeam b => sa_first (SequentialAccess := beam_access (evaluate o)) b | PArray a => sa_first a end;
}.

(** What the driver does that its caller and host can observe: the
timer it installs and clears, the candidates it pops, expands and
scores, and the lines it logs. *)
Inductive Message :=
| TimeLimits      (* "Terminating optimization due to time limits." *)
| FoundOptimal    (* "Found optimal solution early." *)
| SolutionCount   (* "Terminating optimization based on solution count." *)
| Exhausted       (* "Exhausted search space." *)
| Summary (activeTime bestTime : Z).
            (* "Total Search Time: ... Found best solution by ..." *)

Inductive Event :=
| SetInterval
| ClearInterval
| Popped (c : T)
| Extended (c : T)
| Scored (c best : T) (cmp : Z)
| Console (msg : Message).

(** Where the driver stands: between two calls of [loop], or inside the
[iter] loop of a call that read [start] and computed [limit]. *)
Inductive Phase := Idle | Turn (start : Z) (limit : Q).

(** The variables of the closure of [run], then the bookkeeping of the
model: the phase, the number of [Date.now()] calls made so far, and
the trace. *)
Record State := mkState {
partials : Partials;
representativeBest : T;
equivalents : list T;
activeTime : Z;
equivSize : nat;
nextLoopTime : Q;
hasTop : bool;
top : option T;
optimalTime : number Q;
bestTime : Z;
phase : Phase;
ticks : nat;
trace : list Event;
}.

(** The promise [run] returns: rejected (with the trace up to the [throw]
in the executor), still pending, or resolved with
[[equivalents, activeTime]] (the last state is kept for its trace). *)
Inductive Outcome :=
| Rejected (err : string) (trace : list Event)
| Pending (s : State)
| Resolved (equivalents : list T) (activeTime : Z) (s : State).

(** [Set.prototype.add] on a set kept in insertion order. *)
Definition set_add (c : T) (s : list T) : list T :=
if decide (c ∈ s) then s else s ++ [c].

(** The code after the [iter] loop: log, clear the timer, resolve. *)
Definition finish (msg : Message) (s : State) : Outcome :=
let s' :=
mkState (partials s) (representativeBest s) (equivalents s)
(activeTime s) (equivSize s) (nextLoopTime s) (hasTop s) (top s)
(optimalTime s) (bestTime s) (phase s) (ticks s)
(trace s ++ [Console msg; Console (Summary (activeTime s) (bestTime s));
             ClearInterval]) in
Resolved (equivalents s) (activeTime s) s'.

(** The readings of [Date.now()], in the order of the calls. *)
Variable clock : nat -> Z.

(** One call of [loop] up to the [iter] loop. *)
Definition enter (s : State) : State :=
let start := clock (ticks s) in
if Qlt_bool (inject_Z start) (nextLoopTime s) then
mkState (partials s) (representativeBest s) (equivalents s)
(activeTime s) (equivSize s) (nextLoopTime s) (hasTop s) (top s)
(optimalTime s) (bestTime s) Idle (S (ticks s)) (trace s)
else
let next :=
(nextLoopTime s
 + inject_Z (Qceiling ((inject_Z start - nextLoopTime s) / turnInterval o))
   * turnInterval o)%Q in
mkState (partials s) (representativeBest s) (equivalents s)
(activeTime s) (equivSize s) next (hasTop s) (top s)
(optimalTime s) (bestTime s)
(Turn start (inject_Z start + turnTime o)%Q) (S (ticks s)) (trace s).

(** [if (hasTop) { for (const c of extend(top)) partials.push(c); hasTop = false; }] *)
Definition expand (s : State) : State :=
match top s with
| Some c =>
mkState (fold_left sa_push (extend o c) (partials s))
(representativeBest s) (equivalents s)
(activeTime s) (equivSize s) (nextLoopTime s) false (top s)
(optimalTime s) (bestTime s) (phase s) (ticks s)
(trace s ++ [Extended c])
| None =>
mkState (partials s) (representativeBest s) (equivalents s)
(activeTime s) (equivSize s) (nextLoopTime s) false (top s)
(optimalTime s) (bestTime s) (phase s) (ticks s) (trace s)
end.

(** The scoring of a complete candidate, from
[const cmp = evaluate(candidate, representativeBest)] on. *)
Definition score (candidate : T) (rest : Partials) (s : State) : Outcome :=
let cmp := evaluate o candidate (representativeBest s) in
let tr := trace s ++ [Popped candidate; Scored candidate (representativeBest s) cmp] in
if (cmp <? 0)%Z then
let oracle :=
match isOptimal o with
| Some f => f candidate
| None => false
end in
if oracle then
finish FoundOptimal
  (mkState rest (representativeBest s) [candidate]
     (activeTime s) (equivSize s) (nextLoopTime s) (hasTop s) (top s)
     (optimalTime s) (activeTime s) (phase s) (S (ticks s)) tr)
else
let optimalTime' :=
  if Qeq_bool (optimalTimeRatio o) 0%Q then optimalTime s
  else Fin (inject_Z (activeTime s) * (2 - optimalTimeRatio o))%Q in
Pending
  (mkState rest candidate [candidate]
     (activeTime s) (equivSize s) (nextLoopTime s) (hasTop s) (top s)
     optimalTime' (activeTime s) (phase s) (S (ticks s)) tr)
else if (cmp =? 0)%Z
    && num_lt (inject_Z (Z.of_nat (equivSize s))) (maxSavedEquivalents o) then
let s' :=
mkState rest (representativeBest s) (set_add candidate (equivalents s))
  (activeTime s) (S (equivSize s)) (nextLoopTime s) (hasTop s) (top s)
  (optimalTime s) (bestTime s) (phase s) (S (ticks s)) tr in
if num_gt (inject_Z (Z.of_nat (equivSize s'))) (equivBailLimit o)
then finish SolutionCount s'
else Pending s'
else
Pending
(mkState rest (representativeBest s) (equivalents s)
   (activeTime s) (equivSize s) (nextLoopTime s) (hasTop s) (top s)
   (optimalTime s) (bestTime s) (phase s) (S (ticks s)) tr).

(** One round of [while (partials.length > 0)], entered with [hasTop]
false. *)
Definition iterate (start : Z) (limit : Q) (s : State) : Outcome :=
if sa_length (partials s) =? 0 then finish Exhausted s else
let now := clock (ticks s) in
if Qlt_bool limit (inject_Z now) then
let activeTime' := (activeTime s + (now - start))%Z in
let s' :=
mkState (partials s) (representativeBest s) (equivalents s)
  activeTime' (equivSize s) (nextLoopTime s) (hasTop s) (top s)
  (optimalTime s) (bestTime s) Idle (S (ticks s)) (trace s) in
if num_ge (inject_Z activeTime') (totalTime o)
 || num_ge (inject_Z activeTime') (optimalTime s)
then finish TimeLimits s'
else Pending s'
else
match sa_pop (partials s) with
| (Some candidate, rest) =>
if negb (check o candidate) then
  Pending
    (mkState rest (representativeBest s) (equivalents s)
       (activeTime s) (equivSize s) (nextLoopTime s) true (Some candidate)
       (optimalTime s) (bestTime s) (phase s) (S (ticks s))
       (trace s ++ [Popped candidate]))
else score candidate rest s
| (None, _) => finish Exhausted s
end.

(** One step of the driver: a call of [loop] that returns at once or
enters its turn, the pending expansion at the head of the [iter]
loop, or one round of the inner loop. *)
Definition step (s : State) : Outcome :=
match phase s with
| Idle => Pending (enter s)
| Turn start limit =>
if hasTop s then Pending (expand s) else iterate start limit s
end.

Fixpoint steps (n : nat) (s : State) : Outcome :=
match n with
| O => Pending s
| S k =>
match step s with
| Pending s' => steps k s'
| r => r
end
end.

(** The body of the promise up to the first call of [loop]. *)
Definition start (init : list T) : Outcome :=
let partials :=
match isOptimal o, beamLimit o with
| None, Infinity => PArray init
| _, _ => PBeam (Beam.new (evaluate o) select (beamLimit o) init)
end in
if sa_length partials =? 0 then Rejected "Missing Initial States" [] else
match sa_first partials with
| Some best =>
Pending
(mkState partials best [] 0%Z 0 (inject_Z (clock 0)) false None
   (totalTime o) 0%Z Idle 1 [SetInterval])
| None => Rejected "unreachable" []
end.

(** [run(init)], observed after [n] steps of the driver. *)
Definition run (init : list T) (n : nat) : Outcome :=
match start init with
| Pending s => steps n s
| r => r
end.

End Run.
End Optimizer.
End Optimizer.

(** * Vocabulary of the properties *)

Section Vocabulary.
Context {T : Type}.
Variable cmp : T -> T -> Z.

(** The array holds exactly [size] elements and [size] is within the
    capacity. *)
Definition wf (b : @Beam.t T) : Prop :=
  length (Beam.heap b) = Beam.size b /\ le_limit (Beam.size b) (Beam.limit b).

(** Two beams of the same shape: same size, capacity and array length. *)
Definition same_shape (b' b : @Beam.t T) : Prop :=
  Beam.size b' = Beam.size b /\ Beam.limit b' = Beam.limit b
  /\ length (Beam.heap b') = length (Beam.heap b).

(** The public operations of a beam, and a beam after a sequence of them. *)
Inductive Op := Push (e : T) | Pop.

Definition apply_op (b : @Beam.t T) (op : Op) : @Beam.t T :=
  match op with
  | Push e => Beam.push cmp b e
  | Pop => (Beam.pop cmp b).2
  end.

Definition after (b : @Beam.t T) (ops : list Op) : @Beam.t T :=
  fold_left apply_op ops b.

(** The sign of a comparison with its arguments exchanged. *)
Definition opposite (c : CMP) : CMP :=
  match c with LT => GT | EQ => EQ | GT => LT end.

(** The comparator contract: a consistent strict weak ordering. *)
Class StrictWeakOrder : Prop := {
  swo_opposite a b : sign (cmp b a) = opposite (sign (cmp a b));
  swo_trans a b c :
    sign (cmp a b) = LT -> sign (cmp b c) = LT -> sign (cmp a c) = LT;
  swo_tie a b c :
    sign (cmp a b) = EQ -> sign (cmp b c) = EQ -> sign (cmp a c) = EQ;
}.

(** [x] ranks no worse than [y]. *)
Definition no_worse (x y : T) : Prop := Beam.compare cmp x y <> GT.

(** [beam[0]] is a best-ranked element of the beam. *)
Definition root_is_best (b : @Beam.t T) : Prop :=
  forall r x, Beam.first b = Some r -> x ∈ Beam.heap b -> no_worse r x.

(** With two elements or more, the element at [maxIndex()], one of the
    root's children, is a worst-ranked element of the beam. *)
Definition children_hold_worst (b : @Beam.t T) : Prop :=
  2 <= Beam.size b ->
  exists w, Beam.heap b !! Beam.maxIndex cmp b = Some w
    /\ (Beam.maxIndex cmp b = 1 \/ Beam.maxIndex cmp b = 2)
    /\ forall x, x ∈ Beam.heap b -> no_worse x w.

(** A selection routine that meets floyd-rivest's contract by sorting:
    it is used where a concrete [select] is needed. *)
Fixpoint insert_sorted (c : T -> T -> CMP) (x : T) (l : list T) : list T :=
  match l with
  | [] => [x]
  | y :: l' =>
    if decide (c x y = GT) then y :: insert_sorted c x l' else x :: l
  end.

Definition sort_select (l : list T) (k : nat) (c : T -> T -> CMP) : list T :=
  foldr (insert_sorted c) [] l.

End Vocabulary.

(** The comparator [(a, b) => a - b] on integers. *)
Definition numeric (a b : Z) : Z := (a - b)%Z.

(** The utilization as the options table words it: the value clamped into
    [0, 1], and 0.5 when there is no usable value. *)
Definition clamp01 (q : Q) : Q := Qmax 0%Q (Qmin q 1%Q).

Definition tabled_utilization (u : option (number Q)) : Q :=
match u with
| Some (Fin q) => clamp01 q
| Some PInf => 1%Q
| Some NInf => 0%Q
| Some NaN | None => (1 # 2)%Q
end.

(** Vocabulary for the runs of the driver. *)
Section RunVocabulary.
Context {T : Type} `{EqDecision T}.
Variable o : @Optimizer.t T.

(** The candidate of a scoring that found it strictly better than the
    representative best of the moment. *)
Definition improvement (e : @Optimizer.Event T) : option T :=
match e with
| Optimizer.Scored c _ z => if (z <? 0)%Z then Some c else None
| _ => None
end.

Definition improvements (tr : list (@Optimizer.Event T)) : list T :=
omap improvement tr.

(** The best complete state found so far: the last strict improvement,
    and the representative best (still the seed) before the first one. *)
Definition best_so_far (s : @Optimizer.State T) : T :=
default (Optimizer.representativeBest s) (last (improvements (Optimizer.trace s))).

(** What holds of the set of equivalents [E] and of the tie counter at every
    point of a run. *)
Definition equivalents_ok (E : list T) (s : @Optimizer.State T) : Prop :=
  let tr := Optimizer.trace s in
  let best := best_so_far s in
  (improvements tr <> [] -> best ∈ E)
  /\ (forall e, e ∈ E ->
        Optimizer.check o e = true /\ Optimizer.Popped e ∈ tr
        /\ (e = best \/ Optimizer.evaluate o e best = 0%Z))
  /\ NoDup E
  /\ length E <= (if decide (improvements tr = []) then 0 else 1) + Optimizer.equivSize s
  /\ (forall k, Optimizer.equivSize s = S k ->
        num_lt (inject_Z (Z.of_nat k)) (Optimizer.maxSavedEquivalents o) = true).

Definition pending_ok (s : @Optimizer.State T) : Prop :=
  equivalents_ok (Optimizer.equivalents s) s
  /\ Optimizer.representativeBest s = best_so_far s.

(** At the end the variable [representativeBest] holds the best state
    found, unless the oracle ended the run: the [break] comes before the
    assignment. *)
Definition resolved_ok (E : list T) (a : Z) (s : @Optimizer.State T) : Prop :=
  equivalents_ok E s /\ E = Optimizer.equivalents s /\ a = Optimizer.activeTime s
  /\ (Optimizer.representativeBest s = best_so_far s
      \/ exists f, Optimizer.isOptimal o = Some f /\ f (best_so_far s) = true
                   /\ E = [best_so_far s]).

Definition outcome_ok (r : @Optimizer.Outcome T) : Prop :=
match r with
| Optimizer.Rejected _ _ => True
| Optimizer.Pending s => pending_ok s
| Optimizer.Resolved E a s => resolved_ok E a s
end.

(** The states the search can get to: the initial states, and the
    successors of the incomplete states it can get to (complete states are
    scored, not expanded). *)
Inductive reachable (init : list T) : T -> Prop :=
| reach_init x : x ∈ init -> reachable init x
| reach_step x y :
    reachable init x -> Optimizer.check o x = false -> y ∈ Optimizer.extend o x ->
    reachable init y.

(** The expansion tree below every state is finite: [weight] bounds the
    number of states below a state. *)
Definition finite_expansion (weight : T -> nat) : Prop :=
  forall c, Optimizer.check o c = false ->
    sum_list_with (fun x => S (weight x)) (Optimizer.extend o c) <= weight c.

(** The search in array mode between two steps: every initial state, and
    every successor of a popped incomplete state, has been popped or waits
    in the array, or is a successor of the pending [top]; nothing has been
    logged yet. *)
Definition frontier_ok (init : list T) (s : @Optimizer.State T) : Prop :=
  exists a,
    Optimizer.partials s = Optimizer.PArray a
    /\ (forall x, x ∈ init -> Optimizer.Popped x ∈ Optimizer.trace s \/ x ∈ a)
    /\ (forall x y,
          Optimizer.Popped x ∈ Optimizer.trace s -> Optimizer.check o x = false ->
          y ∈ Optimizer.extend o x ->
          Optimizer.Popped y ∈ Optimizer.trace s \/ y ∈ a
          \/ (Optimizer.hasTop s = true /\ Optimizer.top s = Some x))
    /\ (Optimizer.hasTop s = true ->
        exists c, Optimizer.top s = Some c /\ Optimizer.check o c = false)
    /\ (forall msg, Optimizer.Console msg ∉ Optimizer.trace s).

(** Every initial state and every successor of a popped incomplete state
    has been popped. *)
Definition closed (init : list T) (s : @Optimizer.State T) : Prop :=
  (forall x, x ∈ init -> Optimizer.Popped x ∈ Optimizer.trace s)
  /\ (forall x y,
        Optimizer.Popped x ∈ Optimizer.trace s -> Optimizer.check o x = false ->
        y ∈ Optimizer.extend o x -> Optimizer.Popped y ∈ Optimizer.trace s).

(** The run ended because the container was empty. *)
Definition exhausted (s : @Optimizer.State T) : Prop :=
  Optimizer.Console Optimizer.Exhausted ∈ Optimizer.trace s.

(** The states a container holds, and what its operations rely on. *)
Definition contents (p : @Optimizer.Partials T) : list T :=
  match p with
  | Optimizer.PBeam b => Beam.heap b
  | Optimizer.PArray a => a
  end.

Definition container_ok (p : @Optimizer.Partials T) : Prop :=
  match p with
  | Optimizer.PBeam b => wf b
  | Optimizer.PArray _ => True
  end.

(** What is left to do: the states waiting in the container with all that
    lies below them, and the pending expansion. *)
Definition work_left (weight : T -> nat) (s : @Optimizer.State T) : nat :=
  2 * sum_list_with (fun x => S (weight x)) (contents (Optimizer.partials s))
  + (if Optimizer.hasTop s
     then match Optimizer.top s with Some c => 2 * weight c + 1 | None => 0 end
     else 0).

(** What a step of a run starts from. *)
Definition searching (s : @Optimizer.State T) : Prop :=
  container_ok (Optimizer.partials s)
  /\ (Optimizer.hasTop s = true ->
      exists c, Optimizer.top s = Some c /\ Optimizer.check o c = false)
  /\ (Optimizer.phase s = Optimizer.Idle -> Optimizer.hasTop s = false).

(** A clock that goes on: it never goes back, it passes every time, and
    two successive readings are at most one turn time apart. *)
Definition live (clock : nat -> Z) : Prop :=
  (forall n, (clock n <= clock (S n))%Z)
  /\ (forall t : Z, exists n, (t <= clock n)%Z)
  /\ (forall n, (inject_Z (clock (S n)) <= inject_Z (clock n) + Optimizer.turnTime o)%Q).

(** No complete state popped so far ranks strictly better than [e]. *)
Definition unbeaten (e : T) (s : @Optimizer.State T) : Prop :=
  forall c, Optimizer.Popped c ∈ Optimizer.trace s -> Optimizer.check o c = true ->
    sign (Optimizer.evaluate o c e) <> LT.

(** A clock under which the whole run fits in its first turn: the first
    call of [loop] is not early and no later reading is past the limit of
    the turn that call opens. *)
Definition quiet (clock : nat -> Z) : Prop :=
  (clock 0%nat <= clock 1%nat)%Z
  /\ forall k, (inject_Z (clock k) <= inject_Z (clock 1%nat) + Optimizer.turnTime o)%Q.

(** Two states that differ at most in [nextLoopTime] and in the readings
    kept by the phase. *)
Definition same_search (s1 s2 : @Optimizer.State T) : Prop :=
  Optimizer.partials s1 = Optimizer.partials s2
  /\ Optimizer.representativeBest s1 = Optimizer.representativeBest s2
  /\ Optimizer.equivalents s1 = Optimizer.equivalents s2
  /\ Optimizer.activeTime s1 = Optimizer.activeTime s2
  /\ Optimizer.equivSize s1 = Optimizer.equivSize s2
  /\ Optimizer.hasTop s1 = Optimizer.hasTop s2
  /\ Optimizer.top s1 = Optimizer.top s2
  /\ Optimizer.optimalTime s1 = Optimizer.optimalTime s2
  /\ Optimizer.bestTime s1 = Optimizer.bestTime s2
  /\ Optimizer.ticks s1 = Optimizer.ticks s2
  /\ Optimizer.trace s1 = Optimizer.trace s2.

(** The phase of a state in a run under a quiet clock. *)
Definition in_first_turn (clock : nat -> Z) (s : @Optimizer.State T) : Prop :=
  match Optimizer.phase s with
  | Optimizer.Idle =>
    Optimizer.nextLoopTime s = inject_Z (clock 0) /\ Optimizer.ticks s = 1
  | Optimizer.Turn start limit =>
    limit = (inject_Z (clock 1%nat) + Optimizer.turnTime o)%Q
  end.

Definition same_phase (s1 s2 : @Optimizer.State T) : Prop :=
  match Optimizer.phase s1, Optimizer.phase s2 with
  | Optimizer.Idle, Optimizer.Idle => True
  | Optimizer.Turn _ _, Optimizer.Turn _ _ => True
  | _, _ => False
  end.

Definition same_outcome (r1 r2 : @Optimizer.Outcome T) : Prop :=
  match r1, r2 with
  | Optimizer.Pending s1, Optimizer.Pending s2 =>
    same_search s1 s2 /\ same_phase s1 s2
  | Optimizer.Resolved E1 a1 s1, Optimizer.Resolved E2 a2 s2 =>
    E1 = E2 /\ a1 = a2 /\ same_search s1 s2
  | Optimizer.Rejected e1 t1, Optimizer.Rejected e2 t2 => e1 = e2 /\ t1 = t2
  | _, _ => False
  end.

(** The events of the search proper. *)
Definition search_event (e : @Optimizer.Event T) : Prop :=
  match e with
  | Optimizer.Popped _ | Optimizer.Extended _ | Optimizer.Scored _ _ _ => True
  | _ => False
  end.

(** The trace of a run that is going on: the timer was installed first, and
    nothing but search events followed. *)
Definition running_trace (tr : list (@Optimizer.Event T)) : Prop :=
  exists tl, tr = Optimizer.SetInterval :: tl /\ Forall search_event tl.

(** The state waiting for its expansion, if there is one. *)
Definition pending_top (s : @Optimizer.State T) : option T :=
  if Optimizer.hasTop s then Optimizer.top s else None.

(** Every popped state got the treatment of its kind: only popped
    incomplete states were expanded, only popped complete states were
    scored, with the comparator's verdict; and every popped state was scored
    if complete and expanded if not, the one that is [pending] apart. *)
Definition handled (tr : list (@Optimizer.Event T)) (pending : option T) : Prop :=
  (forall c, Optimizer.Extended c ∈ tr ->
     Optimizer.check o c = false /\ Optimizer.Popped c ∈ tr)
  /\ (forall c b z, Optimizer.Scored c b z ∈ tr ->
        Optimizer.check o c = true /\ Optimizer.Popped c ∈ tr
        /\ z = Optimizer.evaluate o c b)
  /\ (forall c, Optimizer.Popped c ∈ tr ->
        if Optimizer.check o c
        then exists b, Optimizer.Scored c b (Optimizer.evaluate o c b) ∈ tr
        else Optimizer.Extended c ∈ tr \/ pending = Some c).

Definition trace_ok (s : @Optimizer.State T) : Prop :=
  running_trace (Optimizer.trace s)
  /\ handled (Optimizer.trace s) (pending_top s)
  /\ (Optimizer.hasTop s = true ->
      exists c, Optimizer.top s = Some c /\ Optimizer.check o c = false
                /\ Optimizer.Popped c ∈ Optimizer.trace s).

(** Everything the search holds can be reached from the initial states. *)
Definition sound (init : list T) (s : @Optimizer.State T) : Prop :=
  (forall x, x ∈ contents (Optimizer.partials s) -> reachable init x)
  /\ (Optimizer.hasTop s = true ->
      exists c, Optimizer.top s = Some c /\ Optimizer.check o c = false
                /\ reachable init c)
  /\ (forall x, x ∈ Optimizer.equivalents s ->
        Optimizer.check o x = true /\ reachable init x)
  /\ (forall x, Optimizer.Popped x ∈ Optimizer.trace s -> reachable init x).

(** The limits a pending run is within: the active time is below the total
    time, nothing has been logged, and the ties counted, if any, do not
    exceed the bail limit. *)
Definition within_limits (s : @Optimizer.State T) : Prop :=
  (forall msg, Optimizer.Console msg ∉ Optimizer.trace s)
  /\ num_ge (inject_Z (Optimizer.activeTime s)) (Optimizer.totalTime o) = false
  /\ (Optimizer.equivSize s = 0
      \/ num_gt (inject_Z (Z.of_nat (Optimizer.equivSize s))) (Optimizer.equivBailLimit o)
         = false).

(** The reason a run logs when it ends for the time, for the ties or for
    the oracle is the one it ended for. *)
Definition truthful (E : list T) (a : Z) (s : @Optimizer.State T) : Prop :=
  (Optimizer.Console Optimizer.TimeLimits ∈ Optimizer.trace s ->
   num_ge (inject_Z a) (Optimizer.totalTime o)
   || num_ge (inject_Z a) (Optimizer.optimalTime s) = true)
  /\ (Optimizer.Console Optimizer.SolutionCount ∈ Optimizer.trace s ->
      num_gt (inject_Z (Z.of_nat (Optimizer.equivSize s))) (Optimizer.equivBailLimit o)
      = true)
  /\ (Optimizer.Console Optimizer.FoundOptimal ∈ Optimizer.trace s ->
      exists f c, Optimizer.isOptimal o = Some f /\ f c = true /\ E = [c]).

(** The container of a run is the one the options call for, and a beam is
    the size it says and within the capacity of the options. *)
Definition configured (p : @Optimizer.Partials T) : Prop :=
  match p with
  | Optimizer.PBeam b =>
    ~ (Optimizer.isOptimal o = None /\ Optimizer.beamLimit o = Infinity)
    /\ wf b /\ Beam.limit b = Optimizer.beamLimit o
  | Optimizer.PArray _ =>
    Optimizer.isOptimal o = None /\ Optimizer.beamLimit o = Infinity
  end.

(** The number of states that wait in a container. *)
Definition waiting (p : @Optimizer.Partials T) : nat :=
  sa_length (SequentialAccess := Optimizer.partials_access o) p.

End RunVocabulary.

(** * Configurations and clocks of the concrete runs *)

(** Integer states with the comparator [a - b], under a clock that stands
    still. *)
Definition still : nat -> Z := fun _ => 0%Z.

(** A clock that reads one millisecond more at every reading. *)
Definition ticking : nat -> Z := fun n => Z.of_nat n.

Definition no_options : OptimizerOptions.t Z := OptimizerOptions.empty.

(** Two complete initial states, no expansion, default options. *)
Definition two_complete : @Optimizer.t Z :=
  Optimizer.new (fun _ => []) (fun _ => true) numeric no_options.

(** One incomplete state with two complete successors, and an oracle that
    accepts everything. *)
Definition with_oracle : @Optimizer.t Z :=
  Optimizer.new (fun n => if (n =? 0)%Z then [1; 2]%Z else [])
    (fun n => (0 <? n)%Z) numeric
    (OptimizerOptions.mk Z (Some (fun _ => true)) None None None None None None None).

(** The same oracle, on a state 5 that expands to the complete state 3. *)
Definition oracle_improving : @Optimizer.t Z :=
  Optimizer.new (fun n => if (n =? 5)%Z then [3]%Z else [])
    (fun n => (n <? 5)%Z) numeric
    (OptimizerOptions.mk Z (Some (fun _ => true)) None None None None None None None).

(** Ratio 1: the state 10 expands to the complete states 3 and 4, under a
    clock that jumps to 100 at its fourth reading. *)
Definition ratio_one : @Optimizer.t Z :=
  Optimizer.new (fun n => if (n =? 10)%Z then [3; 4]%Z else [])
    (fun n => (n <? 10)%Z) numeric
    (OptimizerOptions.mk Z None None None None None None None (Some (Fin 1%Q))).

Definition jumping : nat -> Z := fun k => if k <? 3 then 0%Z else 100%Z.

(** A clock that reads 20 milliseconds more at every reading. *)
Definition slow : nat -> Z := fun n => (20 * Z.of_nat n)%Z.

(** The counters 0..3: [n] expands to [n + 1] below 3, 3 is complete,
    capacity 2. *)
Definition counters : @Optimizer.t Z :=
  Optimizer.new (fun n => if (n <? 3)%Z then [(n + 1)%Z] else [])
    (fun n => (n =? 3)%Z) numeric
    (OptimizerOptions.mk Z None (Some (Fin 2%Z)) None None None None None None).

(** The counters again, in exhaustive mode: with the default options, and
    with the adaptive deadline switched off. *)
Definition chain : @Optimizer.t Z :=
  Optimizer.new (fun n => if (n <? 3)%Z then [(n + 1)%Z] else [])
    (fun n => (n =? 3)%Z) numeric no_options.

Definition chain_no_deadline : @Optimizer.t Z :=
  Optimizer.new (fun n => if (n <? 3)%Z then [(n + 1)%Z] else [])
    (fun n => (n =? 3)%Z) numeric
    (OptimizerOptions.mk Z None None None None None None None (Some (Fin 0%Q))).

Definition chain_weight (n : Z) : nat := Z.to_nat (3 - n).

(** The state 0 expands to the complete state 1, whose successor 2 is
    never looked at. *)
Definition beyond_complete : @Optimizer.t Z :=
  Optimizer.new (fun n => if (n <? 2)%Z then [(n + 1)%Z] else [])
    (fun n => (n =? 1)%Z) numeric no_options.

(** * Facts about the container *)

Section BeamFacts.
Context {T : Type}.
Variable cmp : T -> T -> Z.
Variable select : list T -> nat -> (T -> T -> CMP) -> list T.

#[local] Abbreviation beam := (@Beam.t T).
#[local] Abbreviation wf := (@wf T).
#[local] Abbreviation same_shape := (@same_shape T).

Lemma same_shape_refl b : same_shape b b.
Proof. by repeat split. Qed.

Lemma same_shape_trans b1 b2 b3 :
  same_shape b1 b2 -> same_shape b2 b3 -> same_shape b1 b3.
Proof. intros (?&?&?) (?&?&?). repeat split; congruence. Qed.

Lemma same_shape_wf b' b : same_shape b' b -> wf b -> wf b'.
Proof. intros (Hs&Hl&Hh) [H1 H2]. split; [congruence|]. by rewrite Hs, Hl. Qed.

Lemma set_heap_shape b h :
  length h = length (Beam.heap b) -> same_shape (Beam.set_heap b h) b.
Proof. intros H. by repeat split. Qed.

(** *** The loops stop within their fuel *)

Lemma pick_cases (b : beam) gt l r :
  Beam.pick cmp b gt l r = l \/ Beam.pick cmp b gt l r = r.
Proof. unfold Beam.pick. repeat case_match; auto. Qed.

Lemma child_below (b : beam) i gt :
  i < (Beam.getSmallestChild cmp b i gt).2.
Proof.
unfold Beam.getSmallestChild. repeat case_match; simpl; try lia.
match goal with |- context [Beam.pick cmp b gt ?l ?r] =>
  destruct (pick_cases b gt l r) as [-> | ->]
end; lia.
Qed.

Lemma descendent_below (b : beam) i gt :
  i < Beam.m (Beam.getSmallestDescendent cmp b i gt).
Proof.
unfold Beam.getSmallestDescendent.
pose proof (child_below b (2 * i + 1) gt) as Hl.
pose proof (child_below b (2 * i + 1 + 1) gt) as Hr.
destruct (Beam.getSmallestChild cmp b (2 * i + 1) gt) as [hasl lc].
destruct (Beam.getSmallestChild cmp b (2 * i + 1 + 1) gt) as [hasr rc].
simpl in *. repeat case_match; simpl; try lia;
  match goal with |- context [Beam.pick cmp b gt ?l ?r] =>
    destruct (pick_cases b gt l r) as [-> | ->]
  end; lia.
Qed.

Lemma descendent_in_range (b : beam) i gt :
  Beam.size b <= i -> Beam.has (Beam.getSmallestDescendent cmp b i gt) = false.
Proof.
intros Hi. unfold Beam.getSmallestDescendent.
destruct (Beam.size b <=? 2 * i + 1) eqn:E; [done|].
apply Nat.leb_gt in E. lia.
Qed.

Lemma trickleLoop_S fuel lt gt (b : beam) i :
  Beam.trickleLoop cmp (S fuel) lt gt b i
  = let d := Beam.getSmallestDescendent cmp b i gt in
    if negb (Beam.has d) then b else
    match Beam.heap b !! Beam.m d, Beam.heap b !! i with
    | Some hm, Some hi =>
      if decide (Beam.compare cmp hm hi = lt) then
        let b1 := Beam.set_heap b (<[Beam.m d:=hi]> (<[i:=hm]> (Beam.heap b))) in
        if Beam.isgc d then
          let p := (Beam.m d - 1) / 2 in
          match Beam.heap b1 !! p with
          | Some hp =>
            let b2 :=
              if decide (Beam.compare cmp hi hp = gt)
              then Beam.set_heap b1 (<[Beam.m d:=hp]> (<[p:=hi]> (Beam.heap b1)))
              else b1 in
            Beam.trickleLoop cmp fuel lt gt b2 (Beam.m d)
          | None => b1
          end
        else b1
      else b
    | _, _ => b
    end.
Proof. reflexivity. Qed.

(** One more round than [size b - i] changes nothing: the loop of
    [trickleDown] has stopped by then. *)
Lemma trickleLoop_stable fuel lt gt (b : beam) i :
  Beam.size b <= i + fuel ->
  Beam.trickleLoop cmp (S fuel) lt gt b i = Beam.trickleLoop cmp fuel lt gt b i.
Proof.
revert b i. induction fuel as [|fuel IH]; intros b i Hfuel.
- simpl. by rewrite descendent_in_range by lia.
- rewrite (trickleLoop_S (S fuel)), (trickleLoop_S fuel). cbv zeta.
  pose proof (descendent_below b i gt) as Hm.
  repeat case_match; try done; apply IH; simpl; lia.
Qed.

Lemma trickleLoop_fuel fuel fuel' lt gt (b : beam) i :
  Beam.size b <= i + fuel -> fuel <= fuel' ->
  Beam.trickleLoop cmp fuel' lt gt b i = Beam.trickleLoop cmp fuel lt gt b i.
Proof.
intros Hfuel Hle. induction Hle as [|fuel' Hle IH]; [done|].
rewrite trickleLoop_stable by lia. exact IH.
Qed.

(** [trickleDown] does not depend on the fuel of its loop, provided there
    is as much as the size. *)
Lemma trickleDown_fuel fuel (b : beam) i :
  Beam.size b <= fuel ->
  Beam.trickleDown cmp i b
  = let '(lt, gt) := if isMinLevel i then (LT, GT) else (GT, LT) in
    Beam.trickleLoop cmp fuel lt gt b i.
Proof.
intros Hfuel. unfold Beam.trickleDown.
destruct (isMinLevel i); symmetry; apply trickleLoop_fuel; lia.
Qed.

Lemma grandparent_below i : 3 <= i -> ((i - 1) / 2 - 1) / 2 < i.
Proof.
intros Hi.
pose proof (Nat.Div0.div_le_upper_bound ((i - 1) / 2 - 1) 2 i) as H1.
pose proof (Nat.Div0.div_le_upper_bound (i - 1) 2 i) as H2.
assert ((i - 1) / 2 <= i) by (apply H2; lia).
assert (((i - 1) / 2 - 1) / 2 <= (i - 1) / 2 - 1).
{ apply Nat.Div0.div_le_upper_bound. lia. }
assert (0 < (i - 1) / 2).
{ apply Nat.div_str_pos. lia. }
lia.
Qed.

Lemma bubbleLoop_S fuel lt (h : list T) i :
  Beam.bubbleLoop cmp (S fuel) lt h i
  = if i <? 3 then h else
    let gp := ((i - 1) / 2 - 1) / 2 in
    match h !! i, h !! gp with
    | Some hi, Some hp =>
      if decide (Beam.compare cmp hi hp = lt)
      then Beam.bubbleLoop cmp fuel lt (<[gp:=hi]> (<[i:=hp]> h)) gp
      else h
    | _, _ => h
    end.
Proof. reflexivity. Qed.

(** The loop of [bubbleUp] started at [i] has stopped after [i] rounds. *)
Lemma bubbleLoop_stable fuel lt (h : list T) i :
  i <= fuel ->
  Beam.bubbleLoop cmp (S fuel) lt h i = Beam.bubbleLoop cmp fuel lt h i.
Proof.
revert h i. induction fuel as [|fuel IH]; intros h i Hfuel.
- simpl. by replace i with 0 by lia.
- rewrite (bubbleLoop_S (S fuel)), (bubbleLoop_S fuel). cbv zeta.
  destruct (i <? 3) eqn:Hi; [done|]. apply Nat.ltb_ge in Hi.
  pose proof (grandparent_below i Hi) as Hgp.
  repeat case_match; try done. apply IH. lia.
Qed.

Lemma bubbleLoop_fuel fuel fuel' lt (h : list T) i :
  i <= fuel -> fuel <= fuel' ->
  Beam.bubbleLoop cmp fuel' lt h i = Beam.bubbleLoop cmp fuel lt h i.
Proof.
intros Hfuel Hle. induction Hle as [|fuel' Hle IH]; [done|].
rewrite bubbleLoop_stable by lia. exact IH.
Qed.

Lemma trickleLoop_shape fuel lt gt b i :
  same_shape (Beam.trickleLoop cmp fuel lt gt b i) b.
Proof.
  revert b i. induction fuel as [|fuel IH]; intros b i; simpl.
  { apply same_shape_refl. }
  repeat case_match; try apply same_shape_refl;
    try (eapply same_shape_trans; [apply IH|]);
    repeat split; simpl; by rewrite ?length_insert.
Qed.

Lemma trickleDown_shape i b : same_shape (Beam.trickleDown cmp i b) b.
Proof. unfold Beam.trickleDown. case_match; case_match; apply trickleLoop_shape. Qed.

Lemma bubbleLoop_length fuel lt h i :
  length (Beam.bubbleLoop cmp fuel lt h i) = length h.
Proof.
  revert h i. induction fuel as [|fuel IH]; intros h i; simpl; [done|].
  repeat case_match; try done. by rewrite IH, !length_insert.
Qed.

Lemma bubbleUp_shape i b : same_shape (Beam.bubbleUp cmp i b) b.
Proof.
  unfold Beam.bubbleUp.
  repeat case_match; try apply same_shape_refl; simplify_eq;
    apply set_heap_shape; by rewrite bubbleLoop_length, ?length_insert.
Qed.

Lemma trickleFrom_shape i b : same_shape (Beam.trickleFrom cmp i b) b.
Proof.
  revert b. induction i as [|i IH]; intros b; simpl.
  - apply trickleDown_shape.
  - eapply same_shape_trans; [apply IH | apply trickleDown_shape].
Qed.

(** The constructor establishes [wf], [select] being length-preserving. *)
Lemma new_wf lim elements :
  (forall l k c, length (select l k c) = length l) ->
  wf (Beam.new cmp select lim elements).
Proof.
  intros Hsel. unfold Beam.new.
  eapply same_shape_wf; [apply trickleFrom_shape|].
  destruct lim as [k|]; simpl; [|by split].
  destruct (k <? length elements) eqn:Hk; simpl; split; simpl; try lia.
  - apply Nat.ltb_lt in Hk. rewrite length_take, Hsel. lia.
  - apply Nat.ltb_ge in Hk. lia.
Qed.

Lemma new_size lim elements :
  Beam.size (Beam.new cmp select lim elements)
  = match lim with
    | Finite k => Nat.min k (length elements)
    | Infinity => length elements
    end.
Proof.
  unfold Beam.new.
  match goal with |- Beam.size (Beam.trickleFrom _ ?i ?b) = _ =>
    destruct (trickleFrom_shape i b) as (-> & _) end.
  destruct lim as [k|]; simpl; [|done].
  destruct (k <? length elements) eqn:Hk; simpl.
  - apply Nat.ltb_lt in Hk. lia.
  - apply Nat.ltb_ge in Hk. lia.
Qed.

Lemma push_wf b e : wf b -> wf (Beam.push cmp b e).
Proof.
  intros [Hlen Hle]. unfold Beam.push.
  destruct (decide (Beam.limit b = Finite 0)); [by split|].
  destruct (Beam.size b =? 0) eqn:H0.
  { apply Nat.eqb_eq in H0. split; simpl.
    - unfold array_set. rewrite Hlen, H0. simpl.
      destruct (Beam.heap b); simpl in *; [done | lia].
    - destruct (Beam.limit b) as [[|k]|]; simpl; try done; lia. }
  destruct (lt_limit (Beam.size b) (Beam.limit b)) eqn:Hlt.
  { eapply same_shape_wf; [apply bubbleUp_shape|]. split; simpl.
    - unfold array_set. rewrite Hlen, Nat.ltb_irrefl, length_app. simpl. lia.
    - destruct (Beam.limit b); simpl in *; [|done]. apply Nat.ltb_lt in Hlt. lia. }
  destruct (decide (Beam.limit b = Finite 1)).
  { repeat case_match; try by split.
    eapply same_shape_wf; [apply set_heap_shape|by split]. by rewrite length_insert. }
  repeat case_match; try by split.
  eapply same_shape_wf; [apply trickleDown_shape|].
  eapply same_shape_wf; [apply trickleDown_shape|].
  eapply same_shape_wf; [apply set_heap_shape|by split]. by rewrite length_insert.
Qed.

Lemma pop_wf b : wf b -> wf (Beam.pop cmp b).2.
Proof.
  intros [Hlen Hle]. unfold Beam.pop.
  destruct (Beam.size b =? 0) eqn:H0; [by split|]. apply Nat.eqb_neq in H0.
  assert (Hle' : le_limit (Beam.size b - 1) (Beam.limit b)).
  { destruct (Beam.limit b); simpl in *; [lia|done]. }
  destruct (0 <? Beam.size b - 1) eqn:H1; simpl.
  - eapply same_shape_wf; [apply trickleDown_shape|]. split; simpl; [|done].
    rewrite length_take. case_match; rewrite ?length_insert; lia.
  - apply Nat.ltb_ge in H1. split; simpl; [lia|done].
Qed.

(** A pop returns an element exactly when the beam is not empty. *)
Lemma pop_some b : wf b -> Beam.size b <> 0 -> exists x, (Beam.pop cmp b).1 = Some x.
Proof.
  intros [Hlen _] H0. unfold Beam.pop.
  destruct (Beam.size b =? 0) eqn:E; [apply Nat.eqb_eq in E; lia|].
  destruct (lookup_lt_is_Some_2 (Beam.heap b) 0) as [x Hx]; [lia|].
  exists x. by case_match.
Qed.

Lemma first_some b : wf b -> Beam.size b <> 0 -> exists x, Beam.first b = Some x.
Proof.
  intros [Hlen _] H0. unfold Beam.first.
  destruct (0 <? Beam.size b) eqn:E; [|apply Nat.ltb_ge in E; lia].
  apply lookup_lt_is_Some_2. lia.
Qed.

(** *** The elements a beam holds

    The restructuring only exchanges elements: whatever is added up over
    the array is unchanged by it. *)

Lemma sum_insert (f : T -> nat) (h : list T) i x a :
  h !! i = Some a ->
  sum_list_with f (<[i:=x]> h) + f a = sum_list_with f h + f x.
Proof.
revert i. induction h as [|y h IH]; intros i Hi; [done|].
destruct i as [|i]; simpl in *.
- injection Hi as ->. lia.
- specialize (IH i Hi). lia.
Qed.

Lemma sum_swap (f : T -> nat) (h : list T) i j a b :
  h !! i = Some a -> h !! j = Some b ->
  sum_list_with f (<[j:=a]> (<[i:=b]> h)) = sum_list_with f h.
Proof.
intros Hi Hj.
assert (<[i:=b]> h !! j = Some b) as Hj'.
{ destruct (decide (i = j)) as [->|Hne].
  - apply list_lookup_insert_eq. by eapply lookup_lt_Some.
  - by rewrite list_lookup_insert_ne. }
pose proof (sum_insert f _ j a b Hj'). pose proof (sum_insert f h i b a Hi). lia.
Qed.

Lemma trickleLoop_sum (f : T -> nat) fuel lt gt b i :
  sum_list_with f (Beam.heap (Beam.trickleLoop cmp fuel lt gt b i))
  = sum_list_with f (Beam.heap b).
Proof.
revert b i. induction fuel as [|fuel IH]; intros b i; simpl; [done|].
destruct (negb _); [done|].
destruct (Beam.heap b !! Beam.m _) as [hm|] eqn:Hm; [|done].
destruct (Beam.heap b !! i) as [hi|] eqn:Hi; [|done].
destruct (decide _); [|done].
assert (Hswap : sum_list_with f (<[Beam.m (Beam.getSmallestDescendent cmp b i gt):=hi]>
                  (<[i:=hm]> (Beam.heap b))) = sum_list_with f (Beam.heap b)).
{ by apply sum_swap. }
destruct (Beam.isgc _); [|done]. simpl.
match goal with |- context [@lookup _ _ _ _ ?p ?h] =>
  destruct (@lookup _ _ _ _ p h) as [hp|] eqn:Hp; [|done] end.
rewrite IH. destruct (decide _); [|done]. simpl. rewrite <- Hswap.
apply sum_swap; [done|].
apply list_lookup_insert_eq. rewrite length_insert. by eapply lookup_lt_Some.
Qed.

Lemma trickleDown_sum (f : T -> nat) i b :
  sum_list_with f (Beam.heap (Beam.trickleDown cmp i b))
  = sum_list_with f (Beam.heap b).
Proof. unfold Beam.trickleDown. case_match; case_match; apply trickleLoop_sum. Qed.

Lemma bubbleLoop_sum (f : T -> nat) fuel lt h i :
  sum_list_with f (Beam.bubbleLoop cmp fuel lt h i) = sum_list_with f h.
Proof.
revert h i. induction fuel as [|fuel IH]; intros h i; simpl; [done|].
destruct (i <? 3); [done|].
destruct (h !! i) as [hi|] eqn:Hi; [|done].
match goal with |- context [h !! ?gp] =>
  destruct (h !! gp) as [hp|] eqn:Hp; [|done] end.
destruct (decide _); [|done]. rewrite IH. by apply sum_swap.
Qed.

Lemma bubbleUp_sum (f : T -> nat) i b :
  sum_list_with f (Beam.heap (Beam.bubbleUp cmp i b))
  = sum_list_with f (Beam.heap b).
Proof.
unfold Beam.bubbleUp.
destruct (Beam.heap b !! i) as [hi|] eqn:Hi; [|done].
match goal with |- context [Beam.heap b !! ?p] =>
  destruct (Beam.heap b !! p) as [hp|] eqn:Hp; [|done] end.
repeat case_match; simplify_eq; simpl; rewrite bubbleLoop_sum; try done;
  by apply sum_swap.
Qed.

(** A push adds at most the pushed element. *)
Lemma push_sum (f : T -> nat) b e :
  wf b ->
  sum_list_with f (Beam.heap (Beam.push cmp b e))
  <= sum_list_with f (Beam.heap b) + f e.
Proof.
intros [Hlen _]. unfold Beam.push.
destruct (decide _); [lia|].
destruct (Beam.size b =? 0) eqn:H0.
{ apply Nat.eqb_eq in H0. rewrite H0 in Hlen.
  destruct (Beam.heap b); [|done]. simpl. lia. }
destruct (lt_limit _ _).
{ rewrite bubbleUp_sum. simpl. unfold array_set.
  rewrite Hlen, Nat.ltb_irrefl, sum_list_with_app. simpl. lia. }
destruct (decide _).
{ destruct (Beam.heap b !! 0) as [h0|] eqn:Hh; [|lia].
  destruct (decide _); [|lia]. simpl.
  pose proof (sum_insert f _ 0 e h0 Hh). lia. }
destruct (Beam.heap b !! Beam.maxIndex cmp b) as [hmax|] eqn:Hh; [|lia].
destruct (decide _); [|lia]. rewrite !trickleDown_sum. simpl.
pose proof (sum_insert f _ _ e hmax Hh). lia.
Qed.

(** A pop takes exactly the popped element away. *)
Lemma pop_sum (f : T -> nat) b :
  wf b -> Beam.size b <> 0 ->
  exists c, (Beam.pop cmp b).1 = Some c
    /\ sum_list_with f (Beam.heap b)
       = sum_list_with f (Beam.heap (Beam.pop cmp b).2) + f c.
Proof.
intros [Hlen _] H0. unfold Beam.pop.
destruct (Beam.size b =? 0) eqn:E; [apply Nat.eqb_eq in E; lia|].
destruct (Beam.heap b) as [|c h] eqn:Hh; [simpl in Hlen; lia|].
exists c. simpl in *. destruct (0 <? Beam.size b - 1) eqn:E1; simpl.
- split; [done|]. rewrite trickleDown_sum. simpl.
  apply Nat.ltb_lt in E1.
  assert (Beam.size b - 1 = length h) as -> by lia.
  destruct (last h) as [x|] eqn:Hl.
  + apply last_Some in Hl as [h' ->].
    rewrite length_app. simpl. rewrite Nat.add_1_r. simpl.
    rewrite list_lookup_middle by done. simpl.
    rewrite take_app_length, sum_list_with_app. simpl. lia.
  + apply last_None in Hl. subst h. simpl in *. lia.
- split; [done|]. apply Nat.ltb_ge in E1.
  destruct h; simpl in *; [lia|lia].
Qed.

Lemma push_limit b e : Beam.limit (Beam.push cmp b e) = Beam.limit b.
Proof.
  unfold Beam.push. repeat case_match; try done.
  - by destruct (bubbleUp_shape (Beam.size b)
      {| Beam.heap := array_set (Beam.heap b) (Beam.size b) e;
         Beam.size := S (Beam.size b); Beam.limit := Beam.limit b |}) as (_ & -> & _).
  - match goal with |- Beam.limit (Beam.trickleDown _ _ ?x) = _ =>
      destruct (trickleDown_shape 0 x) as (_ & -> & _) end.
    match goal with |- Beam.limit (Beam.trickleDown _ _ ?x) = _ =>
      by destruct (trickleDown_shape (Beam.maxIndex cmp b) x) as (_ & -> & _) end.
Qed.

Lemma pop_limit b : Beam.limit (Beam.pop cmp b).2 = Beam.limit b.
Proof.
  unfold Beam.pop. destruct (Beam.size b =? 0); [done|].
  destruct (0 <? Beam.size b - 1); simpl; [|done].
  match goal with |- Beam.limit (Beam.trickleDown _ _ ?x) = _ =>
    by destruct (trickleDown_shape 0 x) as (_ & -> & _) end.
Qed.

(** [wf] and the capacity survive every sequence of operations. *)
Lemma after_wf b ops :
  wf b -> wf (after cmp b ops) /\ Beam.limit (after cmp b ops) = Beam.limit b.
Proof.
  revert b. induction ops as [|op ops IH]; intros b Hwf; simpl; [done|].
  destruct op as [e|]; simpl.
  - destruct (IH (Beam.push cmp b e)) as [? ->]; [by apply push_wf|].
    split; [done | apply push_limit].
  - destruct (IH (Beam.pop cmp b).2) as [? ->]; [by apply pop_wf|].
    split; [done | apply pop_limit].
Qed.

Lemma maxIndex_lt b : Beam.size b <> 0 -> Beam.maxIndex cmp b < Beam.size b.
Proof.
  intros H. unfold Beam.maxIndex.
  destruct (Beam.size b <? 2) eqn:E2; [lia|]. apply Nat.ltb_ge in E2.
  destruct (Beam.size b =? 2) eqn:E3; [lia|]. apply Nat.eqb_neq in E3.
  repeat case_match; lia.
Qed.

(** A push at capacity of an element that does not beat the element at
    [maxIndex] changes nothing. *)
Lemma push_rejected b e w :
  Beam.limit b = Finite (Beam.size b) ->
  Beam.heap b !! Beam.maxIndex cmp b = Some w ->
  Beam.compare cmp e w <> LT ->
  Beam.push cmp b e = b.
Proof.
  intros Hcap Hw Hcmp. unfold Beam.push.
  destruct (decide (Beam.limit b = Finite 0)); [done|].
  destruct (Beam.size b =? 0) eqn:H0.
  { apply Nat.eqb_eq in H0. rewrite H0 in Hcap. done. }
  rewrite Hcap. simpl. rewrite Nat.ltb_irrefl.
  destruct (decide (Finite (Beam.size b) = Finite 1)) as [E|E].
  - assert (Beam.maxIndex cmp b = 0) as Hm.
    { unfold Beam.maxIndex. injection E as ->. done. }
    rewrite Hm in Hw. rewrite Hw. by destruct (decide _).
  - rewrite Hw. by destruct (decide _).
Qed.

(** Under the comparator contract, beating the element at [maxIndex]
    implies beating every worst element. *)
Lemma lt_worst `{!StrictWeakOrder cmp} e x w :
  Beam.compare cmp e x = LT -> Beam.compare cmp x w <> GT ->
  Beam.compare cmp e w = LT.
Proof.
  unfold Beam.compare. intros Hex Hxw.
  destruct (sign (cmp x w)) eqn:Exw; [ by eapply swo_trans | | done ].
  destruct (sign (cmp e w)) eqn:Eew; [done | |].
  - assert (sign (cmp w x) = EQ) as Ewx by (by rewrite swo_opposite, Exw).
    pose proof (swo_tie cmp e w x Eew Ewx). congruence.
  - assert (sign (cmp w e) = LT) as Ewe by (by rewrite swo_opposite, Eew).
    pose proof (swo_trans cmp w e x Ewe Hex) as Hwx.
    assert (sign (cmp x w) = GT) by (by rewrite swo_opposite, Hwx). congruence.
Qed.


End BeamFacts.

Lemma insert_sorted_length {T} (c : T -> T -> CMP) x l :
  length (insert_sorted c x l) = S (length l).
Proof.
  induction l as [|y l IH]; simpl; [done|]. case_match; simpl; by rewrite ?IH.
Qed.

Lemma sort_select_length {T} (l : list T) k c :
  length (sort_select l k c) = length l.
Proof.
  unfold sort_select. induction l as [|y l IH]; simpl; [done|].
  by rewrite insert_sorted_length, IH.
Qed.

Lemma insert_sorted_elem {T} (c : T -> T -> CMP) x l y :
  y ∈ insert_sorted c x l -> y = x \/ y ∈ l.
Proof.
induction l as [|z l IH]; simpl.
- intros Hy. apply list_elem_of_singleton in Hy. by left.
- case_match; intros Hy; apply elem_of_cons in Hy as [->|Hy]; auto.
  + right. apply list_elem_of_here.
  + destruct (IH Hy) as [->|Hl]; [by left|]. right. apply elem_of_cons. by right.
Qed.

Lemma sort_select_elem {T} (l : list T) k c y : y ∈ sort_select l k c -> y ∈ l.
Proof.
unfold sort_select. induction l as [|x l IH]; simpl; [done|].
intros Hy. apply insert_sorted_elem in Hy as [->|Hy].
- apply list_elem_of_here.
- apply elem_of_cons. right. by apply IH.
Qed.

#[global] Instance numeric_swo : StrictWeakOrder numeric.
Proof.
  unfold numeric. split; intros a b; [| intros c ..];
    repeat match goal with
           | |- context [sign ?z] => destruct z eqn:?; simpl
           end; intros; try done; lia.
Qed.


(** C1.  The heap invariant is lost, for the minimum and for the maximum.
    - After pushing 0, 9, 1, 5, 6 into an empty beam and popping once, the
      array is [5; 9; 1; 6]: the element at index 0 is 5 although 1 is
      retained and ranks strictly better.
    - The beam constructed from 2, 3, 0, 7, 9, 8, 6, 8 has the array
      [0; 8; 8; 3; 9; 2; 6; 7]: the root's two children are 8 and 8
      although 9 is retained and ranks strictly worse than both.
    In both runs [getSmallestDescendent] returns the left child's best
    child when the right child has no children, without looking at the
    right child. *)
Lemma heap_invariant_lost :
  (let b := after numeric (Beam.new numeric sort_select Infinity [])
              [Push 0; Push 9; Push 1; Push 5; Push 6; Pop]%Z in
   Beam.heap b = [5; 9; 1; 6]%Z
   /\ Beam.first b = Some 5%Z
   /\ 1%Z ∈ Beam.heap b
   /\ Beam.compare numeric 1%Z 5%Z = LT)
  /\ (let b := Beam.new numeric sort_select Infinity [2; 3; 0; 7; 9; 8; 6; 8]%Z in
      Beam.heap b = [0; 8; 8; 3; 9; 2; 6; 7]%Z
      /\ Beam.heap b !! 1 = Some 8%Z
      /\ Beam.heap b !! 2 = Some 8%Z
      /\ 9%Z ∈ Beam.heap b
      /\ Beam.compare numeric 8%Z 9%Z = LT).
Proof.
split; vm_compute; repeat split; apply list_elem_of_lookup; [by exists 2 | by exists 4].
Qed.


(** * What the operations of the container do to its elements *)

Section BeamContents.
Context {T : Type}.
Variable cmp : T -> T -> Z.
Variable select : list T -> nat -> (T -> T -> CMP) -> list T.

Lemma perm_insert (h : list T) i x a :
  h !! i = Some a -> a :: <[i:=x]> h ≡ₚ x :: h.
Proof.
revert i. induction h as [|y h IH]; intros i Hi; [done|].
destruct i as [|i]; simpl in *.
- injection Hi as ->. apply perm_swap.
- rewrite (perm_swap y a), (IH i Hi). apply perm_swap.
Qed.

(** Exchanging two elements of an array permutes it. *)
Lemma perm_exchange (h : list T) i j a b :
  h !! i = Some a -> h !! j = Some b -> <[j:=a]> (<[i:=b]> h) ≡ₚ h.
Proof.
intros Hi Hj.
assert (<[i:=b]> h !! j = Some b) as Hj'.
{ destruct (decide (i = j)) as [->|Hne].
  - apply list_lookup_insert_eq. by eapply lookup_lt_Some.
  - by rewrite list_lookup_insert_ne. }
apply (Permutation_cons_inv (a := b)).
by rewrite (perm_insert _ j a b Hj'), (perm_insert h i b a Hi).
Qed.

Lemma trickleLoop_perm fuel lt gt (b : @Beam.t T) i :
  Beam.heap (Beam.trickleLoop cmp fuel lt gt b i) ≡ₚ Beam.heap b.
Proof.
revert b i. induction fuel as [|fuel IH]; intros b i; simpl; [done|].
destruct (negb _); [done|].
destruct (Beam.heap b !! Beam.m _) as [hm|] eqn:Hm; [|done].
destruct (Beam.heap b !! i) as [hi|] eqn:Hi; [|done].
destruct (decide _); [|done].
assert (Hswap : <[Beam.m (Beam.getSmallestDescendent cmp b i gt):=hi]>
                  (<[i:=hm]> (Beam.heap b)) ≡ₚ Beam.heap b).
{ by apply perm_exchange. }
destruct (Beam.isgc _); [|done]. simpl.
match goal with |- context [@lookup _ _ _ _ ?p ?h] =>
  destruct (@lookup _ _ _ _ p h) as [hp|] eqn:Hp; [|done] end.
rewrite IH. destruct (decide _); [|done]. simpl. rewrite <- Hswap at 2.
apply perm_exchange; [done|].
apply list_lookup_insert_eq. rewrite length_insert. by eapply lookup_lt_Some.
Qed.

Lemma trickleDown_perm i (b : @Beam.t T) :
  Beam.heap (Beam.trickleDown cmp i b) ≡ₚ Beam.heap b.
Proof. unfold Beam.trickleDown. case_match; case_match; apply trickleLoop_perm. Qed.

Lemma bubbleLoop_perm fuel lt (h : list T) i :
  Beam.bubbleLoop cmp fuel lt h i ≡ₚ h.
Proof.
revert h i. induction fuel as [|fuel IH]; intros h i; simpl; [done|].
destruct (i <? 3); [done|].
destruct (h !! i) as [hi|] eqn:Hi; [|done].
match goal with |- context [h !! ?gp] =>
  destruct (h !! gp) as [hp|] eqn:Hp; [|done] end.
destruct (decide _); [|done]. rewrite IH. by apply perm_exchange.
Qed.

Lemma bubbleUp_perm i (b : @Beam.t T) :
  Beam.heap (Beam.bubbleUp cmp i b) ≡ₚ Beam.heap b.
Proof.
unfold Beam.bubbleUp.
destruct (Beam.heap b !! i) as [hi|] eqn:Hi; [|done].
match goal with |- context [Beam.heap b !! ?p] =>
  destruct (Beam.heap b !! p) as [hp|] eqn:Hp; [|done] end.
repeat case_match; simplify_eq; simpl; rewrite bubbleLoop_perm; try done;
  by apply perm_exchange.
Qed.

Lemma trickleFrom_perm i (b : @Beam.t T) :
  Beam.heap (Beam.trickleFrom cmp i b) ≡ₚ Beam.heap b.
Proof.
revert b. induction i as [|i IH]; intros b; simpl.
- apply trickleDown_perm.
- by rewrite IH, trickleDown_perm.
Qed.

(** *** The container holds nothing it was not given *)

Lemma insert_elem (h : list T) i e x : x ∈ <[i:=e]> h -> x = e \/ x ∈ h.
Proof.
revert i. induction h as [|y h IH]; intros i Hx; [by right|].
destruct i as [|i]; simpl in Hx; apply elem_of_cons in Hx as [->|Hx].
- by left.
- right. apply elem_of_cons. by right.
- right. apply list_elem_of_here.
- destruct (IH i Hx) as [->|Hh]; [by left|]. right. apply elem_of_cons. by right.
Qed.

Lemma array_set_elem (h : list T) i e x : x ∈ array_set h i e -> x = e \/ x ∈ h.
Proof.
unfold array_set. case_match; [apply insert_elem|].
intros Hx. apply elem_of_app in Hx as [Hx|Hx]; [by right|].
apply list_elem_of_singleton in Hx. by left.
Qed.

Lemma push_elem (b : @Beam.t T) e x :
  x ∈ Beam.heap (Beam.push cmp b e) -> x = e \/ x ∈ Beam.heap b.
Proof.
unfold Beam.push. repeat case_match; simpl; try (by right).
- apply array_set_elem.
- rewrite bubbleUp_perm. simpl. apply array_set_elem.
- apply insert_elem.
- rewrite !trickleDown_perm. simpl. apply insert_elem.
Qed.

Lemma pop_elem (b : @Beam.t T) :
  (forall c, (Beam.pop cmp b).1 = Some c -> c ∈ Beam.heap b)
  /\ (forall x, x ∈ Beam.heap (Beam.pop cmp b).2 -> x ∈ Beam.heap b).
Proof.
unfold Beam.pop. destruct (Beam.size b =? 0); [done|].
assert (Hret : forall c, Beam.heap b !! 0 = Some c -> c ∈ Beam.heap b).
{ intros c Hc. by eapply list_elem_of_lookup_2. }
destruct (0 <? Beam.size b - 1); simpl; (split; [done|]);
  [|intros x Hx; by apply elem_of_nil in Hx].
intros x. rewrite trickleDown_perm. simpl. intros Hx.
apply elem_of_take in Hx as (i & Hi & _). apply list_elem_of_lookup_2 in Hi.
destruct (Beam.heap b !! (Beam.size b - 1)) as [y|] eqn:Hy; [|done].
apply insert_elem in Hi as [->|Hi]; [|done]. by eapply list_elem_of_lookup_2.
Qed.

Lemma new_elem lim elements x :
  (forall l k c y, y ∈ select l k c -> y ∈ l) ->
  x ∈ Beam.heap (Beam.new cmp select lim elements) -> x ∈ elements.
Proof.
intros Hsel. unfold Beam.new. rewrite trickleFrom_perm.
destruct lim as [k|]; [|done]. simpl. case_match; [|done]. simpl.
intros Hx. apply elem_of_take in Hx as (i & Hi & _).
apply list_elem_of_lookup_2 in Hi. by eapply Hsel.
Qed.

(** X1.  Below capacity nothing is lost: a push into a beam that holds
    fewer elements than its capacity adds the element and keeps every
    element already there, with its multiplicity, and the length grows by
    one. *)
Theorem push_below_capacity (b : @Beam.t T) (e : T) :
  wf b -> lt_limit (Beam.size b) (Beam.limit b) = true ->
  Beam.heap (Beam.push cmp b e) ≡ₚ e :: Beam.heap b
  /\ Beam.length (Beam.push cmp b e) = S (Beam.length b).
Proof.
intros [Hlen _] Hlt. unfold Beam.push, Beam.length.
destruct (decide (Beam.limit b = Finite 0)) as [E|_].
{ rewrite E in Hlt. simpl in Hlt. apply Nat.ltb_lt in Hlt. lia. }
destruct (Beam.size b =? 0) eqn:H0.
{ apply Nat.eqb_eq in H0. rewrite H0 in *.
  destruct (Beam.heap b); [|done]. by split. }
rewrite Hlt. split.
- rewrite bubbleUp_perm. simpl. unfold array_set.
  rewrite Hlen, Nat.ltb_irrefl. by rewrite Permutation_app_comm.
- by destruct (bubbleUp_shape cmp (Beam.size b)
    {| Beam.heap := array_set (Beam.heap b) (Beam.size b) e;
       Beam.size := S (Beam.size b); Beam.limit := Beam.limit b |}) as (-> & _).
Qed.

(** X2.  At capacity a push of an element that ranks strictly better than
    [heap[maxIndex()]] evicts exactly that element: the pushed element
    takes its place in the multiset of retained elements, every other
    element stays, and the length is unchanged. *)
Theorem push_at_capacity_evicts (b : @Beam.t T) (e w : T) :
  wf b -> Beam.limit b <> Finite 0 ->
  lt_limit (Beam.size b) (Beam.limit b) = false ->
  Beam.heap b !! Beam.maxIndex cmp b = Some w ->
  Beam.compare cmp e w = LT ->
  w :: Beam.heap (Beam.push cmp b e) ≡ₚ e :: Beam.heap b
  /\ Beam.heap (Beam.push cmp b e) ≡ₚ <[Beam.maxIndex cmp b:=e]> (Beam.heap b)
  /\ Beam.length (Beam.push cmp b e) = Beam.length b.
Proof.
intros [Hlen Hle] Hlim Hlt Hw Hcmp.
assert (Hsize : Beam.size b <> 0).
{ destruct (Beam.limit b) as [[|k]|]; simpl in *; [done | | done].
  apply Nat.ltb_ge in Hlt. lia. }
assert (Hheap : Beam.heap (Beam.push cmp b e) ≡ₚ <[Beam.maxIndex cmp b:=e]> (Beam.heap b)
                /\ Beam.size (Beam.push cmp b e) = Beam.size b).
{ unfold Beam.push. rewrite decide_False by done.
  apply Nat.eqb_neq in Hsize. rewrite Hsize, Hlt.
  destruct (decide (Beam.limit b = Finite 1)) as [E1|_].
  - assert (Beam.size b = 1) as H1.
    { rewrite E1 in Hle, Hlt. simpl in *. apply Nat.ltb_ge in Hlt. lia. }
    assert (Beam.maxIndex cmp b = 0) as H0 by (unfold Beam.maxIndex; by rewrite H1).
    rewrite H0 in *. rewrite Hw. by rewrite decide_True.
  - rewrite Hw. rewrite decide_True by done. split.
    + by rewrite !trickleDown_perm.
    + match goal with |- Beam.size (Beam.trickleDown _ _ ?x) = _ =>
        destruct (trickleDown_shape cmp 0 x) as (-> & _) end.
      match goal with |- Beam.size (Beam.trickleDown _ _ ?x) = _ =>
        by destruct (trickleDown_shape cmp (Beam.maxIndex cmp b) x) as (-> & _) end. }
destruct Hheap as [Hperm Hsz]. split; [|by split].
rewrite Hperm. by apply perm_insert.
Qed.

(** X3.  [pop] on an empty beam returns [undefined] and changes nothing.
    On a beam that holds elements it returns the element at index 0, the
    one [beam[0]] shows, and takes exactly that element away: every other
    element stays, with its multiplicity, and the length drops by one. *)
Theorem pop_takes_first (b : @Beam.t T) :
  (Beam.size b = 0 -> Beam.pop cmp b = (None, b))
  /\ (wf b -> Beam.size b <> 0 ->
      exists c,
        Beam.first b = Some c
        /\ (Beam.pop cmp b).1 = Some c
        /\ Beam.heap b ≡ₚ c :: Beam.heap (Beam.pop cmp b).2
        /\ Beam.length (Beam.pop cmp b).2 = Beam.length b - 1).
Proof.
split.
{ intros H0. unfold Beam.pop. by rewrite H0. }
intros [Hlen _] H0. unfold Beam.pop, Beam.first, Beam.length.
destruct (Beam.size b =? 0) eqn:E; [apply Nat.eqb_eq in E; lia|].
assert ((0 <? Beam.size b) = true) as -> by (apply Nat.ltb_lt; lia).
destruct (Beam.heap b) as [|c h] eqn:Hh; [simpl in Hlen; lia|].
exists c. simpl in *. split; [done|].
destruct (0 <? Beam.size b - 1) eqn:E1; simpl.
- split; [done|]. split.
  + rewrite trickleDown_perm. simpl. apply Nat.ltb_lt in E1.
    assert (Beam.size b - 1 = length h) as -> by lia.
    destruct (last h) as [x|] eqn:Hl.
    * apply last_Some in Hl as [h' ->].
      rewrite length_app. simpl. rewrite Nat.add_1_r. simpl.
      rewrite list_lookup_middle by done. simpl.
      rewrite take_app_length. by rewrite Permutation_app_comm.
    * apply last_None in Hl. subst h. simpl in *. lia.
  + match goal with |- Beam.size (Beam.trickleDown _ _ ?x) = _ =>
      by destruct (trickleDown_shape cmp 0 x) as (-> & _) end.
- split; [done|]. apply Nat.ltb_ge in E1.
  destruct h; simpl in *; [done | lia].
Qed.

(** X4.  The constructor keeps every initial element when they fit in the
    capacity (only their order in the array changes); when there are more
    than the capacity [k], it keeps the first [k] elements of the array as
    [select] left it, and holds exactly [k] elements. *)
Theorem constructor_keeps_elements (lim : Limit) (elements : list T) :
  (le_limit (length elements) lim ->
   Beam.heap (Beam.new cmp select lim elements) ≡ₚ elements
   /\ Beam.length (Beam.new cmp select lim elements) = length elements)
  /\ (forall k, lim = Finite k -> k < length elements ->
      Beam.heap (Beam.new cmp select lim elements)
        ≡ₚ take k (select elements k (Beam.compare cmp))
      /\ Beam.length (Beam.new cmp select lim elements) = k).
Proof.
unfold Beam.length. rewrite new_size. split.
- intros Hle. unfold Beam.new. rewrite trickleFrom_perm. split.
  + destruct lim as [k|]; [|done]. simpl in *.
    by rewrite (proj2 (Nat.ltb_ge k (length elements)) Hle).
  + destruct lim as [k|]; [|done]. simpl in Hle. lia.
- intros k -> Hk. unfold Beam.new. rewrite trickleFrom_perm. simpl.
  rewrite (proj2 (Nat.ltb_lt k (length elements)) Hk). split; [done | lia].
Qed.

(** *** The indices the restructuring reads *)

Lemma child_cases (b : @Beam.t T) i gt :
  let c := Beam.getSmallestChild cmp b i gt in
  (c.1 = false /\ Beam.size b <= 2 * i + 1)
  \/ (c.1 = true /\ c.2 < Beam.size b /\ (c.2 = 2 * i + 1 \/ c.2 = 2 * i + 2)).
Proof.
unfold Beam.getSmallestChild.
destruct (Beam.size b <=? 2 * i + 1) eqn:E1.
{ left. apply Nat.leb_le in E1. by split. }
apply Nat.leb_gt in E1. right.
destruct (Beam.size b <=? 2 * i + 1 + 1) eqn:E2; cbn [fst snd].
{ split; [done|]. split; [lia | by left]. }
apply Nat.leb_gt in E2. split; [done|].
destruct (pick_cases cmp b gt (2 * i + 1) (2 * i + 1 + 1)) as [-> | ->];
  (split; [lia|]); [by left | right; lia].
Qed.

Lemma half_of (q r : nat) : r < 2 -> (2 * q + r) / 2 = q.
Proof. intros Hr. symmetry. apply (Nat.div_unique _ 2 q r); lia. Qed.

(** X18.  The descendant [getSmallestDescendent] returns is one the heap
    has: it reports none exactly when the node has no child; otherwise the
    index it returns lies below [size], and is a child of the node, or,
    when it says so, a grandchild, whose parent, the index [trickleDown]
    computes as [(m - 1) >> 1], is a child of the node.  So with the array
    as long as [size], [trickleDown] reads [heap[m]], [heap[i]] and
    [heap[p]] inside the array. *)
Theorem descendent_in_heap (b : @Beam.t T) (i : nat) (gt : CMP) :
  let d := Beam.getSmallestDescendent cmp b i gt in
  (Beam.has d = false <-> Beam.size b <= 2 * i + 1)
  /\ (Beam.has d = true ->
      i < Beam.m d < Beam.size b
      /\ (Beam.isgc d = false -> Beam.m d = 2 * i + 1 \/ Beam.m d = 2 * i + 2)
      /\ (Beam.isgc d = true ->
          4 * i + 3 <= Beam.m d <= 4 * i + 6
          /\ ((Beam.m d - 1) / 2 = 2 * i + 1 \/ (Beam.m d - 1) / 2 = 2 * i + 2))
      /\ (length (Beam.heap b) = Beam.size b ->
          is_Some (Beam.heap b !! Beam.m d) /\ is_Some (Beam.heap b !! i)
          /\ (Beam.isgc d = true -> is_Some (Beam.heap b !! ((Beam.m d - 1) / 2))))).
Proof.
intros d.
assert (Hmain :
  (Beam.has d = false <-> Beam.size b <= 2 * i + 1)
  /\ (Beam.has d = true ->
      i < Beam.m d < Beam.size b
      /\ (Beam.isgc d = false -> Beam.m d = 2 * i + 1 \/ Beam.m d = 2 * i + 2)
      /\ (Beam.isgc d = true ->
          4 * i + 3 <= Beam.m d <= 4 * i + 6
          /\ ((Beam.m d - 1) / 2 = 2 * i + 1 \/ (Beam.m d - 1) / 2 = 2 * i + 2)))).
{ subst d. unfold Beam.getSmallestDescendent.
  destruct (Beam.size b <=? 2 * i + 1) eqn:E1.
  { apply Nat.leb_le in E1. cbn [Beam.has Beam.m Beam.isgc]. split; [done|]. done. }
  apply Nat.leb_gt in E1.
  destruct (Beam.size b <=? 2 * i + 1 + 1) eqn:E2.
  { cbn [Beam.has Beam.m Beam.isgc]. split; [split; [done | lia]|]. intros _.
    split; [lia|]. split; [by left | done]. }
  apply Nat.leb_gt in E2.
  pose proof (child_cases b (2 * i + 1) gt) as Hl.
  pose proof (child_cases b (2 * i + 1 + 1) gt) as Hr.
  destruct (Beam.getSmallestChild cmp b (2 * i + 1) gt) as [hasl lc].
  destruct (Beam.getSmallestChild cmp b (2 * i + 1 + 1) gt) as [hasr rc].
  cbn [fst snd] in Hl, Hr.
  destruct hasl; cbn [Beam.has Beam.m Beam.isgc negb].
  2:{ split; [split; [done | lia]|]. intros _.
      destruct (pick_cases cmp b gt (2 * i + 1) (2 * i + 1 + 1)) as [-> | ->];
        (split; [lia|]); (split; [intros _; auto; right; lia | done]). }
  destruct Hl as [[? _]|(_ & Hlc & Hlc')]; [done|].
  assert (Hparent_l : (lc - 1) / 2 = 2 * i + 1).
  { destruct Hlc' as [-> | ->].
    - replace (2 * (2 * i + 1) + 1 - 1) with (2 * (2 * i + 1) + 0) by lia.
      apply half_of; lia.
    - replace (2 * (2 * i + 1) + 2 - 1) with (2 * (2 * i + 1) + 1) by lia.
      apply half_of; lia. }
  destruct hasr; cbn [Beam.has Beam.m Beam.isgc negb].
  2:{ split; [split; [done | lia]|]. intros _.
      split; [lia|]. split; [done|]. intros _. split; [lia | by left]. }
  destruct Hr as [[? _]|(_ & Hrc & Hrc')]; [done|].
  assert (Hparent_r : (rc - 1) / 2 = 2 * i + 2).
  { destruct Hrc' as [-> | ->].
    - replace (2 * (2 * i + 1 + 1) + 1 - 1) with (2 * (2 * i + 2) + 0) by lia.
      apply half_of; lia.
    - replace (2 * (2 * i + 1 + 1) + 2 - 1) with (2 * (2 * i + 2) + 1) by lia.
      apply half_of; lia. }
  split; [split; [done | lia]|]. intros _.
  destruct (pick_cases cmp b gt lc rc) as [-> | ->];
    (split; [lia|]); (split; [done|]); intros _; (split; [lia|]); auto. }
destruct Hmain as [Hnone Hsome]. split; [done|]. intros Hhas.
destruct (Hsome Hhas) as (Hm & Hc & Hgc). split; [done|]. split; [done|].
split; [done|]. intros Hlen.
split; [apply lookup_lt_is_Some_2; lia|].
split; [apply lookup_lt_is_Some_2; lia|].
intros Hisgc. destruct (Hgc Hisgc) as [Hrange Hp].
apply lookup_lt_is_Some_2. destruct Hp as [-> | ->]; lia.
Qed.

(** X5.  The two [while (true)] loops of the container stop: past
    [size] rounds the loop of [trickleDown], and past [i] rounds the loop of
    [bubbleUp] started at index [i], has left the heap as it stays, however
    many more rounds are allowed. *)
Theorem heap_loops_stop (b : @Beam.t T) (h : list T) (i k : nat) (lt gt : CMP) :
  Beam.trickleLoop cmp (Beam.size b + k) lt gt b i
  = Beam.trickleLoop cmp (Beam.size b) lt gt b i
  /\ Beam.bubbleLoop cmp (i + k) lt h i = Beam.bubbleLoop cmp i lt h i.
Proof.
split.
- apply trickleLoop_fuel; lia.
- apply bubbleLoop_fuel; lia.
Qed.

End BeamContents.

(** X6.  The levels of the heap alternate: the root is on a min level, and
    the two children of a node, like its parent, are on a level of the
    other kind. *)
Theorem levels_alternate (i : nat) :
  isMinLevel 0 = true
  /\ isMinLevel (2 * i + 1) = negb (isMinLevel i)
  /\ isMinLevel (2 * i + 2) = negb (isMinLevel i)
  /\ isMinLevel (((i + 1) - 1) / 2) = negb (isMinLevel (i + 1)).
Proof.
assert (Hl : isMinLevel (2 * i + 1) = negb (isMinLevel i)).
{ unfold isMinLevel.
  replace (2 * i + 1 + 1) with (2 * (i + 1)) by lia.
  rewrite Nat.log2_double by lia.
  by rewrite Nat.even_succ, <- Nat.negb_even. }
assert (Hr : isMinLevel (2 * i + 2) = negb (isMinLevel i)).
{ unfold isMinLevel.
  replace (2 * i + 2 + 1) with (2 * (i + 1) + 1) by lia.
  rewrite Nat.log2_succ_double by lia.
  by rewrite Nat.even_succ, <- Nat.negb_even. }
split; [done|]. split; [done|]. split; [done|].
clear Hl Hr. replace (i + 1 - 1) with i by lia.
unfold isMinLevel.
destruct (Nat.Even_or_Odd i) as [[j ->]|[j ->]].
- replace (2 * j / 2) with j by (apply Nat.div_unique_exact; lia).
  replace (2 * j + 1 + 1) with (2 * (j + 1)) by lia.
  rewrite Nat.log2_double by lia.
  rewrite Nat.even_succ, <- Nat.negb_even. by rewrite negb_involutive.
- replace ((2 * j + 1) / 2) with j
    by (apply (Nat.div_unique _ 2 j 1); lia).
  replace (2 * j + 1 + 1 + 1) with (2 * (j + 1) + 1) by lia.
  rewrite Nat.log2_succ_double by lia.
  rewrite Nat.even_succ, <- Nat.negb_even. by rewrite negb_involutive.
Qed.

(** * Beams of capacity up to three *)

Section SmallBeams.
Context {T : Type}.
Variable cmp : T -> T -> Z.
Variable select : list T -> nat -> (T -> T -> CMP) -> list T.
Context `{!StrictWeakOrder cmp}.

Lemma no_worse_refl x : no_worse cmp x x.
Proof using StrictWeakOrder0.
unfold no_worse, Beam.compare. pose proof (swo_opposite cmp x x) as H.
by destruct (sign (cmp x x)).
Qed.

Lemma no_worse_trans x y z : no_worse cmp x y -> no_worse cmp y z -> no_worse cmp x z.
Proof using StrictWeakOrder0.
unfold no_worse. intros Hxy Hyz Hxz.
assert (Beam.compare cmp z x = LT) as Hzx.
{ unfold Beam.compare in *. by rewrite (swo_opposite cmp x z), Hxz. }
pose proof (lt_worst cmp z x y Hzx Hxy) as Hzy.
apply Hyz. unfold Beam.compare in *. by rewrite (swo_opposite cmp z y), Hzy.
Qed.

Lemma lt_no_worse x y : Beam.compare cmp x y = LT -> no_worse cmp x y.
Proof. unfold no_worse. congruence. Qed.

Lemma not_lt_no_worse x y : Beam.compare cmp x y <> LT -> no_worse cmp y x.
Proof using StrictWeakOrder0.
unfold no_worse, Beam.compare. intros H. rewrite (swo_opposite cmp x y).
destruct (sign (cmp x y)); simpl; congruence.
Qed.

Lemma gt_no_worse x y : Beam.compare cmp x y = GT -> no_worse cmp y x.
Proof using StrictWeakOrder0.
unfold no_worse, Beam.compare. intros H.
by rewrite (swo_opposite cmp x y), H.
Qed.

(** Turns what is known of the comparisons into [no_worse] facts and
    chains them. *)
Ltac order :=
  repeat match goal with
  | H : Beam.compare cmp ?x ?y = LT |- _ => apply lt_no_worse in H
  | H : Beam.compare cmp ?x ?y <> LT |- _ => apply not_lt_no_worse in H
  | H : Beam.compare cmp ?x ?y = GT |- _ => apply gt_no_worse in H
  | H : Beam.compare cmp ?x ?y <> GT |- _ => change (no_worse cmp x y) in H
  end;
  eauto 6 using no_worse_refl, no_worse_trans.

(** Runs the code on an array of known length, case by case of the
    comparisons it makes. *)
Ltac by_cases :=
  cbv -[Beam.compare CMP_eq_dec no_worse elem_of];
  repeat (match goal with
          | |- context [CMP_eq_dec ?x ?y] => destruct (CMP_eq_dec x y)
          end).

Ltac root_cases :=
  by_cases;
  let r := fresh "r" in let x := fresh "x" in
  let Hr := fresh "Hr" in let Hx := fresh "Hx" in
  intros r x Hr Hx; try discriminate Hr; try (injection Hr as <-);
  repeat (apply elem_of_cons in Hx as [->|Hx]); try (by apply elem_of_nil in Hx);
  order.

(** On three elements or fewer [trickleDown(0)] brings a best element to
    the root, whatever the array was. *)
Lemma trickleDown_small_root (b : @Beam.t T) :
  length (Beam.heap b) = Beam.size b -> Beam.size b <= 3 ->
  root_is_best cmp (Beam.trickleDown cmp 0 b).
Proof using StrictWeakOrder0.
intros Hlen Hsz. destruct b as [h sz lim]. simpl in *. subst sz.
destruct h as [|a [|b [|c [|d h]]]]; simpl in *; try lia;
  unfold root_is_best; root_cases.
Qed.

Lemma bubbleUp_small_root (b : @Beam.t T) e :
  length (Beam.heap b) = Beam.size b -> 0 < Beam.size b < 3 ->
  root_is_best cmp b ->
  root_is_best cmp (Beam.bubbleUp cmp (Beam.size b)
    {| Beam.heap := array_set (Beam.heap b) (Beam.size b) e;
       Beam.size := S (Beam.size b); Beam.limit := Beam.limit b |}).
Proof using StrictWeakOrder0.
intros Hlen Hsz Hroot. destruct b as [h sz lim]. simpl in *. subst sz.
destruct h as [|a [|b [|c h]]]; simpl in *; try lia;
  unfold root_is_best in *.
all: try (pose proof (Hroot a b eq_refl ltac:(repeat constructor)) as Hab).
all: clear Hroot; root_cases.
Qed.

Lemma push_small (b : @Beam.t T) e k :
  wf b -> Beam.limit b = Finite k -> k <= 3 ->
  root_is_best cmp b -> root_is_best cmp (Beam.push cmp b e).
Proof using StrictWeakOrder0.
intros [Hlen Hle] Hlim Hk Hroot. rewrite Hlim in Hle. simpl in Hle.
unfold Beam.push.
destruct (decide (Beam.limit b = Finite 0)); [done|].
destruct (Beam.size b =? 0) eqn:H0.
{ apply Nat.eqb_eq in H0. rewrite H0 in Hlen. destruct (Beam.heap b); [|done].
  unfold root_is_best. root_cases. }
apply Nat.eqb_neq in H0.
destruct (lt_limit _ _) eqn:Hlt.
{ apply bubbleUp_small_root; [done | | done].
  rewrite Hlim in Hlt. simpl in Hlt. apply Nat.ltb_lt in Hlt. lia. }
destruct (decide (Beam.limit b = Finite 1)) as [E1|_].
{ assert (Beam.size b = 1) as H1 by (rewrite Hlim in E1; injection E1 as ->; lia).
  destruct b as [h sz lim]. simpl in *. subst sz.
  destruct h as [|a [|b h]]; simpl in *; try lia.
  unfold root_is_best. clear Hroot. root_cases. }
destruct (Beam.heap b !! Beam.maxIndex cmp b) as [hmax|]; [|done].
destruct (decide _); [|done].
apply trickleDown_small_root.
- match goal with |- context [Beam.trickleDown _ ?i ?x] =>
    destruct (trickleDown_shape cmp i x) as (-> & _ & ->) end.
  simpl. by rewrite length_insert.
- match goal with |- context [Beam.trickleDown _ ?i ?x] =>
    destruct (trickleDown_shape cmp i x) as (-> & _ & _) end.
  simpl. lia.
Qed.

Lemma pop_small (b : @Beam.t T) :
  wf b -> Beam.size b <= 3 -> root_is_best cmp (Beam.pop cmp b).2.
Proof using StrictWeakOrder0.
intros [Hlen _] Hsz. unfold Beam.pop.
destruct (Beam.size b =? 0) eqn:H0.
{ apply Nat.eqb_eq in H0. rewrite H0 in Hlen. destruct b as [[|? ?] ? ?]; [|done].
  simpl in *. subst. unfold root_is_best. root_cases. }
apply Nat.eqb_neq in H0.
destruct (0 <? Beam.size b - 1) eqn:H1; simpl.
- apply Nat.ltb_lt in H1. apply trickleDown_small_root; simpl; [|lia].
  rewrite length_take. case_match; rewrite ?length_insert; lia.
- unfold root_is_best. root_cases.
Qed.

(** The constructor ends with [trickleDown(0)]. *)
Lemma trickleFrom_last i (b : @Beam.t T) :
  exists b', same_shape b' b
    /\ Beam.trickleFrom cmp i b = Beam.trickleDown cmp 0 b'.
Proof.
revert b. induction i as [|i IH]; intros b; simpl.
- exists b. split; [apply same_shape_refl | done].
- destruct (IH (Beam.trickleDown cmp (S i) b)) as (b' & Hshape & ->).
  exists b'. split; [|done].
  eapply same_shape_trans; [done | apply trickleDown_shape].
Qed.

Lemma new_small k elements :
  (forall l k c, length (select l k c) = length l) -> k <= 3 ->
  root_is_best cmp (Beam.new cmp select (Finite k) elements).
Proof using StrictWeakOrder0.
intros Hsel Hk.
pose proof (new_wf cmp select (Finite k) elements Hsel) as Hwf.
revert Hwf. unfold Beam.new.
match goal with |- context [Beam.trickleFrom _ ?i ?x] =>
  destruct (trickleFrom_last i x) as (b' & Hshape & ->);
  pose proof (trickleDown_shape cmp 0 b') as Hshape'
end.
intros [Hlen Hle].
destruct Hshape' as (Hs1 & Hl1 & Hh1). rewrite Hs1, Hh1 in Hlen. rewrite Hs1, Hl1 in Hle.
apply trickleDown_small_root; [done|].
destruct Hshape as (_ & Hl & _). rewrite Hl in Hle.
destruct (gt_limit _ _); simpl in Hle; lia.
Qed.

(** With three elements or fewer, a best root leaves the worst among its
    children. *)
Lemma small_children_hold_worst (b : @Beam.t T) :
  wf b -> Beam.size b <= 3 -> root_is_best cmp b -> children_hold_worst cmp b.
Proof using StrictWeakOrder0.
intros [Hlen _] Hsz Hroot H2. destruct b as [h sz lim]. simpl in *. subst sz.
destruct h as [|a [|b [|c [|d h]]]]; simpl in *; try lia;
  unfold root_is_best in *.
all: try (pose proof (Hroot a b eq_refl ltac:(repeat constructor)) as Hab).
all: try (pose proof (Hroot a c eq_refl ltac:(repeat constructor)) as Hac).
all: clear Hroot; by_cases.
all: eexists; split; [reflexivity|]; split; [auto|].
all: intros x Hx; repeat (apply elem_of_cons in Hx as [->|Hx]);
  try (by apply elem_of_nil in Hx); order.
Qed.

(** X7.  With a capacity of three or less the container does keep its
    order, under the comparator contract: after construction from any
    initial elements and after every sequence of pushes and pops, [beam[0]]
    is a best-ranked retained element, and from two elements on the element
    at [maxIndex()], a child of the root, is a worst-ranked one. *)
Theorem small_beam_ordered (k : nat) (elements : list T) (ops : list (@Op T)) :
  (forall l k c, length (select l k c) = length l) ->
  k <= 3 ->
  let b := after cmp (Beam.new cmp select (Finite k) elements) ops in
  root_is_best cmp b /\ children_hold_worst cmp b.
Proof using StrictWeakOrder0.
intros Hsel Hk b.
assert (Hinv : wf b /\ Beam.limit b = Finite k /\ root_is_best cmp b).
{ subst b.
  assert (H0 : wf (Beam.new cmp select (Finite k) elements)
               /\ Beam.limit (Beam.new cmp select (Finite k) elements) = Finite k
               /\ root_is_best cmp (Beam.new cmp select (Finite k) elements)).
  { split; [by apply new_wf|]. split; [|by apply new_small].
    unfold Beam.new.
    match goal with |- Beam.limit (Beam.trickleFrom _ ?i ?x) = _ =>
      destruct (trickleFrom_shape cmp i x) as (_ & -> & _) end.
    simpl. by case_match. }
  revert H0. generalize (Beam.new cmp select (Finite k) elements).
  induction ops as [|op ops IH]; intros b0 (Hwf & Hlim & Hroot); simpl; [done|].
  apply IH. destruct op as [e|]; simpl.
  - split; [by apply push_wf|]. split; [by rewrite push_limit|].
    by apply (push_small b0 e k).
  - split; [by apply pop_wf|]. split; [by rewrite pop_limit|].
    apply pop_small; [done|]. destruct Hwf as [_ Hle]. rewrite Hlim in Hle.
    simpl in Hle. lia. }
destruct Hinv as (Hwf & Hlim & Hroot). split; [done|].
apply small_children_hold_worst; [done | | done].
destruct Hwf as [_ Hle]. rewrite Hlim in Hle. simpl in Hle. lia.
Qed.

End SmallBeams.

Lemma push_below_capacity_witness :
  let b := {| Beam.heap := [1; 5]%Z; Beam.size := 2; Beam.limit := Finite 3 |} in
  wf b /\ lt_limit (Beam.size b) (Beam.limit b) = true
  /\ Beam.heap (Beam.push numeric b 3%Z) ≡ₚ [3; 1; 5]%Z
  /\ Beam.length (Beam.push numeric b 3%Z) = 3.
Proof.
intros b.
assert (Hwf : wf b) by (split; [reflexivity | simpl; lia]).
split; [exact Hwf|]. split; [reflexivity|].
exact (push_below_capacity numeric b 3%Z Hwf eq_refl).
Defined.

Lemma push_at_capacity_evicts_witness :
  let b := {| Beam.heap := [1; 5; 4]%Z; Beam.size := 3; Beam.limit := Finite 3 |} in
  wf b /\ Beam.heap b !! Beam.maxIndex numeric b = Some 5%Z
  /\ Beam.compare numeric 3%Z 5%Z = LT
  /\ (5%Z :: Beam.heap (Beam.push numeric b 3%Z) ≡ₚ 3%Z :: Beam.heap b
      /\ Beam.heap (Beam.push numeric b 3%Z)
           ≡ₚ <[Beam.maxIndex numeric b:=3%Z]> (Beam.heap b)
      /\ Beam.length (Beam.push numeric b 3%Z) = Beam.length b).
Proof.
intros b.
assert (Hwf : wf b) by (split; [reflexivity | simpl; lia]).
split; [exact Hwf|]. split; [reflexivity|]. split; [reflexivity|].
apply (push_at_capacity_evicts numeric b 3%Z 5%Z Hwf); [discriminate | reflexivity..].
Defined.

Lemma pop_takes_first_witness :
  let b := {| Beam.heap := [1; 5; 4]%Z; Beam.size := 3; Beam.limit := Finite 3 |} in
  wf b /\ Beam.size b <> 0
  /\ exists c,
       Beam.first b = Some c
       /\ (Beam.pop numeric b).1 = Some c
       /\ Beam.heap b ≡ₚ c :: Beam.heap (Beam.pop numeric b).2
       /\ Beam.length (Beam.pop numeric b).2 = Beam.length b - 1.
Proof.
intros b.
assert (Hwf : wf b) by (split; [reflexivity | simpl; lia]).
split; [exact Hwf|]. split; [discriminate|].
apply (proj2 (pop_takes_first numeric b) Hwf). discriminate.
Defined.

Lemma constructor_keeps_elements_witness :
  (le_limit (length [3; 1; 2]%Z) (Finite 3)
   /\ Beam.heap (Beam.new numeric sort_select (Finite 3) [3; 1; 2]%Z) ≡ₚ [3; 1; 2]%Z)
  /\ (2 < length [3; 1; 2]%Z
      /\ Beam.length (Beam.new numeric sort_select (Finite 2) [3; 1; 2]%Z) = 2).
Proof.
split.
- split; [simpl; lia|].
  apply (proj1 (constructor_keeps_elements numeric sort_select (Finite 3) [3; 1; 2]%Z)).
  simpl. lia.
- split; [simpl; lia|].
  apply (proj2 (constructor_keeps_elements numeric sort_select (Finite 2) [3; 1; 2]%Z)
           2 eq_refl).
  simpl. lia.
Defined.

Lemma small_beam_ordered_witness :
  let b := after numeric (Beam.new numeric sort_select (Finite 3) [7; 3; 9; 1]%Z)
             [Push 4; Pop; Push 0; Push 8]%Z in
  StrictWeakOrder numeric /\ 3 <= 3
  /\ root_is_best numeric b /\ children_hold_worst numeric b.
Proof.
intros b. split; [exact numeric_swo|]. split; [lia|].
apply (small_beam_ordered numeric sort_select 3 [7; 3; 9; 1]%Z
         [Push 4; Pop; Push 0; Push 8]%Z sort_select_length). lia.
Defined.

(** * Facts about the constructor of the driver *)

Section ConstructorFacts.
Context {T : Type} `{EqDecision T}.
Variables (extend : T -> list T) (check : T -> bool) (evaluate : T -> T -> Z).

Lemma Qlt_bool_iff x y : Qlt_bool x y = true <-> (x < y)%Q.
Proof.
unfold Qlt_bool. rewrite negb_true_iff, <- not_true_iff_false, Qle_bool_iff.
split; [apply Qnot_le_lt | apply Qlt_not_le].
Qed.

Lemma Qlt_bool_false x y : Qlt_bool x y = false <-> (y <= x)%Q.
Proof. unfold Qlt_bool. by rewrite negb_false_iff, Qle_bool_iff. Qed.

(** The utilization always ends up in the half-open interval (0, 1]. *)
Lemma utilization_range (options : OptimizerOptions.t T) :
  (0 < Optimizer.utilization options /\ Optimizer.utilization options <= 1)%Q.
Proof.
unfold Optimizer.utilization, Optimizer.or_default.
destruct (OptimizerOptions.utilization options) as [[q| | |]|]; try done.
destruct (Qeq_bool q 0) eqn:E; [done|].
apply Qeq_bool_neq in E. split.
- apply Q.min_glb_lt; [|done].
  destruct (Qle_lt_or_eq _ _ (Qabs_nonneg q)) as [|Hz]; [done|].
  exfalso. apply E. symmetry in Hz. revert Hz. apply Qabs_case; intros; lra.
- apply Q.le_min_r.
Qed.

(** C8 (amended).  What the constructor stores, for every options object:
    - a beam limit that is positive and finite is kept, every other value
      (absent, [NaN], zero, negative, infinite) gives [Infinity];
    - a turn time that is positive and finite is kept, every other value
      gives 30;
    - a total time that is positive and finite is kept, every other value
      gives [Infinity];
    - the utilization is 0.5 when the option is absent, [NaN] or 0, and
      otherwise the absolute value of the option capped at 1, so that it
      lies in (0, 1]; a value in (0, 1] is kept; the turn interval is the
      turn time divided by it;
    - an optimal-time ratio in [0, 1] is kept, every other value gives 0.66.
    The constructor is a total function: no value makes it fail. *)
Theorem constructor_defaults (options : OptimizerOptions.t T) :
  let o := Optimizer.new extend check evaluate options in
  (* beamLimit *)
  (forall z, OptimizerOptions.beamLimit options = Some (Fin z) -> (0 < z)%Z ->
     Optimizer.beamLimit o = Finite (Z.to_nat z))
  /\ ((forall z, OptimizerOptions.beamLimit options = Some (Fin z) -> (z <= 0)%Z) ->
      Optimizer.beamLimit o = Infinity)
  (* turnTime *)
  /\ (forall q, OptimizerOptions.turnTime options = Some (Fin q) -> (0 < q)%Q ->
      Optimizer.turnTime o = q)
  /\ ((forall q, OptimizerOptions.turnTime options = Some (Fin q) -> (q <= 0)%Q) ->
      Optimizer.turnTime o = 30%Q)
  (* totalTime *)
  /\ (forall q, OptimizerOptions.totalTime options = Some (Fin q) -> (0 < q)%Q ->
      Optimizer.totalTime o = Fin q)
  /\ ((forall q, OptimizerOptions.totalTime options = Some (Fin q) -> (q <= 0)%Q) ->
      Optimizer.totalTime o = PInf)
  (* utilization *)
  /\ (0 < Optimizer.utilization options /\ Optimizer.utilization options <= 1)%Q
  /\ (forall q, OptimizerOptions.utilization options = Some (Fin q) -> ~ (q == 0)%Q ->
      Optimizer.utilization options = Qmin (Qabs q) 1%Q)
  /\ (forall q, OptimizerOptions.utilization options = Some (Fin q) ->
      (0 < q)%Q -> (q <= 1)%Q -> (Optimizer.utilization options == q)%Q)
  /\ ((forall q, OptimizerOptions.utilization options = Some (Fin q) -> (q == 0)%Q) ->
      OptimizerOptions.utilization options <> Some PInf ->
      OptimizerOptions.utilization options <> Some NInf ->
      Optimizer.utilization options = (1 # 2)%Q)
  /\ Optimizer.turnInterval o = (Optimizer.turnTime o / Optimizer.utilization options)%Q
  (* optimalTimeRatio *)
  /\ (forall q, OptimizerOptions.optimalTimeRatio options = Some (Fin q) ->
      (0 <= q)%Q -> (q <= 1)%Q -> Optimizer.optimalTimeRatio o = q)
  /\ ((forall q, OptimizerOptions.optimalTimeRatio options = Some (Fin q) ->
       (q < 0)%Q \/ (1 < q)%Q) ->
      Optimizer.optimalTimeRatio o = (33 # 50)%Q).
Proof.
intros o. subst o. unfold Optimizer.new; simpl. repeat split.
- intros z -> Hz. simpl. by rewrite (proj2 (Z.ltb_lt 0 z) Hz).
- intros Hz. destruct (OptimizerOptions.beamLimit options) as [[z| | |]|]; simpl; try done.
  specialize (Hz z eq_refl). by rewrite (proj2 (Z.ltb_ge 0 z) Hz).
- intros q -> Hq. simpl. by rewrite (proj2 (Qlt_bool_iff 0 q) Hq).
- intros Hq. destruct (OptimizerOptions.turnTime options) as [[q| | |]|]; simpl; try done.
  specialize (Hq q eq_refl). by rewrite (proj2 (Qlt_bool_false 0 q) Hq).
- intros q -> Hq. simpl. by rewrite (proj2 (Qlt_bool_iff 0 q) Hq).
- intros Hq. destruct (OptimizerOptions.totalTime options) as [[q| | |]|]; simpl; try done.
  specialize (Hq q eq_refl). by rewrite (proj2 (Qlt_bool_false 0 q) Hq).
- apply utilization_range.
- apply utilization_range.
- intros q Hu Hq. unfold Optimizer.utilization, Optimizer.or_default. rewrite Hu.
  destruct (Qeq_bool q 0) eqn:E; [|done]. by apply Qeq_bool_eq in E.
- intros q Hu H0 H1. unfold Optimizer.utilization, Optimizer.or_default. rewrite Hu.
  destruct (Qeq_bool q 0) eqn:E; [apply Qeq_bool_eq in E; lra|].
  rewrite Q.min_l; [apply Qabs_pos; lra | rewrite Qabs_pos; lra].
- intros Hq Hp Hn. unfold Optimizer.utilization, Optimizer.or_default.
  destruct (OptimizerOptions.utilization options) as [[q| | |]|]; try done.
  specialize (Hq q eq_refl). by rewrite (Qeq_eq_bool _ _ Hq).
- intros q -> H0 H1. simpl.
  by rewrite (proj2 (Qle_bool_iff 0 q) H0), (proj2 (Qle_bool_iff q 1) H1).
- intros Hq. destruct (OptimizerOptions.optimalTimeRatio options) as [[q| | |]|];
    simpl; try done.
  destruct (Hq q eq_refl) as [Hlt|Hlt].
  + destruct (Qle_bool 0 q) eqn:E; [|done]. apply Qle_bool_iff in E. lra.
  + destruct (Qle_bool q 1) eqn:E; [|by rewrite andb_false_r].
    apply Qle_bool_iff in E. lra.
Qed.

End ConstructorFacts.

(** C8, as stated, fails on the utilization: the option -1/4 gives the
    utilization 1/4 (its absolute value), where clamping into [0, 1]
    gives 0. *)
Lemma utilization_not_clamped :
  ~ (forall options : OptimizerOptions.t Z,
       (Optimizer.utilization options
        == tabled_utilization (OptimizerOptions.utilization options))%Q).
Proof.
intros H.
specialize (H (OptimizerOptions.mk Z None None None None None None
                 (Some (Fin (-1 # 4)%Q)) None)).
vm_compute in H. discriminate H.
Qed.


(** * Facts about the runs of the driver *)

Section DriverFacts.
Context {T : Type} `{EqDecision T}.
Variable select : list T -> nat -> (T -> T -> CMP) -> list T.
Variable o : @Optimizer.t T.
Variable clock : nat -> Z.

#[local] Abbreviation State := (@Optimizer.State T).
#[local] Abbreviation Outcome := (@Optimizer.Outcome T).
#[local] Abbreviation step := (Optimizer.step o clock).
#[local] Abbreviation steps := (Optimizer.steps o clock).
#[local] Existing Instance Optimizer.partials_access.
#[local] Abbreviation p_length := (sa_length (SequentialAccess := Optimizer.partials_access o)).
#[local] Abbreviation p_first := (sa_first (SequentialAccess := Optimizer.partials_access o)).
#[local] Abbreviation p_pop := (sa_pop (SequentialAccess := Optimizer.partials_access o)).
#[local] Abbreviation p_push := (sa_push (SequentialAccess := Optimizer.partials_access o)).

(** Once settled, an outcome no longer changes. *)
Lemma steps_resolved n k s E a s' :
  steps n s = Optimizer.Resolved E a s' -> steps (n + k) s = Optimizer.Resolved E a s'.
Proof.
revert s. induction n as [|n IH]; intros s; simpl; [done|].
destruct (step s); try done. apply IH.
Qed.

Lemma steps_add n k s :
  steps (n + k) s
  = match steps n s with
    | Optimizer.Pending s' => steps k s'
    | r => r
    end.
Proof.
revert s. induction n as [|n IH]; intros s; simpl; [done|].
destruct (step s); try done.
Qed.

Lemma step_not_rejected s err tr : step s <> Optimizer.Rejected err tr.
Proof.
unfold Optimizer.step, Optimizer.iterate, Optimizer.score, Optimizer.finish.
repeat case_match; done.
Qed.

Lemma steps_not_rejected n s err tr : steps n s <> Optimizer.Rejected err tr.
Proof.
revert s. induction n as [|n IH]; intros s; simpl; [done|].
destruct (step s) eqn:E; try done. by apply step_not_rejected in E.
Qed.

(** An invariant of [step] is an invariant of [steps]. *)
Lemma steps_invariant (P : State -> Prop) (Q : list T -> Z -> State -> Prop) :
  (forall s, P s ->
     match step s with
     | Optimizer.Pending s' => P s'
     | Optimizer.Resolved E a s' => Q E a s'
     | Optimizer.Rejected _ _ => True
     end) ->
  forall n s, P s ->
    match steps n s with
    | Optimizer.Pending s' => P s'
    | Optimizer.Resolved E a s' => Q E a s'
    | Optimizer.Rejected _ _ => True
    end.
Proof.
intros Hstep n. induction n as [|n IH]; intros s Hs; simpl; [done|].
specialize (Hstep s Hs). destruct (step s); try done. by apply IH.
Qed.

Lemma improvements_app (tr l : list (@Optimizer.Event T)) :
  improvements (tr ++ l) = improvements tr ++ improvements l.
Proof. apply omap_app. Qed.

Lemma improvements_scored (tr : list (@Optimizer.Event T)) c best z :
  improvements (tr ++ [Optimizer.Popped c; Optimizer.Scored c best z])
  = improvements tr ++ (if (z <? 0)%Z then [c] else []).
Proof. rewrite improvements_app. unfold improvements. simpl. by destruct (z <? 0)%Z. Qed.

(** [equivalents_ok] looks at the representative best, the tie counter and
    the trace only, and a longer trace without new improvements keeps it. *)
Lemma equivalents_ok_ext E (s s' : State) :
  Optimizer.representativeBest s' = Optimizer.representativeBest s ->
  Optimizer.equivSize s' = Optimizer.equivSize s ->
  improvements (Optimizer.trace s') = improvements (Optimizer.trace s) ->
  (forall e, Optimizer.Popped e ∈ Optimizer.trace s ->
             Optimizer.Popped e ∈ Optimizer.trace s') ->
  equivalents_ok o E s -> equivalents_ok o E s'.
Proof.
intros Hrb Hsz Himp Hpop (H1 & H2 & H3 & H4 & H5).
unfold equivalents_ok, best_so_far in *. rewrite Hrb, Hsz, Himp.
repeat split; try done.
- by apply H2.
- apply Hpop. by apply H2.
- by apply H2.
Qed.

Lemma pending_ok_ext (s s' : State) :
  Optimizer.equivalents s' = Optimizer.equivalents s ->
  Optimizer.representativeBest s' = Optimizer.representativeBest s ->
  Optimizer.equivSize s' = Optimizer.equivSize s ->
  improvements (Optimizer.trace s') = improvements (Optimizer.trace s) ->
  (forall e, Optimizer.Popped e ∈ Optimizer.trace s ->
             Optimizer.Popped e ∈ Optimizer.trace s') ->
  pending_ok o s -> pending_ok o s'.
Proof.
intros HE Hrb Hsz Himp Hpop [H1 H2]. split.
- rewrite HE. by eapply equivalents_ok_ext.
- unfold best_so_far in *. by rewrite Hrb, Himp.
Qed.

Lemma finish_ok msg s : pending_ok o s -> outcome_ok o (Optimizer.finish msg s).
Proof.
intros [H1 H2]. unfold Optimizer.finish. simpl.
assert (Himp : improvements (Optimizer.trace s ++
          [Optimizer.Console msg;
           Optimizer.Console (Optimizer.Summary (Optimizer.activeTime s) (Optimizer.bestTime s));
           Optimizer.ClearInterval]) = improvements (Optimizer.trace s)).
{ rewrite improvements_app. simpl. by rewrite app_nil_r. }
split; [|repeat split].
- eapply equivalents_ok_ext; [..|exact H1]; simpl; try done.
  intros e He. apply elem_of_app. by left.
- left. unfold best_so_far in *. simpl. by rewrite Himp.
Qed.

Lemma set_add_elem (c x : T) E : x ∈ Optimizer.set_add c E <-> x = c \/ x ∈ E.
Proof.
clear select.
unfold Optimizer.set_add. destruct (decide (c ∈ E)).
- split; [by right | by intros [->|]].
- rewrite elem_of_app, list_elem_of_singleton. tauto.
Qed.

Lemma set_add_NoDup (c : T) E : NoDup E -> NoDup (Optimizer.set_add c E).
Proof.
intros HE. unfold Optimizer.set_add. destruct (decide (c ∈ E)); [done|].
apply NoDup_app. split; [done|]. split; [|apply NoDup_singleton].
intros x Hx ->%list_elem_of_singleton. done.
Qed.

Lemma set_add_length (c : T) E : length (Optimizer.set_add c E) <= S (length E).
Proof.
unfold Optimizer.set_add. destruct (decide (c ∈ E)); [lia|].
rewrite length_app. simpl. lia.
Qed.

Lemma score_ok candidate rest s :
  Optimizer.check o candidate = true ->
  pending_ok o s -> outcome_ok o (Optimizer.score o candidate rest s).
Proof.
intros Hchk [(H1 & H2 & H3 & H4 & H5) Hrb]. unfold Optimizer.score.
set (z := Optimizer.evaluate o candidate (Optimizer.representativeBest s)).
assert (Hpop : forall e l, Optimizer.Popped e ∈ Optimizer.trace s ->
                 Optimizer.Popped e ∈ Optimizer.trace s ++ l).
{ intros e l He. apply elem_of_app. by left. }
destruct (z <? 0)%Z eqn:Hz.
- (* strictly better *)
  assert (Hbest : forall s' : State,
            Optimizer.trace s' = Optimizer.trace s ++
              [Optimizer.Popped candidate;
               Optimizer.Scored candidate (Optimizer.representativeBest s) z] ->
            improvements (Optimizer.trace s') <> [] /\ best_so_far s' = candidate).
  { intros s' Htr. unfold best_so_far. rewrite Htr, improvements_scored, Hz.
    split; [by destruct (improvements _) | by rewrite last_snoc]. }
  assert (Hok : forall s' : State,
            Optimizer.trace s' = Optimizer.trace s ++
              [Optimizer.Popped candidate;
               Optimizer.Scored candidate (Optimizer.representativeBest s) z] ->
            Optimizer.equivSize s' = Optimizer.equivSize s ->
            equivalents_ok o [candidate] s').
  { intros s' Htr Hsz. destruct (Hbest s' Htr) as [Hne Hb].
    unfold equivalents_ok. rewrite Hb, Hsz, Htr. repeat split.
    - intros _. apply list_elem_of_singleton. done.
    - by apply list_elem_of_singleton in H as ->.
    - apply list_elem_of_singleton in H as ->. apply elem_of_app. right.
      apply list_elem_of_here.
    - left. by apply list_elem_of_singleton in H.
    - apply NoDup_singleton.
    - rewrite <- Htr. rewrite decide_False by done. simpl. lia.
    - done. }
  destruct (match Optimizer.isOptimal o with Some f => f candidate | None => false end)
    eqn:Horacle.
  + destruct (Optimizer.isOptimal o) as [f|] eqn:Hf; [|done].
    unfold Optimizer.finish. simpl. split; [|repeat split].
    2:{ right. exists f. unfold best_so_far. simpl.
        rewrite (improvements_app (_ ++ _)), improvements_scored, Hz. simpl.
        by rewrite app_nil_r, last_snoc. }
    eapply equivalents_ok_ext; [..|apply (Hok (Optimizer.mkState rest
      (Optimizer.representativeBest s) [candidate] (Optimizer.activeTime s)
      (Optimizer.equivSize s) (Optimizer.nextLoopTime s) (Optimizer.hasTop s)
      (Optimizer.top s) (Optimizer.optimalTime s) (Optimizer.activeTime s)
      (Optimizer.phase s) (S (Optimizer.ticks s))
      (Optimizer.trace s ++ [Optimizer.Popped candidate;
         Optimizer.Scored candidate (Optimizer.representativeBest s) z])))];
      simpl; try done.
    * rewrite (improvements_app (_ ++ _)). simpl. by rewrite app_nil_r.
    * intros e He. apply elem_of_app. by left.
  + simpl. split; [by apply Hok|].
    match goal with |- _ = best_so_far ?s' => by destruct (Hbest s' eq_refl) as [_ ->] end.
- (* not strictly better *)
  assert (Himp : improvements (Optimizer.trace s ++
              [Optimizer.Popped candidate;
               Optimizer.Scored candidate (Optimizer.representativeBest s) z])
            = improvements (Optimizer.trace s)).
  { by rewrite improvements_scored, Hz, app_nil_r. }
  destruct ((z =? 0)%Z && num_lt _ _) eqn:Htie.
  + apply andb_true_iff in Htie as [Hz0%Z.eqb_eq Hlt].
    assert (Hs' : pending_ok o
      (Optimizer.mkState rest (Optimizer.representativeBest s)
         (Optimizer.set_add candidate (Optimizer.equivalents s))
         (Optimizer.activeTime s) (S (Optimizer.equivSize s))
         (Optimizer.nextLoopTime s) (Optimizer.hasTop s) (Optimizer.top s)
         (Optimizer.optimalTime s) (Optimizer.bestTime s) (Optimizer.phase s)
         (S (Optimizer.ticks s))
         (Optimizer.trace s ++ [Optimizer.Popped candidate;
            Optimizer.Scored candidate (Optimizer.representativeBest s) z]))).
    { split; [|unfold best_so_far in *; simpl; by rewrite Himp].
      unfold equivalents_ok, best_so_far in *. simpl. rewrite Himp.
      repeat split.
      - intros Hne. apply set_add_elem. right. by apply H1.
      - apply set_add_elem in H as [->|He]; [done | by apply H2].
      - apply set_add_elem in H as [->|He].
        + apply elem_of_app. right. apply list_elem_of_here.
        + apply Hpop. by apply H2.
      - apply set_add_elem in H as [->|He]; [|by apply H2].
        right. by rewrite <- Hrb.
      - by apply set_add_NoDup.
      - pose proof (set_add_length candidate (Optimizer.equivalents s)). lia.
      - intros k [= <-]. done. }
    destruct (num_gt _ _); [by apply finish_ok | done].
  + simpl. eapply pending_ok_ext; [..|by split]; simpl; try done. by intros; apply Hpop.
Qed.

(** Every step keeps the bookkeeping of the equivalents. *)
Lemma step_ok s : pending_ok o s -> outcome_ok o (step s).
Proof.
intros Hs. unfold Optimizer.step.
destruct (Optimizer.phase s) as [|start limit].
- simpl. unfold Optimizer.enter. case_match; by eapply pending_ok_ext.
- destruct (Optimizer.hasTop s).
  + simpl. unfold Optimizer.expand. destruct (Optimizer.top s) as [c|].
    * eapply pending_ok_ext; [..|done]; simpl; try done.
      -- rewrite improvements_app. simpl. by rewrite app_nil_r.
      -- intros e He. apply elem_of_app. by left.
    * by eapply pending_ok_ext.
  + unfold Optimizer.iterate.
    destruct (sa_length (Optimizer.partials s) =? 0); [by apply finish_ok|].
    destruct (Qlt_bool _ _).
    * match goal with |- context [Optimizer.finish _ ?s'] =>
        assert (pending_ok o s') by (by eapply pending_ok_ext) end.
      destruct (_ || _); [by apply finish_ok | done].
    * destruct (sa_pop (Optimizer.partials s)) as [[candidate|] rest];
        [|by apply finish_ok].
      destruct (Optimizer.check o candidate) eqn:Hchk; simpl.
      -- by apply score_ok.
      -- eapply pending_ok_ext; [..|done]; simpl; try done.
         ++ rewrite improvements_app. simpl. by rewrite app_nil_r.
         ++ intros e He. apply elem_of_app. by left.
Qed.

Lemma steps_ok n s : pending_ok o s -> outcome_ok o (steps n s).
Proof.
intros Hs. by apply (steps_invariant (pending_ok o) (resolved_ok o) step_ok).
Qed.

(** The state [run] starts from. *)
Lemma start_pending init s :
  Optimizer.start select o clock init = Optimizer.Pending s ->
  Optimizer.equivalents s = [] /\ Optimizer.equivSize s = 0
  /\ Optimizer.activeTime s = 0%Z /\ Optimizer.hasTop s = false
  /\ Optimizer.phase s = Optimizer.Idle /\ Optimizer.ticks s = 1
  /\ Optimizer.trace s = [Optimizer.SetInterval]
  /\ Optimizer.optimalTime s = Optimizer.totalTime o
  /\ Optimizer.nextLoopTime s = inject_Z (clock 0)
  /\ p_first (Optimizer.partials s) = Some (Optimizer.representativeBest s).
Proof.
unfold Optimizer.start.
set (p := match Optimizer.isOptimal o with Some _ => _ | None => _ end).
destruct (p_length p =? 0); [done|].
destruct (p_first p) as [best|] eqn:Hb; [|done].
intros [= <-]. by repeat split.
Qed.

Lemma start_not_resolved init E a s :
  Optimizer.start select o clock init <> Optimizer.Resolved E a s.
Proof. unfold Optimizer.start. repeat case_match; done. Qed.

Lemma start_pending_ok init s :
  Optimizer.start select o clock init = Optimizer.Pending s -> pending_ok o s.
Proof.
intros (HE & Hsz & _ & _ & _ & _ & Htr & _)%start_pending.
unfold pending_ok, equivalents_ok, best_so_far. rewrite HE, Hsz, Htr. simpl.
repeat split; try done; try (by intros; exfalso; eapply not_elem_of_nil).
apply NoDup_nil_2.
Qed.

(** The bookkeeping of the equivalents holds all along every run. *)
Lemma run_ok init n : outcome_ok o (Optimizer.run select o clock init n).
Proof.
unfold Optimizer.run.
destruct (Optimizer.start select o clock init) as [| s |] eqn:Hstart; try done.
- apply steps_ok. by eapply start_pending_ok.
- unfold Optimizer.start in Hstart. repeat case_match; done.
Qed.

Lemma start_empty :
  Optimizer.start select o clock [] = Optimizer.Rejected "Missing Initial States" [].
Proof.
unfold Optimizer.start.
set (p := match Optimizer.isOptimal o with Some _ => _ | None => _ end).
assert (p_length p = 0) as ->; [|done].
subst p. repeat case_match; try done; simpl; unfold Beam.length;
  rewrite new_size; repeat case_match; simpl; lia.
Qed.

Lemma start_nonempty init :
  (forall l k c, length (select l k c) = length l) ->
  Optimizer.beamLimit o <> Finite 0 ->
  init <> [] ->
  exists s, Optimizer.start select o clock init = Optimizer.Pending s.
Proof.
intros Hsel Hlim Hinit. unfold Optimizer.start.
set (p := match Optimizer.isOptimal o with Some _ => _ | None => _ end).
assert (length init <> 0) as Hlen by (by destruct init).
assert (p_length p <> 0 /\ exists best, p_first p = Some best) as [Hp [best Hb]].
{ assert (forall lim, lim <> Finite 0 ->
     let b := Beam.new (Optimizer.evaluate o) select lim init in
     Beam.length b <> 0 /\ exists best, Beam.first b = Some best) as Hbeam.
  { intros lim Hl b.
    assert (Beam.size b <> 0) as Hsz.
    { subst b. rewrite new_size. destruct lim as [[|k]|]; [done|lia|done]. }
    split; [done|]. apply first_some; [|done]. by apply new_wf. }
  subst p. destruct (Optimizer.isOptimal o), (Optimizer.beamLimit o) eqn:El;
    try (apply Hbeam; congruence).
  simpl. split; [done|]. destruct init; [done | by eexists]. }
apply Nat.eqb_neq in Hp. rewrite Hp, Hb. by eexists.
Qed.

(** C10.  A popped complete candidate that compares strictly better than
    the representative best replaces the set of equivalents by the set
    holding just that candidate, whatever [maxSavedEquivalents] is; so, once
    a strict improvement has occurred, the set [run] resolves with is not
    empty and holds the best state found (the last strict improvement),
    which is the value of [representativeBest] unless the oracle ended the
    run. *)
Theorem improvement_kept_unconditionally :
  (forall candidate rest s,
     (Optimizer.evaluate o candidate (Optimizer.representativeBest s) < 0)%Z ->
     match Optimizer.score o candidate rest s with
     | Optimizer.Pending s' =>
       Optimizer.equivalents s' = [candidate]
       /\ Optimizer.representativeBest s' = candidate
     | Optimizer.Resolved E _ _ => E = [candidate]
     | Optimizer.Rejected _ _ => False
     end)
  /\ (forall init n E a s,
        Optimizer.run select o clock init n = Optimizer.Resolved E a s ->
        improvements (Optimizer.trace s) <> [] ->
        E <> [] /\ best_so_far s ∈ E
        /\ (Optimizer.representativeBest s = best_so_far s
            \/ exists f, Optimizer.isOptimal o = Some f /\ f (best_so_far s) = true)).
Proof.
split.
- intros candidate rest s Hz%Z.ltb_lt. unfold Optimizer.score. rewrite Hz.
  by destruct (match Optimizer.isOptimal o with Some f => f candidate | None => false end).
- intros init n E a s Hrun Himp.
  pose proof (run_ok init n) as Hok. rewrite Hrun in Hok.
  destruct Hok as ((H1 & _) & _ & _ & Hrb).
  specialize (H1 Himp). split; [|split; [done|]].
  + intros ->. by apply elem_of_nil in H1.
  + destruct Hrb as [|(f & ? & ? & _)]; [by left | right; by exists f].
Qed.

(** C6 (amended).  The set [run] resolves with holds at most
    [maxSavedEquivalents] states when no strict improvement occurred and at
    most one more otherwise (the improving candidate is put in without
    looking at the cap); with [maxSavedEquivalents] 0 it is empty when no
    strict improvement occurred and holds exactly the best state found
    otherwise; each of its states is complete and is the best state found or
    ties with it; and a step that changes [representativeBest] leaves the
    set holding the new value only. *)
Theorem equivalents_bound init n E a s :
  Optimizer.run select o clock init n = Optimizer.Resolved E a s ->
  (forall q k,
     Optimizer.maxSavedEquivalents o = Fin q -> (q <= inject_Z (Z.of_nat k))%Q ->
     length E <= (if decide (improvements (Optimizer.trace s) = []) then 0 else 1) + k)
  /\ (forall q,
        Optimizer.maxSavedEquivalents o = Fin q -> (q <= 0)%Q ->
        E = if decide (improvements (Optimizer.trace s) = []) then []
            else [best_so_far s])
  /\ (forall e, e ∈ E ->
        Optimizer.check o e = true
        /\ (e = best_so_far s \/ Optimizer.evaluate o e (best_so_far s) = 0%Z))
  /\ (forall s1 s2,
        step s1 = Optimizer.Pending s2 ->
        Optimizer.representativeBest s2 <> Optimizer.representativeBest s1 ->
        Optimizer.equivalents s2 = [Optimizer.representativeBest s2]).
Proof.
intros Hrun. pose proof (run_ok init n) as Hok. rewrite Hrun in Hok.
destruct Hok as ((H1 & H2 & H3 & H4 & H5) & _).
assert (Hsize : forall q k, Optimizer.maxSavedEquivalents o = Fin q ->
          (q <= inject_Z (Z.of_nat k))%Q -> Optimizer.equivSize s <= k).
{ intros q k Hq Hk. destruct (Optimizer.equivSize s) as [|j] eqn:Ej; [lia|].
  specialize (H5 j eq_refl). rewrite Hq in H5. simpl in H5.
  apply Qlt_bool_iff in H5.
  assert (inject_Z (Z.of_nat j) < inject_Z (Z.of_nat k))%Q as Hjk by lra.
  rewrite <- Zlt_Qlt in Hjk. lia. }
split; [|split; [|split]].
- intros q k Hq Hk. specialize (Hsize q k Hq Hk). lia.
- intros q Hq Hq0. specialize (Hsize q 0 Hq Hq0).
  destruct (decide (improvements (Optimizer.trace s) = [])) as [Hi|Hi].
  + destruct E; [done | simpl in H4; lia].
  + specialize (H1 Hi). destruct E as [|x [|y E]]; simpl in H4; try lia.
    * by apply elem_of_nil in H1.
    * by apply list_elem_of_singleton in H1 as ->.
- intros e He. destruct (H2 e He) as (? & _ & ?). done.
- intros s1 s2. unfold Optimizer.step, Optimizer.iterate, Optimizer.score,
    Optimizer.expand, Optimizer.enter, Optimizer.finish.
  repeat case_match; intros [= <-]; simpl; done.
Qed.



End DriverFacts.

(** ** Runs that fit in their first turn *)

Section QuietRuns.
Context {T : Type} `{EqDecision T}.
Variable select : list T -> nat -> (T -> T -> CMP) -> list T.
Variable o : @Optimizer.t T.
Variables clock1 clock2 : nat -> Z.
Hypothesis quiet1 : quiet o clock1.
Hypothesis quiet2 : quiet o clock2.

Lemma quiet_enter clock s :
  quiet o clock -> Optimizer.phase s = Optimizer.Idle -> in_first_turn o clock s ->
  Optimizer.enter o clock s
  = Optimizer.mkState (Optimizer.partials s) (Optimizer.representativeBest s)
      (Optimizer.equivalents s) (Optimizer.activeTime s) (Optimizer.equivSize s)
      (Optimizer.nextLoopTime s
       + inject_Z (Qceiling ((inject_Z (clock 1%nat) - Optimizer.nextLoopTime s)
                             / Optimizer.turnInterval o))
         * Optimizer.turnInterval o)%Q
      (Optimizer.hasTop s) (Optimizer.top s) (Optimizer.optimalTime s)
      (Optimizer.bestTime s)
      (Optimizer.Turn (clock 1) (inject_Z (clock 1%nat) + Optimizer.turnTime o)%Q)
      2 (Optimizer.trace s).
Proof.
intros [H01 _] Hph Hin. unfold in_first_turn in Hin. rewrite Hph in Hin.
destruct Hin as [Hn Ht]. unfold Optimizer.enter. rewrite Ht, Hn.
assert (Qlt_bool (inject_Z (clock 1)) (inject_Z (clock 0)) = false) as ->; [|done].
apply Qlt_bool_false. by rewrite <- Zle_Qle.
Qed.

Lemma quiet_in_time clock s start limit :
  quiet o clock -> Optimizer.phase s = Optimizer.Turn start limit ->
  in_first_turn o clock s ->
  Qlt_bool limit (inject_Z (clock (Optimizer.ticks s))) = false.
Proof.
intros [_ Hq] Hph Hin. unfold in_first_turn in Hin. rewrite Hph in Hin. subst limit.
apply Qlt_bool_false, Hq.
Qed.

(** Under a quiet clock a step stays in the first turn. *)
Lemma quiet_step_phase clock s s' :
  quiet o clock -> in_first_turn o clock s ->
  Optimizer.step o clock s = Optimizer.Pending s' ->
  in_first_turn o clock s' /\ exists start limit, Optimizer.phase s' = Optimizer.Turn start limit.
Proof.
intros Hq Hin. unfold Optimizer.step.
destruct (Optimizer.phase s) as [|start limit] eqn:Hph.
- rewrite (quiet_enter clock s Hq Hph Hin). intros [= <-]. split; [done | by eexists _, _].
- pose proof (quiet_in_time clock s start limit Hq Hph Hin) as Ht.
  unfold in_first_turn in Hin. rewrite Hph in Hin.
  unfold Optimizer.iterate, Optimizer.score, Optimizer.expand, Optimizer.finish.
  rewrite Ht.
  repeat case_match; intros [= <-]; unfold in_first_turn; simpl; rewrite ?Hph;
    (split; [done | by eexists _, _]).
Qed.

(** Under two quiet clocks, two states with the same search part take the
    same step. *)
Lemma quiet_step s1 s2 :
  same_search s1 s2 -> same_phase s1 s2 ->
  in_first_turn o clock1 s1 -> in_first_turn o clock2 s2 ->
  same_outcome (Optimizer.step o clock1 s1) (Optimizer.step o clock2 s2).
Proof using quiet1 quiet2.
intros Hs Hp Hin1 Hin2. unfold Optimizer.step. unfold same_phase in Hp.
destruct (Optimizer.phase s1) as [|start1 limit1] eqn:Hph1;
  destruct (Optimizer.phase s2) as [|start2 limit2] eqn:Hph2; try done.
- rewrite (quiet_enter clock1 s1 quiet1 Hph1 Hin1),
    (quiet_enter clock2 s2 quiet2 Hph2 Hin2).
  destruct Hs as (?&?&?&?&?&?&?&?&?&?&?). simpl. by repeat split.
- pose proof (quiet_in_time clock1 s1 _ _ quiet1 Hph1 Hin1) as Ht1.
  pose proof (quiet_in_time clock2 s2 _ _ quiet2 Hph2 Hin2) as Ht2.
  destruct s1, s2. destruct Hs as (?&?&?&?&?&?&?&?&?&?&?). simpl in *. subst.
  unfold Optimizer.iterate, Optimizer.score, Optimizer.expand, Optimizer.finish.
  simpl. rewrite Ht1, Ht2.
  repeat case_match; simpl; unfold same_search, same_phase; simpl; by repeat split.
Qed.

Lemma quiet_steps n s1 s2 :
  same_search s1 s2 -> same_phase s1 s2 ->
  in_first_turn o clock1 s1 -> in_first_turn o clock2 s2 ->
  same_outcome (Optimizer.steps o clock1 n s1) (Optimizer.steps o clock2 n s2).
Proof using quiet1 quiet2.
revert s1 s2. induction n as [|n IH]; intros s1 s2 Hs Hp Hin1 Hin2; simpl; [done|].
pose proof (quiet_step s1 s2 Hs Hp Hin1 Hin2) as Hstep.
destruct (Optimizer.step o clock1 s1) as [| s1' |] eqn:E1;
  destruct (Optimizer.step o clock2 s2) as [| s2' |] eqn:E2; try done.
destruct Hstep as [Hs' Hp'].
apply IH; try done.
- by destruct (quiet_step_phase clock1 s1 s1' quiet1 Hin1 E1).
- by destruct (quiet_step_phase clock2 s2 s2' quiet2 Hin2 E2).
Qed.

(** Runs under two quiet clocks have the same outcome, up to the readings
    they keep. *)
Lemma quiet_run init n :
  same_outcome (Optimizer.run select o clock1 init n)
               (Optimizer.run select o clock2 init n).
Proof using quiet1 quiet2.
unfold Optimizer.run, Optimizer.start.
set (p := match Optimizer.isOptimal o with Some _ => _ | None => _ end).
destruct (sa_length p =? 0); [done|].
destruct (sa_first p); [|done].
apply quiet_steps; unfold same_search, same_phase, in_first_turn; simpl; by repeat split.
Qed.

(** Under a quiet clock no active time is ever accounted. *)
Lemma quiet_active_time init n :
  match Optimizer.run select o clock1 init n with
  | Optimizer.Pending s => Optimizer.activeTime s = 0%Z /\ in_first_turn o clock1 s
  | Optimizer.Resolved _ a _ => a = 0%Z
  | Optimizer.Rejected _ _ => True
  end.
Proof using quiet1.
unfold Optimizer.run.
destruct (Optimizer.start select o clock1 init) as [| s0 |] eqn:Hstart; try done.
2:{ unfold Optimizer.start in Hstart. repeat case_match; done. }
apply start_pending in Hstart as (_ & _ & Ha & _ & Hph & Ht & _ & _ & Hn & _).
apply (steps_invariant o clock1
         (fun s => Optimizer.activeTime s = 0%Z /\ in_first_turn o clock1 s)
         (fun _ a _ => a = 0%Z)).
2:{ split; [done|]. unfold in_first_turn. by rewrite Hph. }
clear Ha Hph Ht Hn. intros s [Ha Hin].
destruct (Optimizer.step o clock1 s) as [| s' |] eqn:Hstep; [done | |].
- split; [|by destruct (quiet_step_phase clock1 s s' quiet1 Hin Hstep)].
  revert Hstep. unfold Optimizer.step.
  destruct (Optimizer.phase s) as [|start limit] eqn:Hph.
  + rewrite (quiet_enter clock1 s quiet1 Hph Hin). by intros [= <-].
  + pose proof (quiet_in_time clock1 s start limit quiet1 Hph Hin) as Ht.
    unfold Optimizer.iterate, Optimizer.score, Optimizer.expand, Optimizer.finish.
    rewrite Ht. repeat case_match; intros [= <-]; done.
- revert Hstep. unfold Optimizer.step.
  destruct (Optimizer.phase s) as [|start limit] eqn:Hph; [done|].
  pose proof (quiet_in_time clock1 s start limit quiet1 Hph Hin) as Ht.
  unfold Optimizer.iterate, Optimizer.score, Optimizer.expand, Optimizer.finish.
  rewrite Ht. repeat case_match; intros [= <- <- <-]; done.
Qed.

(** X20.  A run that fits in its first turn does not depend on the clock:
    under any two clocks that keep the run within its first turn, the runs
    on the same initial states are, after the same number of steps, both
    rejected, or both pending with the same container, representative best,
    set of equivalents and trace, or both resolved, with the same set, the
    same trace and active time 0. *)
Theorem first_turn_outcome_clock_free init n :
  match Optimizer.run select o clock1 init n, Optimizer.run select o clock2 init n with
  | Optimizer.Rejected e1 t1, Optimizer.Rejected e2 t2 => e1 = e2 /\ t1 = t2
  | Optimizer.Pending s1, Optimizer.Pending s2 =>
    Optimizer.partials s1 = Optimizer.partials s2
    /\ Optimizer.representativeBest s1 = Optimizer.representativeBest s2
    /\ Optimizer.equivalents s1 = Optimizer.equivalents s2
    /\ Optimizer.trace s1 = Optimizer.trace s2
  | Optimizer.Resolved E1 a1 s1, Optimizer.Resolved E2 a2 s2 =>
    E1 = E2 /\ a1 = 0%Z /\ a2 = 0%Z /\ Optimizer.trace s1 = Optimizer.trace s2
  | _, _ => False
  end.
Proof using quiet1 quiet2.
pose proof (quiet_run init n) as Hsame.
pose proof (quiet_active_time init n) as Ha.
destruct (Optimizer.run select o clock1 init n) as [e1 t1| s1 | E1 a1 s1],
  (Optimizer.run select o clock2 init n) as [e2 t2| s2 | E2 a2 s2];
  simpl in Hsame; try done.
- destruct Hsame as [(Hp & Hr & He & _ & _ & _ & _ & _ & _ & _ & Ht) _].
  by repeat split.
- destruct Hsame as (HE & Haa & (_ & _ & _ & _ & _ & _ & _ & _ & _ & _ & Ht)).
  subst. by repeat split.
Qed.

End QuietRuns.

(** ** The best state found is unbeaten *)

Section Optimality.
Context {T : Type} `{EqDecision T}.
Variable select : list T -> nat -> (T -> T -> CMP) -> list T.
Variable o : @Optimizer.t T.
Variable clock : nat -> Z.
Context `{!StrictWeakOrder (Optimizer.evaluate o)}.

Lemma sign_refl c : sign (Optimizer.evaluate o c c) = EQ.
Proof using StrictWeakOrder0.
pose proof (swo_opposite (Optimizer.evaluate o) c c) as Hc.
by destruct (sign (Optimizer.evaluate o c c)).
Qed.

Lemma sign_lt z : sign z = LT <-> (z < 0)%Z.
Proof. destruct z; simpl; split; intros; try done; lia. Qed.

Lemma sign_eq z : sign z = EQ <-> z = 0%Z.
Proof. destruct z; simpl; split; intros; done. Qed.

Lemma best_so_far_ext (s s' : @Optimizer.State T) :
  Optimizer.representativeBest s' = Optimizer.representativeBest s ->
  improvements (Optimizer.trace s') = improvements (Optimizer.trace s) ->
  best_so_far s' = best_so_far s.
Proof. intros Hrb Hi. unfold best_so_far. by rewrite Hrb, Hi. Qed.

Lemma unbeaten_keep e (s s' : @Optimizer.State T) :
  (forall c, Optimizer.Popped c ∈ Optimizer.trace s' ->
     Optimizer.Popped c ∈ Optimizer.trace s
     \/ Optimizer.check o c = false
     \/ sign (Optimizer.evaluate o c e) <> LT) ->
  unbeaten o e s -> unbeaten o e s'.
Proof.
intros Hpop Hu c Hc Hchk. destruct (Hpop c Hc) as [?|[?|?]]; [by apply Hu|congruence|done].
Qed.

(** A state that ranks strictly better than an unbeaten one is unbeaten,
    and so is a state that ties with one. *)
Lemma unbeaten_improved e e' (s : @Optimizer.State T) :
  sign (Optimizer.evaluate o e' e) = LT -> unbeaten o e s -> unbeaten o e' s.
Proof using StrictWeakOrder0.
intros He Hu c Hc Hchk Hlt. apply (Hu c Hc Hchk). by eapply swo_trans.
Qed.

Lemma unbeaten_tie e e' (s : @Optimizer.State T) :
  Optimizer.evaluate o e' e = 0%Z -> unbeaten o e s -> unbeaten o e' s.
Proof using StrictWeakOrder0.
intros He Hu c Hc Hchk Hlt. apply (Hu c Hc Hchk).
apply (lt_worst (Optimizer.evaluate o) c e' e); [done|].
unfold Beam.compare. by rewrite He.
Qed.

Lemma popped_snoc (tr l : list (@Optimizer.Event T)) c :
  Optimizer.Popped c ∈ tr ++ l -> Optimizer.Popped c ∈ tr \/ Optimizer.Popped c ∈ l.
Proof. apply elem_of_app. Qed.

(** Closes a goal with a hypothesis [H] that finds a pop among events that
    are not pops. *)
Ltac no_pop H :=
  exfalso;
  repeat (apply elem_of_cons in H as [H|H]; [discriminate H|]);
  by apply elem_of_nil in H.

Lemma finish_unbeaten msg (s : @Optimizer.State T) :
  unbeaten o (best_so_far s) s ->
  match Optimizer.finish msg s with
  | Optimizer.Resolved _ _ s' => unbeaten o (best_so_far s') s'
  | _ => True
  end.
Proof.
intros Hu. unfold Optimizer.finish.
match goal with |- unbeaten _ (best_so_far ?s') _ =>
  assert (best_so_far s' = best_so_far s) as ->
end.
{ apply best_so_far_ext; simpl; [done|]. rewrite improvements_app. simpl.
  by rewrite app_nil_r. }
eapply unbeaten_keep; [|done]. simpl. intros c [Hc|Hc]%popped_snoc; [by left|].
no_pop Hc.
Qed.

Lemma score_unbeaten candidate rest (s : @Optimizer.State T) :
  Optimizer.check o candidate = true ->
  Optimizer.representativeBest s = best_so_far s ->
  unbeaten o (best_so_far s) s ->
  match Optimizer.score o candidate rest s with
  | Optimizer.Pending s' | Optimizer.Resolved _ _ s' => unbeaten o (best_so_far s') s'
  | Optimizer.Rejected _ _ => True
  end.
Proof using StrictWeakOrder0.
intros Hchk Hrb Hu. unfold Optimizer.score.
set (z := Optimizer.evaluate o candidate (Optimizer.representativeBest s)).
set (tr := Optimizer.trace s ++ [Optimizer.Popped candidate;
             Optimizer.Scored candidate (Optimizer.representativeBest s) z]).
assert (Hpop : forall c, Optimizer.Popped c ∈ tr ->
                 Optimizer.Popped c ∈ Optimizer.trace s \/ c = candidate).
{ subst tr. intros c [Hc|Hc]%popped_snoc; [by left | right].
  apply elem_of_cons in Hc as [[= ->]|Hc]; [done | no_pop Hc]. }
destruct (z <? 0)%Z eqn:Hz.
- (* strictly better: the candidate is the best found *)
  assert (Hnew : forall s' : @Optimizer.State T,
            Optimizer.trace s' = tr -> unbeaten o (best_so_far s') s').
  { intros s' Htr.
    assert (best_so_far s' = candidate) as ->.
    { unfold best_so_far. subst tr. by rewrite Htr, improvements_scored, Hz, last_snoc. }
    intros c Hc Hcc. rewrite Htr in Hc. destruct (Hpop c Hc) as [Hold| ->].
    - apply (unbeaten_improved (best_so_far s) candidate s); [|done..].
      rewrite <- Hrb. apply sign_lt. by apply Z.ltb_lt.
    - by rewrite sign_refl. }
  destruct (match Optimizer.isOptimal o with Some f => f candidate | None => false end).
  + match goal with |- context [Optimizer.finish _ ?s1] =>
      apply (finish_unbeaten Optimizer.FoundOptimal s1), Hnew end. done.
  + by apply Hnew.
- (* not strictly better: the best found stays *)
  assert (Hold : forall s' : @Optimizer.State T,
            Optimizer.trace s' = tr ->
            Optimizer.representativeBest s' = Optimizer.representativeBest s ->
            unbeaten o (best_so_far s') s').
  { intros s' Htr Hrb'.
    assert (best_so_far s' = best_so_far s) as ->.
    { apply best_so_far_ext; [done|]. subst tr.
      by rewrite Htr, improvements_scored, Hz, app_nil_r. }
    eapply unbeaten_keep; [|done]. intros c Hc. rewrite Htr in Hc.
    destruct (Hpop c Hc) as [?| ->]; [by left|]. right. right.
    rewrite <- Hrb. fold z. rewrite sign_lt. apply Z.ltb_ge in Hz. lia. }
  destruct (_ && _).
  + destruct (num_gt _ _); [|by apply Hold].
    match goal with |- context [Optimizer.finish _ ?s1] =>
      apply (finish_unbeaten Optimizer.SolutionCount s1) end. by apply Hold.
  + by apply Hold.
Qed.

Lemma step_unbeaten (s : @Optimizer.State T) :
  pending_ok o s /\ unbeaten o (best_so_far s) s ->
  match Optimizer.step o clock s with
  | Optimizer.Pending s' => pending_ok o s' /\ unbeaten o (best_so_far s') s'
  | Optimizer.Resolved E a s' => resolved_ok o E a s' /\ unbeaten o (best_so_far s') s'
  | Optimizer.Rejected _ _ => True
  end.
Proof using StrictWeakOrder0.
intros [Hok Hu]. pose proof (step_ok o clock s Hok) as Hstep.
assert (match Optimizer.step o clock s with
        | Optimizer.Pending s' | Optimizer.Resolved _ _ s' => unbeaten o (best_so_far s') s'
        | Optimizer.Rejected _ _ => True
        end) as Hun.
{ unfold Optimizer.step.
  destruct (Optimizer.phase s) as [|start limit].
  { unfold Optimizer.enter. case_match; (erewrite best_so_far_ext; [|done..]);
      by eapply unbeaten_keep; [|done]; left. }
  destruct (Optimizer.hasTop s).
  { unfold Optimizer.expand. case_match.
    - erewrite best_so_far_ext; simpl; [|done|].
      2:{ rewrite improvements_app. simpl. by rewrite app_nil_r. }
      eapply unbeaten_keep; [|done]. simpl.
      intros c [Hc|Hc]%popped_snoc; [by left | no_pop Hc].
    - erewrite best_so_far_ext; [|done..]. by eapply unbeaten_keep; [|done]; left. }
  unfold Optimizer.iterate.
  destruct (sa_length (Optimizer.partials s) =? 0); [by apply finish_unbeaten|].
  destruct (Qlt_bool _ _).
  { assert (forall s1 : @Optimizer.State T,
       Optimizer.representativeBest s1 = Optimizer.representativeBest s ->
       Optimizer.trace s1 = Optimizer.trace s ->
       unbeaten o (best_so_far s1) s1) as Hsame.
    { intros s1 Hrb1 Htr1. erewrite best_so_far_ext; [|done|by rewrite Htr1].
      eapply unbeaten_keep; [|done]. rewrite Htr1. by left. }
    destruct (_ || _); [|by apply Hsame].
    match goal with |- context [Optimizer.finish _ ?s1] =>
      apply (finish_unbeaten Optimizer.TimeLimits s1) end. by apply Hsame. }
  destruct (sa_pop (Optimizer.partials s)) as [[c|] rest];
    [|by apply finish_unbeaten].
  destruct (Optimizer.check o c) eqn:Hc; simpl.
  - apply score_unbeaten; try done. by destruct Hok.
  - erewrite best_so_far_ext; simpl; [|done|].
    2:{ rewrite improvements_app. simpl. by rewrite app_nil_r. }
    eapply unbeaten_keep; [|done]. simpl.
    intros x [Hx|Hx]%popped_snoc; [by left|]. right. left.
    apply list_elem_of_singleton in Hx. by simplify_eq. }
destruct (Optimizer.step o clock s); done.
Qed.

(** Every state of the set a run resolves with is complete, was popped,
    and is not beaten by any complete state the run popped. *)
Lemma resolved_unbeaten init n E a s :
  Optimizer.run select o clock init n = Optimizer.Resolved E a s ->
  forall e, e ∈ E ->
    Optimizer.check o e = true /\ Optimizer.Popped e ∈ Optimizer.trace s
    /\ unbeaten o e s.
Proof using StrictWeakOrder0.
unfold Optimizer.run.
destruct (Optimizer.start select o clock init) as [| s0 |] eqn:Hstart; try done.
2:{ by apply start_not_resolved in Hstart. }
intros Hsteps.
pose proof (steps_invariant o clock
  (fun s => pending_ok o s /\ unbeaten o (best_so_far s) s)
  (fun E a s => resolved_ok o E a s /\ unbeaten o (best_so_far s) s)
  step_unbeaten n s0) as Hinv.
rewrite Hsteps in Hinv.
destruct Hinv as [((_ & H2 & _) & _) Hu].
{ split; [by eapply start_pending_ok|].
  apply start_pending in Hstart as (_ & _ & _ & _ & _ & _ & Htr & _).
  intros c Hc. rewrite Htr in Hc. no_pop Hc. }
intros e He. destruct (H2 e He) as (Hchk & Hpop & Hbest). repeat split; try done.
destruct Hbest as [-> | Htie]; [done | by eapply unbeaten_tie].
Qed.

(** X19.  What a run returns, whatever the container and the clock, under
    the comparator contract: every state of the resolved set is complete
    and was popped, no complete state popped during the search ranks
    strictly better than it, and any two states of the set tie. *)
Theorem returned_solutions_unbeaten init n E a s :
  Optimizer.run select o clock init n = Optimizer.Resolved E a s ->
  (forall e, e ∈ E ->
     Optimizer.check o e = true /\ Optimizer.Popped e ∈ Optimizer.trace s
     /\ forall c, Optimizer.Popped c ∈ Optimizer.trace s ->
          Optimizer.check o c = true -> sign (Optimizer.evaluate o c e) <> LT)
  /\ (forall e e', e ∈ E -> e' ∈ E -> sign (Optimizer.evaluate o e e') = EQ).
Proof using StrictWeakOrder0.
intros Hrun. pose proof (resolved_unbeaten init n E a s Hrun) as Hun.
split; [exact Hun|]. intros e e' He He'.
destruct (Hun e He) as (Hce & Hpe & Hue).
destruct (Hun e' He') as (Hce' & Hpe' & Hue').
specialize (Hue e' Hpe' Hce'). specialize (Hue' e Hpe Hce).
rewrite (swo_opposite (Optimizer.evaluate o) e e') in Hue.
destruct (sign (Optimizer.evaluate o e e')); simpl in *; congruence.
Qed.

End Optimality.

(** ** Exhaustive mode *)

Section Exhaustive.
Context {T : Type} `{EqDecision T}.
Variable select : list T -> nat -> (T -> T -> CMP) -> list T.
Variable o : @Optimizer.t T.
Variable clock : nat -> Z.
Hypothesis no_oracle : Optimizer.isOptimal o = None.
Hypothesis unbounded : Optimizer.beamLimit o = Infinity.

#[local] Existing Instance Optimizer.partials_access.

Lemma start_array init s0 :
  Optimizer.start select o clock init = Optimizer.Pending s0 ->
  Optimizer.partials s0 = Optimizer.PArray init.
Proof using no_oracle unbounded.
unfold Optimizer.start. rewrite no_oracle, unbounded. simpl.
repeat case_match; by intros [= <-].
Qed.

Lemma array_push_all (l a : list T) :
  fold_left (sa_push (SequentialAccess := Optimizer.partials_access o)) l
    (Optimizer.PArray a)
  = Optimizer.PArray (a ++ l).
Proof.
revert a. induction l as [|x l IH]; intros a; simpl; [by rewrite app_nil_r|].
by rewrite IH, <- app_assoc.
Qed.

Lemma array_pop (a : list T) r rest :
  sa_pop (SequentialAccess := Optimizer.partials_access o) (Optimizer.PArray a) = (r, rest) ->
  (r = None /\ a = [])
  \/ exists c a', r = Some c /\ a = a' ++ [c] /\ rest = Optimizer.PArray a'.
Proof.
simpl. intros [= <- <-]. destruct (last a) as [c|] eqn:Hl.
- right. apply last_Some in Hl as [a' ->]. exists c, a'.
  by rewrite removelast_last.
- left. by apply last_None in Hl.
Qed.

Lemma closed_reachable init (s : @Optimizer.State T) x :
  closed o init s -> reachable o init x -> Optimizer.Popped x ∈ Optimizer.trace s.
Proof.
intros [Hinit Hnext] Hr. induction Hr as [x Hx | x y _ IH Hchk Hy].
- by apply Hinit.
- by eapply Hnext.
Qed.

(** Closes a goal with a hypothesis [H] that finds a log line among events
    that are not that line. *)
Ltac no_console H :=
  exfalso;
  repeat (apply elem_of_cons in H as [H|H]; [discriminate H|]);
  by apply elem_of_nil in H.

Lemma finish_not_exhausted msg (s : @Optimizer.State T) E a s' :
  msg <> Optimizer.Exhausted ->
  (forall m, Optimizer.Console m ∉ Optimizer.trace s) ->
  Optimizer.finish msg s = Optimizer.Resolved E a s' -> ~ exhausted s'.
Proof.
intros Hmsg Hnone [= <- <- <-] [Hin|Hin]%elem_of_app; [by eapply Hnone|].
apply elem_of_cons in Hin as [[= <-]|Hin]; [done | no_console Hin].
Qed.

Lemma score_frontier init candidate a' (s : @Optimizer.State T) a :
  Optimizer.check o candidate = true ->
  Optimizer.partials s = Optimizer.PArray a -> a = a' ++ [candidate] ->
  Optimizer.hasTop s = false ->
  frontier_ok o init s ->
  match Optimizer.score o candidate (Optimizer.PArray a') s with
  | Optimizer.Pending s' => frontier_ok o init s'
  | Optimizer.Resolved _ _ s' => ~ exhausted s'
  | Optimizer.Rejected _ _ => True
  end.
Proof using no_oracle.
intros Hchk Hp -> Htop (a0 & Hp0 & Hinit & Hnext & _ & Hnone).
rewrite Hp in Hp0. injection Hp0 as <-.
set (z := Optimizer.evaluate o candidate (Optimizer.representativeBest s)).
assert (Hnew : forall s' : @Optimizer.State T,
  Optimizer.partials s' = Optimizer.PArray a' ->
  Optimizer.hasTop s' = false ->
  Optimizer.trace s' = Optimizer.trace s ++
    [Optimizer.Popped candidate;
     Optimizer.Scored candidate (Optimizer.representativeBest s) z] ->
  frontier_ok o init s').
{ intros s' Hp' Htop' Htr'. exists a'. rewrite Htr', Htop'. repeat split; try done.
  - intros x Hx. destruct (Hinit x Hx) as [Hpop|[Hin| ->%list_elem_of_singleton]%elem_of_app].
    + left. apply elem_of_app. by left.
    + by right.
    + left. apply elem_of_app. right. apply list_elem_of_here.
  - intros x y [Hx|Hx]%elem_of_app Hxc Hy.
    + destruct (Hnext x y Hx Hxc Hy)
        as [Hpop|[[Hin| ->%list_elem_of_singleton]%elem_of_app|[Ht _]]].
      * left. apply elem_of_app. by left.
      * right. by left.
      * left. apply elem_of_app. right. apply list_elem_of_here.
      * congruence.
    + apply elem_of_cons in Hx as [[= ->]|Hx]; [congruence | no_console Hx].
  - intros msg [Hin|Hin]%elem_of_app; [by eapply Hnone | no_console Hin]. }
assert (Hnone' : forall s' : @Optimizer.State T,
  Optimizer.trace s' = Optimizer.trace s ++
    [Optimizer.Popped candidate;
     Optimizer.Scored candidate (Optimizer.representativeBest s) z] ->
  forall m, Optimizer.Console m ∉ Optimizer.trace s').
{ intros s' -> m [Hin|Hin]%elem_of_app; [by eapply Hnone | no_console Hin]. }
unfold Optimizer.score. fold z. rewrite no_oracle.
destruct (z <? 0)%Z; [by apply Hnew|].
destruct (_ && _); [|by apply Hnew].
destruct (num_gt _ _); [|by apply Hnew].
match goal with |- context [Optimizer.finish ?msg ?s1] =>
  apply (finish_not_exhausted msg s1 _ _ _ ltac:(done) (Hnone' s1 eq_refl) eq_refl)
end.
Qed.

(** Every step of a run in array mode keeps the frontier, and a run that
    ends with the array empty has popped everything it could get to. *)
Lemma step_frontier init (s : @Optimizer.State T) :
  frontier_ok o init s ->
  match Optimizer.step o clock s with
  | Optimizer.Pending s' => frontier_ok o init s'
  | Optimizer.Resolved _ _ s' => exhausted s' -> closed o init s'
  | Optimizer.Rejected _ _ => True
  end.
Proof using no_oracle.
intros Hf. pose proof Hf as (a & Hp & Hinit & Hnext & Htop & Hnone).
assert (Hsame : forall s' : @Optimizer.State T,
  Optimizer.partials s' = Optimizer.partials s ->
  Optimizer.hasTop s' = Optimizer.hasTop s ->
  Optimizer.top s' = Optimizer.top s ->
  Optimizer.trace s' = Optimizer.trace s ->
  frontier_ok o init s').
{ intros s' Hp' Ht' Htt' Htr'. exists a. by rewrite Hp', Ht', Htt', Htr'. }
assert (Hexh : forall (s1 : @Optimizer.State T) l,
  Optimizer.trace s1 = Optimizer.trace s ++ l ->
  (forall x, Optimizer.Popped x ∉ l) ->
  a = [] -> Optimizer.hasTop s = false -> closed o init s1).
{ intros s1 l Htr Hl -> Ht. split.
  - intros x Hx. rewrite Htr. apply elem_of_app. left.
    destruct (Hinit x Hx) as [?|Hin]; [done | by apply elem_of_nil in Hin].
  - intros x y Hx Hxc Hy. rewrite Htr in *. apply elem_of_app. left.
    apply elem_of_app in Hx as [Hx|Hx]; [|by apply Hl in Hx].
    destruct (Hnext x y Hx Hxc Hy) as [?|[Hin|[? _]]];
      [done | by apply elem_of_nil in Hin | congruence]. }
unfold Optimizer.step.
destruct (Optimizer.phase s) as [|start limit].
{ unfold Optimizer.enter. case_match; by apply Hsame. }
destruct (Optimizer.hasTop s) eqn:Ht.
{ destruct (Htop eq_refl) as (c & Hc & Hchk).
  unfold Optimizer.expand. rewrite Hc, Hp, array_push_all.
  exists (a ++ Optimizer.extend o c). simpl. repeat split; try done.
  - intros x Hx. destruct (Hinit x Hx) as [Hpop|Hin].
    + left. apply elem_of_app. by left.
    + right. apply elem_of_app. by left.
  - intros x y [Hx|Hx]%elem_of_app Hxc Hy; [|no_console Hx].
    destruct (Hnext x y Hx Hxc Hy) as [Hpop|[Hin|[_ Hxt]]].
    + left. apply elem_of_app. by left.
    + right. left. apply elem_of_app. by left.
    + right. left. apply elem_of_app. right. congruence.
  - intros msg [Hin|Hin]%elem_of_app; [by eapply Hnone | no_console Hin]. }
unfold Optimizer.iterate. rewrite Hp.
destruct (sa_length (Optimizer.PArray a) =? 0) eqn:Hlen.
{ intros _. unfold Optimizer.finish.
  eapply Hexh; [simpl; reflexivity | | by destruct a | done].
  intros x Hx. no_console Hx. }
destruct (Qlt_bool _ _).
{ destruct (_ || _); [|by apply Hsame].
  match goal with |- context [Optimizer.finish ?msg ?s1] =>
    pose proof (finish_not_exhausted msg s1 _ _ _ ltac:(done) Hnone eq_refl) as Hne
  end.
  intros Hex. by apply Hne in Hex. }
destruct (sa_pop (Optimizer.PArray a)) as [r rest] eqn:Hpop.
destruct (array_pop a r rest Hpop) as [[-> ->]|(c & a' & -> & -> & ->)]; [done|].
destruct (Optimizer.check o c) eqn:Hchk; simpl.
- pose proof (score_frontier init c a' s (a' ++ [c]) Hchk Hp eq_refl Ht Hf) as Hs.
  destruct (Optimizer.score o c (Optimizer.PArray a') s); try done.
- exists a'. simpl. repeat split; try done.
  + intros x Hx. destruct (Hinit x Hx) as [Hpop'|[Hin| ->%list_elem_of_singleton]%elem_of_app].
    * left. apply elem_of_app. by left.
    * by right.
    * left. apply elem_of_app. right. apply list_elem_of_here.
  + intros x y [Hx|Hx]%elem_of_app Hxc Hy.
    * destruct (Hnext x y Hx Hxc Hy)
        as [Hpop'|[[Hin| ->%list_elem_of_singleton]%elem_of_app|[? _]]].
      -- left. apply elem_of_app. by left.
      -- right. by left.
      -- left. apply elem_of_app. right. apply list_elem_of_here.
      -- congruence.
    * apply list_elem_of_singleton in Hx as [= ->]. right. right. done.
  + intros _. by exists c.
  + intros msg [Hin|Hin]%elem_of_app; [by eapply Hnone | no_console Hin].
Qed.

Lemma run_frontier init n :
  match Optimizer.run select o clock init n with
  | Optimizer.Pending s => frontier_ok o init s
  | Optimizer.Resolved _ _ s => exhausted s -> closed o init s
  | Optimizer.Rejected _ _ => True
  end.
Proof using no_oracle unbounded.
unfold Optimizer.run.
destruct (Optimizer.start select o clock init) as [| s0 |] eqn:Hstart; try done.
2:{ by apply start_not_resolved in Hstart. }
apply (steps_invariant o clock (frontier_ok o init)
         (fun _ _ s => exhausted s -> closed o init s) (step_frontier init)).
pose proof (start_array init s0 Hstart) as Hp.
apply start_pending in Hstart as (_ & _ & _ & Htop & _ & _ & Htr & _).
exists init. rewrite Htr, Htop. repeat split; try done.
- by right.
- intros x y Hx. no_console Hx.
- intros msg Hin. no_console Hin.
Qed.

(** With no time limit, no adaptive deadline and no bail limit, the run can
    only end with the array empty. *)
Lemma run_only_exhausts init n E a s :
  Optimizer.totalTime o = PInf ->
  (Optimizer.optimalTimeRatio o == 0)%Q ->
  Optimizer.equivBailLimit o = PInf ->
  Optimizer.run select o clock init n = Optimizer.Resolved E a s ->
  exhausted s.
Proof using no_oracle.
intros Htotal Hratio Hbail. unfold Optimizer.run.
destruct (Optimizer.start select o clock init) as [| s0 |] eqn:Hstart; try done.
2:{ by apply start_not_resolved in Hstart. }
intros Hsteps.
assert (Hstep : forall s : @Optimizer.State T,
  Optimizer.optimalTime s = PInf ->
  match Optimizer.step o clock s with
  | Optimizer.Pending s' => Optimizer.optimalTime s' = PInf
  | Optimizer.Resolved _ _ s' => exhausted s'
  | Optimizer.Rejected _ _ => True
  end).
{ intros s1 Hopt. apply Qeq_eq_bool in Hratio.
  unfold Optimizer.step, Optimizer.iterate, Optimizer.score, Optimizer.expand,
    Optimizer.enter, Optimizer.finish.
  rewrite no_oracle, Htotal, Hbail, Hopt, Hratio. simpl.
  repeat case_match; simplify_eq; simpl; try done; unfold exhausted; simpl;
    apply elem_of_app; right; apply list_elem_of_here. }
assert (Optimizer.optimalTime s0 = PInf) as H0.
{ apply start_pending in Hstart as (_&_&_&_&_&_&_&->&_). done. }
pose proof (steps_invariant o clock _ _ Hstep n s0 H0) as Hn.
by rewrite Hsteps in Hn.
Qed.

End Exhaustive.

(** ** Termination *)

Section Termination.
Context {T : Type} `{EqDecision T}.
Variable select : list T -> nat -> (T -> T -> CMP) -> list T.
Variable o : @Optimizer.t T.
Variable clock : nat -> Z.
Variable weight : T -> nat.
Hypothesis finite : finite_expansion o weight.

#[local] Existing Instance Optimizer.partials_access.
#[local] Abbreviation total := (sum_list_with (fun x => S (weight x))).

Lemma push_all_contents (l : list T) (p : @Optimizer.Partials T) :
  container_ok p ->
  let p' := fold_left (sa_push (SequentialAccess := Optimizer.partials_access o)) l p in
  container_ok p' /\ total (contents p') <= total (contents p) + total l.
Proof.
revert p. induction l as [|x l IH]; intros p Hp; simpl; [split; [done | lia]|].
destruct p as [b|a]; simpl in *.
- destruct (IH (Optimizer.PBeam (Beam.push (Optimizer.evaluate o) b x))) as [Hok Hle].
  { by apply push_wf. }
  split; [done|]. simpl in Hle.
  pose proof (push_sum (Optimizer.evaluate o) (fun x => S (weight x)) b x Hp) as Hx.
  simpl in Hx. lia.
- destruct (IH (Optimizer.PArray (a ++ [x])) I) as [Hok Hle].
  split; [done|]. simpl in Hle. rewrite sum_list_with_app in Hle. simpl in Hle. lia.
Qed.

Lemma pop_contents (p : @Optimizer.Partials T) :
  container_ok p ->
  sa_length (SequentialAccess := Optimizer.partials_access o) p <> 0 ->
  exists c rest,
    sa_pop (SequentialAccess := Optimizer.partials_access o) p = (Some c, rest)
    /\ container_ok rest
    /\ total (contents p) = total (contents rest) + S (weight c).
Proof.
intros Hp Hlen. destruct p as [b|a]; simpl in *.
- destruct (pop_sum (Optimizer.evaluate o) (fun x => S (weight x)) b Hp Hlen)
    as (c & Hc & Hsum).
  pose proof (pop_wf (Optimizer.evaluate o) b Hp) as Hwf.
  destruct (Beam.pop (Optimizer.evaluate o) b) as [r b'] eqn:Hpop. simpl in *.
  subst r. by exists c, (Optimizer.PBeam b').
- destruct (last a) as [c|] eqn:Hl.
  + apply last_Some in Hl as [a' ->]. exists c, (Optimizer.PArray a').
    rewrite removelast_last, sum_list_with_app. simpl.
    split; [done|]. split; [done | lia].
  + apply last_None in Hl. by subst a.
Qed.

(** A step inside a turn ends the run, or leaves strictly less work, or
    finds the turn past its limit and suspends the run. *)
Lemma turn_progress (s : @Optimizer.State T) start limit :
  searching o s -> Optimizer.phase s = Optimizer.Turn start limit ->
  match Optimizer.step o clock s with
  | Optimizer.Pending s' =>
    searching o s'
    /\ ((work_left weight s' < work_left weight s
         /\ Optimizer.phase s' = Optimizer.Turn start limit)
        \/ (work_left weight s' = work_left weight s
            /\ Optimizer.phase s' = Optimizer.Idle
            /\ Qlt_bool limit (inject_Z (clock (Optimizer.ticks s))) = true))
  | Optimizer.Resolved _ _ _ => True
  | Optimizer.Rejected _ _ => False
  end.
Proof using finite.
intros (Hok & Htop & _) Hph. unfold Optimizer.step. rewrite Hph.
destruct (Optimizer.hasTop s) eqn:Hhas.
{ destruct (Htop eq_refl) as (c & Hc & Hchk). unfold Optimizer.expand. rewrite Hc.
  destruct (push_all_contents (Optimizer.extend o c) (Optimizer.partials s) Hok)
    as [Hok' Hle].
  split; [unfold searching; simpl; rewrite Hph; by repeat split|].
  left. split; [|done]. unfold work_left. simpl. rewrite Hhas, Hc.
  pose proof (finite c Hchk) as Hfin. simpl in Hle. lia. }
unfold Optimizer.iterate.
destruct (sa_length (Optimizer.partials s) =? 0) eqn:Hlen; [done|].
apply Nat.eqb_neq in Hlen.
destruct (Qlt_bool _ _) eqn:Ht.
{ destruct (_ || _); [done|].
  split; [unfold searching; simpl; rewrite Hhas; by repeat split|].
  right. unfold work_left. simpl. by rewrite Hhas. }
destruct (pop_contents (Optimizer.partials s) Hok Hlen) as (c & rest & -> & Hrest & Hsum).
destruct (Optimizer.check o c) eqn:Hchk; simpl.
- unfold Optimizer.score, Optimizer.finish.
  repeat case_match; simplify_eq; simpl; try done;
    (split; [unfold searching; simpl; rewrite Hhas, Hph; by repeat split|]);
    left; (split; [|done]); unfold work_left; simpl; rewrite Hhas, Hsum; lia.
- split; [unfold searching; simpl; rewrite Hph; repeat split; try done; by eauto|].
  left. split; [|done]. unfold work_left. simpl. rewrite Hhas, Hsum. lia.
Qed.

(** *** Under a quiet clock *)

Lemma quiet_terminates :
  quiet o clock ->
  forall m (s : @Optimizer.State T) start limit,
    searching o s -> in_first_turn o clock s ->
    Optimizer.phase s = Optimizer.Turn start limit ->
    work_left weight s < m ->
    exists n E a s', Optimizer.steps o clock n s = Optimizer.Resolved E a s'.
Proof using finite.
intros Hq m. induction m as [|m IH]; intros s start limit Hs Hin Hph Hm; [lia|].
pose proof (turn_progress s start limit Hs Hph) as Hstep.
pose proof (quiet_in_time o clock s start limit Hq Hph Hin) as Ht.
destruct (Optimizer.step o clock s) as [| s1 | E a s1] eqn:E1; [done | |].
- destruct Hstep as [Hs1 [[Hlt Hph1]|(_ & _ & Hover)]]; [|congruence].
  destruct (quiet_step_phase o clock s s1 Hq Hin E1) as [Hin1 _].
  destruct (IH s1 start limit Hs1 Hin1 Hph1 ltac:(lia)) as (n & E & a & s' & Hn).
  exists (S n), E, a, s'. simpl. by rewrite E1.
- exists 1, E, a, s1. simpl. by rewrite E1.
Qed.

(** *** Under a clock that goes on *)

Lemma clock_monotone n k :
  (forall i, (clock i <= clock (S i))%Z) -> n <= k -> (clock n <= clock k)%Z.
Proof.
intros Hmono Hnk. induction Hnk as [|k _ IH]; [lia|].
specialize (Hmono k). lia.
Qed.

Lemma live_monotone n k : live o clock -> n <= k -> (clock n <= clock k)%Z.
Proof. intros (Hmono & _). by apply clock_monotone. Qed.

(** Under a clock that never goes back the active time is never
    negative. *)
Lemma active_time_nonneg init n :
  (forall i, (clock i <= clock (S i))%Z) ->
  match Optimizer.run select o clock init n with
  | Optimizer.Pending s => (0 <= Optimizer.activeTime s)%Z
  | Optimizer.Resolved _ a _ => (0 <= a)%Z
  | Optimizer.Rejected _ _ => True
  end.
Proof.
intros Hmono. unfold Optimizer.run.
destruct (Optimizer.start select o clock init) as [| s0 |] eqn:Hstart; try done.
2:{ by apply start_not_resolved in Hstart. }
pose proof (start_pending select o clock init s0 Hstart)
  as (_ & _ & Ha0 & _ & Hph0 & _).
pose (P := fun s : @Optimizer.State T =>
  (0 <= Optimizer.activeTime s)%Z
  /\ forall start limit, Optimizer.phase s = Optimizer.Turn start limit ->
       exists j, j <= Optimizer.ticks s /\ start = clock j).
assert (Hstep : forall s, P s ->
  match Optimizer.step o clock s with
  | Optimizer.Pending s' => P s'
  | Optimizer.Resolved _ a _ => (0 <= a)%Z
  | Optimizer.Rejected _ _ => True
  end).
{ intros s [Ha Hturn].
  unfold Optimizer.step, Optimizer.iterate, Optimizer.score, Optimizer.expand,
    Optimizer.enter, Optimizer.finish.
  destruct (Optimizer.phase s) as [|start limit] eqn:Hph.
  - case_match; (split; simpl; [done|]); intros start limit [= <- <-].
    exists (Optimizer.ticks s). split; [lia | done].
  - destruct (Hturn _ _ eq_refl) as (j & Hj & ->).
    pose proof (clock_monotone j (Optimizer.ticks s) Hmono Hj) as Hle.
    repeat case_match; simplify_eq; simpl; try done; try lia;
      (split; simpl; [lia|]); rewrite ?Hph; intros start' limit' [= <- <-];
      exists j; (split; [lia | done]). }
assert (HP0 : P s0).
{ split; [lia|]. intros start limit. by rewrite Hph0. }
pose proof (steps_invariant o clock P (fun _ a _ => (0 <= a)%Z) Hstep n s0 HP0) as Hn.
destruct (Optimizer.steps o clock n s0); try done. by destruct Hn.
Qed.

(** A suspended run is resumed: some later call of [loop] opens a turn,
    with the search as it was left. *)
Lemma live_wait (s : @Optimizer.State T) :
  live o clock -> searching o s -> Optimizer.phase s = Optimizer.Idle ->
  exists k s' j,
    Optimizer.steps o clock k s = Optimizer.Pending s'
    /\ searching o s' /\ work_left weight s' = work_left weight s
    /\ Optimizer.phase s'
       = Optimizer.Turn (clock j) (inject_Z (clock j) + Optimizer.turnTime o)%Q
    /\ Optimizer.ticks s' = S j.
Proof.
intros Hlive Hs Hph.
destruct Hlive as (Hmono & Hunb & Hfine).
destruct (Hunb (Qceiling (Optimizer.nextLoopTime s))) as [N HN].
assert (Hnext : (Optimizer.nextLoopTime s <= inject_Z (clock N))%Q).
{ eapply Qle_trans; [apply Qle_ceiling|]. by rewrite <- Zle_Qle. }
clear HN.
remember (N - Optimizer.ticks s) as d eqn:Hd.
revert s Hs Hph Hnext Hd. induction d as [|d IH]; intros s Hs Hph Hnext Hd.
- (* the reading of this call is late enough *)
  assert (Hle : (clock N <= clock (Optimizer.ticks s))%Z).
  { apply live_monotone; [done | lia]. }
  exists 1, (Optimizer.enter o clock s), (Optimizer.ticks s).
  simpl. unfold Optimizer.step. rewrite Hph. unfold Optimizer.enter.
  assert (Qlt_bool (inject_Z (clock (Optimizer.ticks s))) (Optimizer.nextLoopTime s)
          = false) as ->.
  { apply Qlt_bool_false. eapply Qle_trans; [done|]. by rewrite <- Zle_Qle. }
  destruct Hs as (Hok & Htop & Hidle). specialize (Hidle Hph).
  repeat split; simpl; try done; congruence.
- destruct (Qlt_bool (inject_Z (clock (Optimizer.ticks s))) (Optimizer.nextLoopTime s))
    eqn:Hearly.
  + (* too early: the call returns at once *)
    set (s1 := Optimizer.enter o clock s).
    assert (Hs1 : s1 = Optimizer.mkState (Optimizer.partials s)
      (Optimizer.representativeBest s) (Optimizer.equivalents s)
      (Optimizer.activeTime s) (Optimizer.equivSize s) (Optimizer.nextLoopTime s)
      (Optimizer.hasTop s) (Optimizer.top s) (Optimizer.optimalTime s)
      (Optimizer.bestTime s) Optimizer.Idle (S (Optimizer.ticks s))
      (Optimizer.trace s)).
    { subst s1. unfold Optimizer.enter. by rewrite Hearly. }
    destruct (IH s1) as (k & s' & j & Hk & Hs' & Hw & Hph' & Ht').
    * rewrite Hs1. destruct Hs as (Hok & Htop & Hidle).
      repeat split; simpl; try done. intros _. by apply Hidle.
    * by rewrite Hs1.
    * by rewrite Hs1.
    * rewrite Hs1. simpl. lia.
    * exists (S k), s', j. simpl. unfold Optimizer.step. rewrite Hph. fold s1.
      split; [done|]. split; [done|]. split; [by rewrite Hw, Hs1 | done].
  + exists 1, (Optimizer.enter o clock s), (Optimizer.ticks s).
    simpl. unfold Optimizer.step. rewrite Hph. unfold Optimizer.enter. rewrite Hearly.
    destruct Hs as (Hok & Htop & Hidle). specialize (Hidle Hph).
    repeat split; simpl; try done; congruence.
Qed.

Lemma live_terminates :
  live o clock ->
  forall m (s : @Optimizer.State T),
    searching o s -> work_left weight s < m ->
    exists n E a s', Optimizer.steps o clock n s = Optimizer.Resolved E a s'.
Proof using finite.
intros Hlive m. induction m as [|m IH]; intros s Hs Hm; [lia|].
assert (Hidle : forall s0 : @Optimizer.State T,
  searching o s0 -> work_left weight s0 < S m ->
  Optimizer.phase s0 = Optimizer.Idle ->
  exists n E a s', Optimizer.steps o clock n s0 = Optimizer.Resolved E a s').
{ intros s0 Hs0 Hm0 Hph0.
  destruct (live_wait s0 Hlive Hs0 Hph0) as (k & s1 & j & Hk & Hs1 & Hw & Hph1 & Ht1).
  pose proof (turn_progress s1 _ _ Hs1 Hph1) as Hstep.
  assert (Qlt_bool (inject_Z (clock j) + Optimizer.turnTime o)%Q
            (inject_Z (clock (Optimizer.ticks s1))) = false) as Hin.
  { apply Qlt_bool_false. rewrite Ht1. by destruct Hlive as (_ & _ & Hfine). }
  destruct (Optimizer.step o clock s1) as [| s2 | E a s2] eqn:E1; [done | |].
  - destruct Hstep as [Hs2 [[Hlt _]|(_ & _ & Hover)]]; [|congruence].
    destruct (IH s2 Hs2 ltac:(lia)) as (n & E & a & s' & Hn).
    exists (k + S n), E, a, s'. rewrite steps_add, Hk. simpl. by rewrite E1.
  - exists (k + 1), E, a, s2. rewrite steps_add, Hk. simpl. by rewrite E1. }
destruct (Optimizer.phase s) as [|start limit] eqn:Hph; [by apply Hidle|].
pose proof (turn_progress s start limit Hs Hph) as Hstep.
destruct (Optimizer.step o clock s) as [| s1 | E a s1] eqn:E1; [done | |].
- destruct Hstep as [Hs1 [[Hlt _]|(Hw & Hph1 & _)]].
  + destruct (IH s1 Hs1 ltac:(lia)) as (n & E & a & s' & Hn).
    exists (S n), E, a, s'. simpl. by rewrite E1.
  + destruct (Hidle s1 Hs1 ltac:(lia) Hph1) as (n & E & a & s' & Hn).
    exists (S n), E, a, s'. simpl. by rewrite E1.
- exists 1, E, a, s1. simpl. by rewrite E1.
Qed.

(** *** Runs *)

(** With a finite expansion tree a run that starts resolves: with active
    time 0 under a quiet clock, and under every clock that goes on. *)
Lemma started_run_resolves init s0 :
  Optimizer.start select o clock init = Optimizer.Pending s0 ->
  container_ok (Optimizer.partials s0) ->
  (quiet o clock ->
   exists n E s, Optimizer.run select o clock init n = Optimizer.Resolved E 0%Z s)
  /\ (live o clock ->
      exists n E a s, Optimizer.run select o clock init n = Optimizer.Resolved E a s).
Proof using finite.
intros Hstart Hok.
pose proof (start_pending select o clock init s0 Hstart)
  as (_ & _ & _ & Htop & Hph & Htick & _ & _ & Hnext & _).
assert (Hs0 : searching o s0).
{ repeat split; try done; congruence. }
split.
- intros Hq.
  assert (Hin0 : in_first_turn o clock s0).
  { unfold in_first_turn. by rewrite Hph. }
  pose proof (quiet_enter o clock s0 Hq Hph Hin0) as Henter.
  set (s1 := Optimizer.enter o clock s0) in *.
  assert (Hs1 : searching o s1).
  { rewrite Henter. repeat split; simpl; try done; congruence. }
  assert (Hin1 : in_first_turn o clock s1) by (by rewrite Henter).
  assert (Hph1 : Optimizer.phase s1
     = Optimizer.Turn (clock 1) (inject_Z (clock 1) + Optimizer.turnTime o)%Q)
    by (by rewrite Henter).
  destruct (quiet_terminates Hq _ s1 _ _ Hs1 Hin1 Hph1 (Nat.lt_succ_diag_r _))
    as (n & E & a & s' & Hn).
  exists (S n), E, s'.
  pose proof (quiet_active_time select o clock Hq init (S n)) as Ha.
  unfold Optimizer.run in *. rewrite Hstart in *. simpl in *.
  unfold Optimizer.step in *. rewrite Hph in *. fold s1 in Ha |- *.
  rewrite Hn in *. by subst a.
- intros Hlive.
  destruct (live_terminates Hlive _ s0 Hs0 (Nat.lt_succ_diag_r _))
    as (n & E & a & s' & Hn).
  exists n, E, a, s'. unfold Optimizer.run. by rewrite Hstart.
Qed.

Lemma start_container init s0 :
  (forall l k c, length (select l k c) = length l) ->
  Optimizer.start select o clock init = Optimizer.Pending s0 ->
  container_ok (Optimizer.partials s0).
Proof.
intros Hsel. unfold Optimizer.start.
repeat case_match; intros [= <-]; simpl; try done; by apply new_wf.
Qed.


End Termination.


(** ** Runs in which no complete state beats the seed *)

Lemma seed_never_beaten {T : Type} `{EqDecision T}
    (select : list T -> nat -> (T -> T -> CMP) -> list T) (o : @Optimizer.t T)
    (clock : nat -> Z) (init : list T) (s0 : @Optimizer.State T) (n : nat) :
  Optimizer.start select o clock init = Optimizer.Pending s0 ->
  (forall c, Optimizer.check o c = true ->
     (0 < Optimizer.evaluate o c (Optimizer.representativeBest s0))%Z) ->
  match Optimizer.run select o clock init n with
  | Optimizer.Pending s =>
    Optimizer.equivalents s = []
    /\ Optimizer.representativeBest s = Optimizer.representativeBest s0
  | Optimizer.Resolved E _ _ => E = []
  | Optimizer.Rejected _ _ => False
  end.
Proof.
intros Hstart Hworse. unfold Optimizer.run. rewrite Hstart.
set (P := fun s : @Optimizer.State T =>
  Optimizer.equivalents s = []
  /\ Optimizer.representativeBest s = Optimizer.representativeBest s0).
set (Q := fun (E : list T) (_ : Z) (_ : @Optimizer.State T) => E = []).
assert (Hstep : forall s, P s ->
  match Optimizer.step o clock s with
  | Optimizer.Pending s' => P s'
  | Optimizer.Resolved E a s' => Q E a s'
  | Optimizer.Rejected _ _ => True
  end).
{ intros s [HE Hrb].
  unfold Optimizer.step, Optimizer.iterate, Optimizer.expand, Optimizer.enter,
    Optimizer.finish.
  repeat case_match; try done; simplify_eq; try done.
  all: match goal with
       | H : Optimizer.score _ ?c _ _ = _ |- _ =>
         revert H; unfold Optimizer.score, Optimizer.finish;
         assert (0 < Optimizer.evaluate o c (Optimizer.representativeBest s))%Z
           by (rewrite Hrb; apply Hworse; by destruct (Optimizer.check o c));
         assert ((Optimizer.evaluate o c (Optimizer.representativeBest s) <? 0)%Z = false)
           as -> by (apply Z.ltb_ge; lia);
         assert ((Optimizer.evaluate o c (Optimizer.representativeBest s) =? 0)%Z = false)
           as -> by (apply Z.eqb_neq; lia);
         simpl; by intros [= <-]
       end. }
assert (P s0) as H0 by (by apply start_pending in Hstart as (? & _)).
pose proof (steps_invariant o clock P Q Hstep n s0 H0) as Hn.
destruct (Optimizer.steps o clock n s0) eqn:Hsteps; try done.
by apply steps_not_rejected in Hsteps.
Qed.

(** C7.  [run] fails exactly when the initial states are empty, and it
    fails in the executor of the promise, which runs during the call of
    [run]: the promise is rejected with "Missing Initial States" before the
    timer is installed and before anything is popped, expanded or scored
    (the trace of the rejection is empty), and no number of steps changes
    that; with initial states the executor installs the timer and the
    promise is never rejected. *)
Theorem run_rejects_iff_empty {T : Type} `{EqDecision T}
    (select : list T -> nat -> (T -> T -> CMP) -> list T)
    (extend : T -> list T) (check : T -> bool) (evaluate : T -> T -> Z)
    (options : OptimizerOptions.t T) (clock : nat -> Z) (init : list T) :
  (forall l k c, length (select l k c) = length l) ->
  let o := Optimizer.new extend check evaluate options in
  ((exists err tr, Optimizer.start select o clock init = Optimizer.Rejected err tr)
   <-> init = [])
  /\ (init = [] ->
      forall n, Optimizer.run select o clock init n
                = Optimizer.Rejected "Missing Initial States" [])
  /\ (init <> [] ->
      (exists s, Optimizer.start select o clock init = Optimizer.Pending s
                 /\ Optimizer.trace s = [Optimizer.SetInterval])
      /\ forall n err tr, Optimizer.run select o clock init n
                          <> Optimizer.Rejected err tr).
Proof.
intros Hsel o.
assert (Hlim : Optimizer.beamLimit o <> Finite 0).
{ subst o. unfold Optimizer.new. simpl.
  destruct (Number (OptimizerOptions.beamLimit options)) as [z| | |]; try done.
  destruct (0 <? z)%Z eqn:Hz; [|done]. apply Z.ltb_lt in Hz.
  intros [= Hk]. lia. }
assert (Hne : init <> [] ->
  exists s, Optimizer.start select o clock init = Optimizer.Pending s
            /\ Optimizer.trace s = [Optimizer.SetInterval]).
{ intros Hi. destruct (start_nonempty select o clock init Hsel Hlim Hi) as [s Hs].
  exists s. split; [done|].
  by apply start_pending in Hs as (_ & _ & _ & _ & _ & _ & Htr & _). }
split; [split|split].
- intros (err & tr & Hrej). destruct init as [|x init]; [done|].
  destruct (Hne ltac:(done)) as (s & Hs & _). congruence.
- intros ->. eexists _, _. apply start_empty.
- intros -> n. unfold Optimizer.run. by rewrite start_empty.
- intros Hi. split; [by apply Hne|].
  intros n err tr. destruct (Hne Hi) as (s & Hs & _).
  unfold Optimizer.run. rewrite Hs. apply steps_not_rejected.
Qed.

(** ** What the constructor guarantees, and the pace of the turns *)

Section Configuration.
Context {T : Type} `{EqDecision T}.
Variables (extend : T -> list T) (check : T -> bool) (evaluate : T -> T -> Z).


End Configuration.

Section Scheduling.
Context {T : Type} `{EqDecision T}.
Variable o : @Optimizer.t T.
Variable clock : nat -> Z.

(** X9.  The pace of the turns.  A call of [loop] that comes before
    [nextLoopTime] returns at once: it reads the clock and changes nothing
    else.  A call that comes at [nextLoopTime] or later opens a turn that
    ends [turnTime] after the reading [start], and moves [nextLoopTime]
    forward by a whole number of turn intervals, to the first of these
    moments that is not before [start]: it ends up at [start] or later, and
    less than one turn interval later. *)
Theorem turn_scheduling (s : @Optimizer.State T) :
  (0 < Optimizer.turnInterval o)%Q ->
  Optimizer.phase s = Optimizer.Idle ->
  let start := clock (Optimizer.ticks s) in
  ((inject_Z start < Optimizer.nextLoopTime s)%Q ->
   Optimizer.step o clock s
   = Optimizer.Pending
       (Optimizer.mkState (Optimizer.partials s) (Optimizer.representativeBest s)
          (Optimizer.equivalents s) (Optimizer.activeTime s) (Optimizer.equivSize s)
          (Optimizer.nextLoopTime s) (Optimizer.hasTop s) (Optimizer.top s)
          (Optimizer.optimalTime s) (Optimizer.bestTime s) Optimizer.Idle
          (S (Optimizer.ticks s)) (Optimizer.trace s)))
  /\ ((Optimizer.nextLoopTime s <= inject_Z start)%Q ->
      exists s' n,
        Optimizer.step o clock s = Optimizer.Pending s'
        /\ Optimizer.phase s'
           = Optimizer.Turn start (inject_Z start + Optimizer.turnTime o)%Q
        /\ (0 <= n)%Z
        /\ Optimizer.nextLoopTime s'
           = (Optimizer.nextLoopTime s + inject_Z n * Optimizer.turnInterval o)%Q
        /\ (inject_Z start <= Optimizer.nextLoopTime s')%Q
        /\ (Optimizer.nextLoopTime s' < inject_Z start + Optimizer.turnInterval o)%Q
        /\ Optimizer.partials s' = Optimizer.partials s
        /\ Optimizer.trace s' = Optimizer.trace s).
Proof.
intros Hint Hph start. unfold Optimizer.step. rewrite Hph. unfold Optimizer.enter.
fold start. split.
- intros Hearly. by rewrite (proj2 (Qlt_bool_iff _ _) Hearly).
- intros Hdue. rewrite (proj2 (Qlt_bool_false _ _) Hdue).
  set (d := (inject_Z start - Optimizer.nextLoopTime s)%Q).
  set (i := Optimizer.turnInterval o) in *.
  assert (Hd : (0 <= d)%Q) by (unfold d; lra).
  assert (Hi : ~ (i == 0)%Q) by lra.
  assert (Hq : (d / i * i == d)%Q).
  { unfold Qdiv. rewrite <- Qmult_assoc, (Qmult_comm (/ i)), Qmult_inv_r by done. lra. }
  assert (Hq0 : (0 <= d / i)%Q).
  { apply Qle_shift_div_l; [done|]. lra. }
  pose proof (Qle_ceiling (d / i)) as Hup.
  pose proof (Qceiling_lt (d / i)) as Hlow.
  set (n := Qceiling (d / i)) in *.
  assert (Hn : (0 <= n)%Z).
  { subst n. rewrite <- (Qceiling_Z 0). by apply Qceiling_resp_le. }
  eexists _, n. split; [reflexivity|]. simpl. split; [done|]. split; [done|].
  split; [done|].
  assert (Hup' : (d <= inject_Z n * i)%Q).
  { rewrite <- Hq. apply Qmult_le_compat_r; [exact Hup | lra]. }
  assert (Hlow' : (inject_Z n * i < d + i)%Q).
  { unfold Z.sub in Hlow. rewrite inject_Z_plus in Hlow.
    change (inject_Z (-1)) with (-1 # 1)%Q in Hlow.
    assert ((inject_Z n + (-1 # 1)) * i < d / i * i)%Q as Hm
      by (apply Qmult_lt_compat_r; [done | exact Hlow]).
    rewrite Hq in Hm. lra. }
  unfold d in *. repeat split; lra.
Qed.

End Scheduling.

(** ** The limits of a run *)

Section Limits.
Context {T : Type} `{EqDecision T}.
Variable select : list T -> nat -> (T -> T -> CMP) -> list T.
Variable o : @Optimizer.t T.
Variable clock : nat -> Z.

#[local] Existing Instance Optimizer.partials_access.

Lemma logged_reason (tr : list (@Optimizer.Event T)) msg m a bt :
  (forall m', Optimizer.Console m' ∉ tr) ->
  Optimizer.Console m ∈ tr ++
    [Optimizer.Console msg; Optimizer.Console (Optimizer.Summary a bt);
     Optimizer.ClearInterval] ->
  m = msg \/ m = Optimizer.Summary a bt.
Proof.
intros Hno Hm. apply elem_of_app in Hm as [Hm|Hm]; [by apply Hno in Hm|].
apply elem_of_cons in Hm as [[= ->]|Hm]; [by left|].
apply elem_of_cons in Hm as [[= ->]|Hm]; [by right|].
by apply list_elem_of_singleton in Hm.
Qed.

Lemma not_logged (tr l : list (@Optimizer.Event T)) :
  (forall m, Optimizer.Console m ∉ tr) -> Forall search_event l ->
  forall m, Optimizer.Console m ∉ tr ++ l.
Proof.
intros Hno Hl m Hm. apply elem_of_app in Hm as [Hm|Hm]; [by apply Hno in Hm|].
rewrite Forall_forall in Hl. by apply Hl in Hm.
Qed.

Lemma finish_truthful msg (s : @Optimizer.State T) :
  (forall m, Optimizer.Console m ∉ Optimizer.trace s) ->
  (msg = Optimizer.TimeLimits ->
   num_ge (inject_Z (Optimizer.activeTime s)) (Optimizer.totalTime o)
   || num_ge (inject_Z (Optimizer.activeTime s)) (Optimizer.optimalTime s) = true) ->
  (msg = Optimizer.SolutionCount ->
   num_gt (inject_Z (Z.of_nat (Optimizer.equivSize s))) (Optimizer.equivBailLimit o)
   = true) ->
  (msg = Optimizer.FoundOptimal ->
   exists f c, Optimizer.isOptimal o = Some f /\ f c = true
               /\ Optimizer.equivalents s = [c]) ->
  match Optimizer.finish msg s with
  | Optimizer.Resolved E a s' => truthful o E a s'
  | _ => False
  end.
Proof.
intros Hno Ht Hs Hf. unfold Optimizer.finish, truthful. simpl.
repeat split; intros Hm; apply (logged_reason _ _ _ _ _ Hno) in Hm as [<-|Hm];
  try done; auto.
Qed.

Lemma step_limits (s : @Optimizer.State T) :
  within_limits o s ->
  match Optimizer.step o clock s with
  | Optimizer.Pending s' => within_limits o s'
  | Optimizer.Resolved E a s' => truthful o E a s'
  | Optimizer.Rejected _ _ => True
  end.
Proof.
intros (Hno & Ha & Hb). unfold Optimizer.step.
destruct (Optimizer.phase s) as [|start limit] eqn:Hph.
{ unfold Optimizer.enter. by case_match. }
destruct (Optimizer.hasTop s) eqn:Hhas.
{ unfold Optimizer.expand. case_match; (split; [|done]); simpl; [|done].
  apply not_logged; [done|]. by repeat constructor. }
unfold Optimizer.iterate.
destruct (sa_length (Optimizer.partials s) =? 0).
{ by apply finish_truthful. }
destruct (Qlt_bool _ _).
{ destruct (_ || _) eqn:Hover.
  - by apply finish_truthful.
  - apply orb_false_iff in Hover as [Hover _]. by split. }
destruct (sa_pop (Optimizer.partials s)) as [[c|] rest]; [|by apply finish_truthful].
assert (Hno1 : forall m, Optimizer.Console m ∉ Optimizer.trace s ++ [Optimizer.Popped c]).
{ apply not_logged; [done|]. by repeat constructor. }
assert (Hno2 : forall z m, Optimizer.Console m ∉ Optimizer.trace s ++
  [Optimizer.Popped c; Optimizer.Scored c (Optimizer.representativeBest s) z]).
{ intros z. apply not_logged; [done|]. by repeat constructor. }
destruct (Optimizer.check o c); simpl; [|split; [apply Hno1 | by split]].
unfold Optimizer.score. cbv zeta.
destruct (Optimizer.evaluate o c (Optimizer.representativeBest s) <? 0)%Z.
{ destruct (Optimizer.isOptimal o) as [f|] eqn:Hf;
    [|split; [apply Hno2 | by split]].
  destruct (f c) eqn:Hfc; [|split; [apply Hno2 | by split]].
  apply finish_truthful; try done; [apply Hno2|]. intros _. by exists f, c. }
destruct (_ && _); [|split; [apply Hno2 | by split]].
clear Hb.
match goal with |- context [if ?b then _ else _] => destruct b eqn:Hgt end.
- apply finish_truthful; try done. apply Hno2.
- split; [apply Hno2|]. split; [done|]. by right.
Qed.

Lemma run_limits init n :
  num_ge 0%Q (Optimizer.totalTime o) = false ->
  match Optimizer.run select o clock init n with
  | Optimizer.Pending s => within_limits o s
  | Optimizer.Resolved E a s => truthful o E a s
  | Optimizer.Rejected _ _ => True
  end.
Proof.
intros Htotal. unfold Optimizer.run.
destruct (Optimizer.start select o clock init) as [err tr| s0 |] eqn:Hstart; [done | |].
2:{ by apply start_not_resolved in Hstart. }
pose proof (start_pending select o clock init s0 Hstart)
  as (_ & Hsz & Ha & _ & _ & _ & Htr & _).
assert (H0 : within_limits o s0).
{ split; [|split].
  - rewrite Htr. intros m Hm. by apply list_elem_of_singleton in Hm.
  - by rewrite Ha.
  - by left. }
pose proof (steps_invariant o clock (within_limits o) _ step_limits n s0 H0) as Hn.
destruct (Optimizer.steps o clock n s0) eqn:Hsteps; try done.
Qed.

(** *** The container *)

Lemma push_all_configured (l : list T) (p : @Optimizer.Partials T) :
  configured o p ->
  configured o (fold_left (sa_push (SequentialAccess := Optimizer.partials_access o)) l p).
Proof.
revert p. induction l as [|x l IH]; intros p Hp; simpl; [done|].
apply IH. destruct p as [b|a]; simpl in *; [|done].
destruct Hp as (Hmode & Hwf & Hlim). split; [done|].
split; [by apply push_wf | by rewrite push_limit].
Qed.

Lemma pop_configured (p rest : @Optimizer.Partials T) r :
  configured o p ->
  sa_pop (SequentialAccess := Optimizer.partials_access o) p = (r, rest) ->
  configured o rest /\ (waiting o p <> 0 -> r <> None).
Proof.
unfold waiting. destruct p as [b|a]; simpl.
- intros (Hmode & Hwf & Hlim) Hpop.
  pose proof (pop_wf (Optimizer.evaluate o) b Hwf) as Hwf'.
  pose proof (pop_limit (Optimizer.evaluate o) b) as Hlim'.
  pose proof (pop_some (Optimizer.evaluate o) b Hwf) as Hsome.
  destruct (Beam.pop (Optimizer.evaluate o) b) as [r' b']. simplify_eq.
  simpl in *. split; [split; [done|split; [done|congruence]]|].
  intros H0. destruct (Hsome H0) as [x ->]. done.
- intros Hmode [= <- <-]. split; [done|].
  intros H0 Hl. apply last_None in Hl. by subst a.
Qed.

#[local] Abbreviation resolved_container := (fun (E : list T) (a : Z) (s : @Optimizer.State T) =>
  configured o (Optimizer.partials s)
  /\ (Optimizer.Console Optimizer.Exhausted ∈ Optimizer.trace s ->
      waiting o (Optimizer.partials s) = 0)).

Lemma finish_container msg (s : @Optimizer.State T) :
  (forall m, Optimizer.Console m ∉ Optimizer.trace s) ->
  configured o (Optimizer.partials s) ->
  (msg = Optimizer.Exhausted -> waiting o (Optimizer.partials s) = 0) ->
  match Optimizer.finish msg s with
  | Optimizer.Resolved E a s' => resolved_container E a s'
  | _ => False
  end.
Proof.
intros Hno Hc He. unfold Optimizer.finish. simpl. split; [done|].
intros Hm. apply (logged_reason _ _ _ _ _ Hno) in Hm as [<-|Hm]; [auto | done].
Qed.

Lemma step_container (s : @Optimizer.State T) :
  (forall m, Optimizer.Console m ∉ Optimizer.trace s)
  /\ configured o (Optimizer.partials s) ->
  match Optimizer.step o clock s with
  | Optimizer.Pending s' =>
    (forall m, Optimizer.Console m ∉ Optimizer.trace s')
    /\ configured o (Optimizer.partials s')
  | Optimizer.Resolved E a s' => resolved_container E a s'
  | Optimizer.Rejected _ _ => True
  end.
Proof.
intros (Hno & Hc). unfold Optimizer.step.
destruct (Optimizer.phase s) as [|start limit] eqn:Hph.
{ unfold Optimizer.enter. by case_match. }
destruct (Optimizer.hasTop s) eqn:Hhas.
{ unfold Optimizer.expand. case_match; simpl; [|done]. split.
  - apply not_logged; [done|]. by repeat constructor.
  - by apply push_all_configured. }
unfold Optimizer.iterate.
destruct (sa_length (Optimizer.partials s) =? 0) eqn:Hlen.
{ apply finish_container; try done. intros _. by apply Nat.eqb_eq in Hlen. }
apply Nat.eqb_neq in Hlen.
destruct (Qlt_bool _ _).
{ destruct (_ || _); [by apply finish_container | done]. }
destruct (sa_pop (Optimizer.partials s)) as [r rest] eqn:Hpop.
destruct (pop_configured _ _ _ Hc Hpop) as [Hrest Hsome].
destruct r as [c|]; [|by destruct (Hsome Hlen)].
assert (Hno1 : forall m, Optimizer.Console m ∉ Optimizer.trace s ++ [Optimizer.Popped c]).
{ apply not_logged; [done|]. by repeat constructor. }
assert (Hno2 : forall z m, Optimizer.Console m ∉ Optimizer.trace s ++
  [Optimizer.Popped c; Optimizer.Scored c (Optimizer.representativeBest s) z]).
{ intros z. apply not_logged; [done|]. by repeat constructor. }
destruct (Optimizer.check o c); simpl; [|split; [apply Hno1 | done]].
unfold Optimizer.score. cbv zeta.
destruct (Optimizer.evaluate o c (Optimizer.representativeBest s) <? 0)%Z.
{ destruct (match Optimizer.isOptimal o with Some f => f c | None => false end).
  - apply finish_container; try done. apply Hno2.
  - split; [apply Hno2 | done]. }
destruct (_ && _); [|split; [apply Hno2 | done]].
match goal with |- context [if ?b then _ else _] => destruct b end.
- apply finish_container; try done. apply Hno2.
- split; [apply Hno2 | done].
Qed.

Lemma run_container init n :
  (forall l k c, length (select l k c) = length l) ->
  match Optimizer.run select o clock init n with
  | Optimizer.Pending s =>
    (forall m, Optimizer.Console m ∉ Optimizer.trace s)
    /\ configured o (Optimizer.partials s)
  | Optimizer.Resolved E a s => resolved_container E a s
  | Optimizer.Rejected _ _ => True
  end.
Proof.
intros Hsel. unfold Optimizer.run.
destruct (Optimizer.start select o clock init) as [err tr| s0 |] eqn:Hstart; [done | |].
2:{ by apply start_not_resolved in Hstart. }
pose proof (start_pending select o clock init s0 Hstart)
  as (_ & _ & _ & _ & _ & _ & Htr & _).
assert (H0 : (forall m, Optimizer.Console m ∉ Optimizer.trace s0)
             /\ configured o (Optimizer.partials s0)).
{ split.
  - rewrite Htr. intros m Hm. by apply list_elem_of_singleton in Hm.
  - revert Hstart. unfold Optimizer.start.
    destruct (Optimizer.isOptimal o) as [f|] eqn:Hf;
      [|destruct (Optimizer.beamLimit o) as [k|] eqn:Hk];
      repeat case_match; intros [= <-]; simpl; try done;
      (split; [intros [? ?]; congruence|]); (split; [by apply new_wf|]);
      unfold Beam.new;
      match goal with |- Beam.limit (Beam.trickleFrom _ ?i ?x) = _ =>
        destruct (trickleFrom_shape (Optimizer.evaluate o) i x) as (_ & -> & _) end;
      simpl; repeat case_match; simpl; congruence. }
pose proof (steps_invariant o clock _ _ step_container n s0 H0) as Hn.
destruct (Optimizer.steps o clock n s0) eqn:Hsteps; try done.
Qed.

(** X13.  A run ends for the reason it logs.  "Terminating optimization due
    to time limits" is logged only with the active time at or above the
    total time or the adaptive deadline; "Terminating optimization based on
    solution count" only with more ties counted than [equivBailLimit];
    "Found optimal solution early" only if the oracle accepted the state
    the run resolves with, alone in its set; and, [select] keeping the
    length of the array, "Exhausted search space" only with an empty
    container. *)
Theorem logged_reason_holds init n E a s :
  (forall l k c, length (select l k c) = length l) ->
  num_ge 0%Q (Optimizer.totalTime o) = false ->
  Optimizer.run select o clock init n = Optimizer.Resolved E a s ->
  truthful o E a s
  /\ (Optimizer.Console Optimizer.Exhausted ∈ Optimizer.trace s ->
      waiting o (Optimizer.partials s) = 0).
Proof.
intros Hsel Htotal Hrun.
pose proof (run_limits init n Htotal) as H1.
pose proof (run_container init n Hsel) as H2.
rewrite Hrun in H1, H2. split; [done | by destruct H2].
Qed.

(** X14.  While a run is pending it is within its limits: with a total time
    that is positive or unbounded, as the constructor leaves it, the active
    time stays below the total time (the run ends in the turn that reaches
    it); and the ties counted, once there are any, do not exceed
    [equivBailLimit] (the run ends with the tie that does). *)
Theorem pending_within_limits init n s :
  num_ge 0%Q (Optimizer.totalTime o) = false ->
  Optimizer.run select o clock init n = Optimizer.Pending s ->
  num_ge (inject_Z (Optimizer.activeTime s)) (Optimizer.totalTime o) = false
  /\ (Optimizer.equivSize s = 0
      \/ num_gt (inject_Z (Z.of_nat (Optimizer.equivSize s))) (Optimizer.equivBailLimit o)
         = false).
Proof.
intros Htotal Hrun. pose proof (run_limits init n Htotal) as H.
rewrite Hrun in H. by destruct H as (_ & ? & ?).
Qed.


(** X17.  Under a clock that never goes back the two times of the summary
    are in order: the time by which the best solution was found is not
    negative and not above the active time, while the run is pending and
    when it resolves. *)
Theorem times_ordered init n :
  (forall i, (clock i <= clock (S i))%Z) ->
  match Optimizer.run select o clock init n with
  | Optimizer.Pending s =>
    (0 <= Optimizer.bestTime s <= Optimizer.activeTime s)%Z
  | Optimizer.Resolved _ a s => (0 <= Optimizer.bestTime s <= a)%Z
  | Optimizer.Rejected _ _ => True
  end.
Proof.
intros Hmono. unfold Optimizer.run.
destruct (Optimizer.start select o clock init) as [err tr| s0 |] eqn:Hstart; [done | |].
2:{ by apply start_not_resolved in Hstart. }
pose (P := fun s : @Optimizer.State T =>
  (0 <= Optimizer.bestTime s <= Optimizer.activeTime s)%Z
  /\ forall start limit, Optimizer.phase s = Optimizer.Turn start limit ->
       exists j, j <= Optimizer.ticks s /\ start = clock j).
assert (Hstep : forall s, P s ->
  match Optimizer.step o clock s with
  | Optimizer.Pending s' => P s'
  | Optimizer.Resolved _ a s' => (0 <= Optimizer.bestTime s' <= a)%Z
  | Optimizer.Rejected _ _ => True
  end).
{ intros s [Ha Hturn].
  unfold Optimizer.step, Optimizer.iterate, Optimizer.score, Optimizer.expand,
    Optimizer.enter, Optimizer.finish.
  destruct (Optimizer.phase s) as [|start limit] eqn:Hph.
  - case_match; (split; simpl; [done|]); intros start limit [= <- <-].
    exists (Optimizer.ticks s). split; [lia | done].
  - destruct (Hturn _ _ eq_refl) as (j & Hj & ->).
    pose proof (clock_monotone clock j (Optimizer.ticks s) Hmono Hj) as Hle.
    repeat case_match; simplify_eq; simpl; try done; try lia;
      (split; simpl; [lia|]); rewrite ?Hph; intros start' limit' [= <- <-];
      exists j; (split; [lia | done]). }
assert (HP0 : P s0).
{ revert Hstart. unfold Optimizer.start. repeat case_match; intros [= <-]; simpl;
    try done; (split; [simpl; lia | done]). }
pose proof (steps_invariant o clock P _ Hstep n s0 HP0) as Hn.
destruct (Optimizer.steps o clock n s0); try done. by destruct Hn.
Qed.

End Limits.

(** ** The discipline of the search *)

Section SearchDiscipline.
Context {T : Type} `{EqDecision T}.
Variable select : list T -> nat -> (T -> T -> CMP) -> list T.
Variable o : @Optimizer.t T.
Variable clock : nat -> Z.

#[local] Existing Instance Optimizer.partials_access.

Lemma running_trace_app (tr l : list (@Optimizer.Event T)) :
  running_trace tr -> Forall search_event l -> running_trace (tr ++ l).
Proof.
intros (tl & -> & Htl) Hl. exists (tl ++ l). split; [done|]. by apply Forall_app.
Qed.

(** Splits what is known of an event in a trace that was appended to, and
    finds the event of the goal there. *)
Ltac mem :=
  repeat match goal with
  | H : _ ∈ _ ++ _ |- _ => apply elem_of_app in H as [H|H]
  | H : _ ∈ _ :: _ |- _ => apply elem_of_cons in H as [H|H]
  | H : _ ∈ [] |- _ => by apply elem_of_nil in H
  end;
  simplify_eq; rewrite ?elem_of_app, ?elem_of_cons; eauto 8.

Lemma handled_popped (tr : list (@Optimizer.Event T)) c :
  handled o tr None -> Optimizer.check o c = false ->
  handled o (tr ++ [Optimizer.Popped c]) (Some c).
Proof.
intros (He & Hs & Hp) Hc. split; [|split].
- intros c' Hin. apply elem_of_app in Hin as [Hin|Hin]; [|mem].
  destruct (He c' Hin). mem.
- intros c' b z Hin. apply elem_of_app in Hin as [Hin|Hin]; [|mem].
  destruct (Hs c' b z Hin) as (? & ? & ?). mem.
- intros c' Hin. apply elem_of_app in Hin as [Hin|Hin].
  + specialize (Hp c' Hin). destruct (Optimizer.check o c').
    * destruct Hp as [b Hb]. exists b. mem.
    * destruct Hp as [Hp|Hp]; [mem | done].
  + apply list_elem_of_singleton in Hin. injection Hin as ->. rewrite Hc. by right.
Qed.

Lemma handled_extended (tr : list (@Optimizer.Event T)) c :
  handled o tr (Some c) -> Optimizer.check o c = false ->
  Optimizer.Popped c ∈ tr ->
  handled o (tr ++ [Optimizer.Extended c]) None.
Proof.
intros (He & Hs & Hp) Hc Hin0. split; [|split].
- intros c' Hin. apply elem_of_app in Hin as [Hin|Hin].
  + destruct (He c' Hin). mem.
  + apply list_elem_of_singleton in Hin. injection Hin as ->. mem.
- intros c' b z Hin. apply elem_of_app in Hin as [Hin|Hin]; [|mem].
  destruct (Hs c' b z Hin) as (? & ? & ?). mem.
- intros c' Hin. apply elem_of_app in Hin as [Hin|Hin]; [|mem].
  specialize (Hp c' Hin). destruct (Optimizer.check o c').
  + destruct Hp as [b Hb]. exists b. mem.
  + left. destruct Hp as [Hp|[= ->]]; mem.
Qed.

Lemma handled_scored (tr : list (@Optimizer.Event T)) c b :
  handled o tr None -> Optimizer.check o c = true ->
  handled o (tr ++ [Optimizer.Popped c;
                    Optimizer.Scored c b (Optimizer.evaluate o c b)]) None.
Proof.
intros (He & Hs & Hp) Hc. split; [|split].
- intros c' Hin. apply elem_of_app in Hin as [Hin|Hin]; [|mem].
  destruct (He c' Hin). mem.
- intros c' b' z Hin. apply elem_of_app in Hin as [Hin|Hin].
  + destruct (Hs c' b' z Hin) as (? & ? & ?). mem.
  + apply elem_of_cons in Hin as [Hin|Hin]; [done|].
    apply list_elem_of_singleton in Hin. injection Hin as -> -> ->. mem.
- intros c' Hin. apply elem_of_app in Hin as [Hin|Hin].
  + specialize (Hp c' Hin). destruct (Optimizer.check o c').
    * destruct Hp as [b' Hb]. exists b'. mem.
    * destruct Hp as [Hp|Hp]; [mem | done].
  + apply elem_of_cons in Hin as [Hin|Hin]; [|mem].
    injection Hin as ->. rewrite Hc. exists b. mem.
Qed.

Lemma handled_logged (tr : list (@Optimizer.Event T)) msg a bt :
  handled o tr None ->
  handled o (tr ++ [Optimizer.Console msg; Optimizer.Console (Optimizer.Summary a bt);
                    Optimizer.ClearInterval]) None.
Proof.
intros (He & Hs & Hp). split; [|split].
- intros c' Hin. apply elem_of_app in Hin as [Hin|Hin]; [|mem].
  destruct (He c' Hin). mem.
- intros c' b' z Hin. apply elem_of_app in Hin as [Hin|Hin]; [|mem].
  destruct (Hs c' b' z Hin) as (? & ? & ?). mem.
- intros c' Hin. apply elem_of_app in Hin as [Hin|Hin]; [|mem].
  specialize (Hp c' Hin). destruct (Optimizer.check o c').
  + destruct Hp as [b' Hb]. exists b'. mem.
  + destruct Hp as [Hp|Hp]; [mem | done].
Qed.

(** What a resolved run leaves: the trace of the search, then the two log
    lines and the clearing of the timer. *)
#[local] Abbreviation resolved_trace := (fun (E : list T) (a : Z) (s : @Optimizer.State T) =>
  exists tr msg bt,
    Optimizer.trace s
    = tr ++ [Optimizer.Console msg; Optimizer.Console (Optimizer.Summary a bt);
             Optimizer.ClearInterval]
    /\ running_trace tr /\ handled o tr None
    /\ E = Optimizer.equivalents s /\ a = Optimizer.activeTime s).

Lemma finish_trace_ok msg (s : @Optimizer.State T) :
  trace_ok o s -> Optimizer.hasTop s = false ->
  match Optimizer.finish msg s with
  | Optimizer.Resolved E a s' => resolved_trace E a s'
  | _ => False
  end.
Proof.
intros (Hrun & Hh & _) Htop. unfold Optimizer.finish.
exists (Optimizer.trace s), msg, (Optimizer.bestTime s). simpl.
unfold pending_top in Hh. rewrite Htop in Hh.
split; [done|]. split; [done|]. split; [done|]. by split.
Qed.

Lemma trace_ok_no_top (s : @Optimizer.State T) :
  running_trace (Optimizer.trace s) -> handled o (Optimizer.trace s) None ->
  Optimizer.hasTop s = false -> trace_ok o s.
Proof.
intros Hrun Hh Htop. unfold trace_ok, pending_top. rewrite Htop.
split; [done|]. split; [done|]. done.
Qed.

Lemma step_trace_ok (s : @Optimizer.State T) :
  trace_ok o s ->
  match Optimizer.step o clock s with
  | Optimizer.Pending s' => trace_ok o s'
  | Optimizer.Resolved E a s' => resolved_trace E a s'
  | Optimizer.Rejected _ _ => True
  end.
Proof.
intros Hok. pose proof Hok as (Hrun & Hh & Htop).
unfold Optimizer.step.
destruct (Optimizer.phase s) as [|start limit] eqn:Hph.
{ unfold Optimizer.enter. by case_match. }
destruct (Optimizer.hasTop s) eqn:Hhas.
{ destruct (Htop eq_refl) as (c & Hc & Hchk & Hin).
  unfold Optimizer.expand. rewrite Hc. unfold pending_top in Hh.
  rewrite Hhas, Hc in Hh. apply trace_ok_no_top; simpl; [| |done].
  - apply running_trace_app; [done|]. by repeat constructor.
  - by apply handled_extended. }
unfold pending_top in Hh. rewrite Hhas in Hh.
unfold Optimizer.iterate.
destruct (sa_length (Optimizer.partials s) =? 0).
{ by apply finish_trace_ok. }
destruct (Qlt_bool _ _).
{ destruct (_ || _).
  - apply finish_trace_ok; [|done]. by apply trace_ok_no_top.
  - by apply trace_ok_no_top. }
destruct (sa_pop (Optimizer.partials s)) as [[c|] rest]; [|by apply finish_trace_ok].
destruct (Optimizer.check o c) eqn:Hchk; simpl.
- assert (Hr' : running_trace (Optimizer.trace s ++
      [Optimizer.Popped c;
       Optimizer.Scored c (Optimizer.representativeBest s)
         (Optimizer.evaluate o c (Optimizer.representativeBest s))])).
  { apply running_trace_app; [done|]. by repeat constructor. }
  pose proof (handled_scored (Optimizer.trace s) c (Optimizer.representativeBest s)
                Hh Hchk) as Hh'.
  unfold Optimizer.score. cbv zeta.
  destruct (Optimizer.evaluate o c (Optimizer.representativeBest s) <? 0)%Z.
  { destruct (match Optimizer.isOptimal o with Some f => f c | None => false end).
    - apply finish_trace_ok; [|done]. by apply trace_ok_no_top.
    - by apply trace_ok_no_top. }
  destruct (_ && _).
  { destruct (num_gt _ _).
    - apply finish_trace_ok; [|done]. by apply trace_ok_no_top.
    - by apply trace_ok_no_top. }
  by apply trace_ok_no_top.
- unfold trace_ok, pending_top. simpl. split; [|split].
  + apply running_trace_app; [done|]. by repeat constructor.
  + by apply handled_popped.
  + intros _. exists c. split; [done|]. split; [done|].
    apply elem_of_app. right. apply list_elem_of_here.
Qed.

Lemma run_trace_ok init n :
  match Optimizer.run select o clock init n with
  | Optimizer.Pending s => trace_ok o s
  | Optimizer.Resolved E a s => resolved_trace E a s
  | Optimizer.Rejected _ tr => tr = []
  end.
Proof.
unfold Optimizer.run.
destruct (Optimizer.start select o clock init) as [err tr| s0 |] eqn:Hstart.
- revert Hstart. unfold Optimizer.start. repeat case_match; congruence.
- pose proof (start_pending select o clock init s0 Hstart)
    as (_ & _ & _ & Htop & _ & _ & Htr & _).
  assert (H0 : trace_ok o s0).
  { apply trace_ok_no_top; rewrite ?Htr; [| |done].
    - exists []. by split.
    - split; [|split]; intros; mem. }
  pose proof (steps_invariant o clock (trace_ok o) _ step_trace_ok n s0 H0) as Hn.
  destruct (Optimizer.steps o clock n s0) eqn:Hsteps; try done.
  by apply steps_not_rejected in Hsteps.
- by apply start_not_resolved in Hstart.
Qed.

(** X11.  The search treats every state it pops according to its kind,
    whatever the container and the clock: a state is expanded only if it
    was popped and is incomplete, scored only if it was popped and is
    complete, and then with the verdict of [evaluate] against the
    representative best of the moment; every complete state popped was
    scored, and every incomplete state popped was expanded, except the one
    that waits for its expansion while the run is pending. *)
Theorem every_popped_state_handled init n :
  match Optimizer.run select o clock init n with
  | Optimizer.Pending s => handled o (Optimizer.trace s) (pending_top s)
  | Optimizer.Resolved _ _ s => handled o (Optimizer.trace s) None
  | Optimizer.Rejected _ _ => True
  end.
Proof.
pose proof (run_trace_ok init n) as H.
destruct (Optimizer.run select o clock init n) as [| s | E a s]; [done | |].
- by destruct H as (_ & H & _).
- destruct H as (tr & msg & bt & -> & _ & Hh & _). by apply handled_logged.
Qed.

(** X12.  The timer and the log: the timer is installed once, when the run
    starts, and while the run is pending nothing is logged and the timer is
    not cleared; a run that resolves logs the reason and the summary, whose
    total is the active time it resolves with, and clears the timer, in
    this order and as the last things it does; a rejected run has done
    nothing. *)
Theorem timer_protocol init n :
  match Optimizer.run select o clock init n with
  | Optimizer.Pending s => running_trace (Optimizer.trace s)
  | Optimizer.Resolved E a s =>
    exists tr msg bt,
      Optimizer.trace s
      = tr ++ [Optimizer.Console msg; Optimizer.Console (Optimizer.Summary a bt);
               Optimizer.ClearInterval]
      /\ running_trace tr
      /\ E = Optimizer.equivalents s /\ a = Optimizer.activeTime s
  | Optimizer.Rejected _ tr => tr = []
  end.
Proof.
pose proof (run_trace_ok init n) as H.
destruct (Optimizer.run select o clock init n) as [| s | E a s]; [done | |].
- by destruct H as (H & _).
- destruct H as (tr & msg & bt & Htr & Hrun & _ & HE & Ha). by exists tr, msg, bt.
Qed.

(** *** Nothing comes from outside the search space *)

Lemma push_all_elem (l : list T) (p : @Optimizer.Partials T) x :
  x ∈ contents (fold_left (sa_push (SequentialAccess := Optimizer.partials_access o)) l p) ->
  x ∈ contents p \/ x ∈ l.
Proof.
revert p. induction l as [|y l IH]; intros p Hx; simpl in *; [by left|].
destruct (IH _ Hx) as [Hp|Hl]; [|right; apply elem_of_cons; by right].
destruct p as [b|a]; simpl in Hp.
- apply push_elem in Hp as [->|Hp]; [right; apply list_elem_of_here | by left].
- apply elem_of_app in Hp as [Hp|Hp]; [by left|].
  apply list_elem_of_singleton in Hp as ->. right. apply list_elem_of_here.
Qed.

Lemma pop_elem_of (p rest : @Optimizer.Partials T) r :
  sa_pop (SequentialAccess := Optimizer.partials_access o) p = (r, rest) ->
  (forall c, r = Some c -> c ∈ contents p)
  /\ (forall x, x ∈ contents rest -> x ∈ contents p).
Proof.
destruct p as [b|a]; simpl.
- destruct (pop_elem (Optimizer.evaluate o) b) as [Hc Hrest].
  destruct (Beam.pop (Optimizer.evaluate o) b) as [r' b']. intros [= <- <-].
  simpl in *. by split.
- intros [= <- <-]. simpl. destruct (last a) as [c|] eqn:Hl.
  + apply last_Some in Hl as [a' ->]. rewrite removelast_last. split.
    * intros c' [= <-]. apply elem_of_app. right. apply list_elem_of_here.
    * intros x Hx. apply elem_of_app. by left.
  + apply last_None in Hl as ->. by split.
Qed.

#[local] Abbreviation resolved_sound := (fun init (E : list T) (a : Z) (s : @Optimizer.State T) =>
  (forall e, e ∈ E -> Optimizer.check o e = true /\ reachable o init e)
  /\ (forall x, Optimizer.Popped x ∈ Optimizer.trace s -> reachable o init x)).

Lemma finish_sound init msg (s : @Optimizer.State T) :
  sound o init s ->
  match Optimizer.finish msg s with
  | Optimizer.Resolved E a s' => resolved_sound init E a s'
  | _ => False
  end.
Proof.
intros (_ & _ & HE & Hp). unfold Optimizer.finish. simpl. split; [done|].
intros x Hx. apply Hp. mem.
Qed.

Lemma step_sound init (s : @Optimizer.State T) :
  sound o init s ->
  match Optimizer.step o clock s with
  | Optimizer.Pending s' => sound o init s'
  | Optimizer.Resolved E a s' => resolved_sound init E a s'
  | Optimizer.Rejected _ _ => True
  end.
Proof.
intros Hok. pose proof Hok as (Hc & Htop & HE & Hp).
unfold Optimizer.step.
destruct (Optimizer.phase s) as [|start limit] eqn:Hph.
{ unfold Optimizer.enter. by case_match. }
destruct (Optimizer.hasTop s) eqn:Hhas.
{ destruct (Htop eq_refl) as (c & Htc & Hchk & Hr).
  unfold Optimizer.expand. rewrite Htc. split; [|split; [done|split; [done|]]]; simpl.
  - intros x Hx. apply push_all_elem in Hx as [Hx|Hx]; [by apply Hc|].
    by apply (reach_step o init c x).
  - intros x Hx. apply Hp. mem. }
assert (Hidle : forall a ph k,
  sound o init (Optimizer.mkState (Optimizer.partials s)
    (Optimizer.representativeBest s) (Optimizer.equivalents s) a
    (Optimizer.equivSize s) (Optimizer.nextLoopTime s) (Optimizer.hasTop s)
    (Optimizer.top s) (Optimizer.optimalTime s) (Optimizer.bestTime s) ph k
    (Optimizer.trace s))).
{ intros a ph k. split; [done|]. split; [|done]. simpl. by rewrite Hhas. }
unfold Optimizer.iterate.
destruct (sa_length (Optimizer.partials s) =? 0).
{ by apply finish_sound. }
destruct (Qlt_bool _ _).
{ destruct (_ || _); [apply finish_sound|]; apply Hidle. }
destruct (sa_pop (Optimizer.partials s)) as [[c|] rest] eqn:Hpop;
  [|by apply finish_sound].
destruct (pop_elem_of _ _ _ Hpop) as [Hin Hrest].
assert (Hrc : reachable o init c) by (apply Hc; by apply Hin).
assert (Hrest' : forall x, x ∈ contents rest -> reachable o init x)
  by (intros x Hx; by apply Hc, Hrest).
destruct (Optimizer.check o c) eqn:Hchk; simpl.
- assert (Hscored : forall best E z k bt ot,
    (forall x, x ∈ E -> Optimizer.check o x = true /\ reachable o init x) ->
    sound o init (Optimizer.mkState rest best E (Optimizer.activeTime s) k
      (Optimizer.nextLoopTime s) (Optimizer.hasTop s) (Optimizer.top s) ot bt
      (Optimizer.phase s) (S (Optimizer.ticks s))
      (Optimizer.trace s ++ [Optimizer.Popped c;
         Optimizer.Scored c (Optimizer.representativeBest s) z]))).
  { intros best E z k bt ot HE'. split; [done|]. split; [simpl; by rewrite Hhas|].
    split; [done|]. simpl. intros x Hx. mem. }
  assert (Hone : forall x, x ∈ [c] -> Optimizer.check o x = true /\ reachable o init x).
  { intros x Hx. apply list_elem_of_singleton in Hx as ->. by split. }
  unfold Optimizer.score. cbv zeta.
  destruct (Optimizer.evaluate o c (Optimizer.representativeBest s) <? 0)%Z.
  { destruct (match Optimizer.isOptimal o with Some f => f c | None => false end).
    - apply finish_sound. by apply Hscored.
    - by apply Hscored. }
  destruct (_ && _).
  { assert (Hadd : forall x, x ∈ Optimizer.set_add c (Optimizer.equivalents s) ->
              Optimizer.check o x = true /\ reachable o init x).
    { intros x Hx. apply set_add_elem in Hx as [->|Hx]; [by split | by apply HE]. }
    destruct (num_gt _ _).
    - apply finish_sound. by apply Hscored.
    - by apply Hscored. }
  by apply Hscored.
- split; [done|]. split; [|split; [done|]]; simpl.
  + intros _. by exists c.
  + intros x Hx. mem.
Qed.


End SearchDiscipline.

(** * Concrete runs *)

Lemma constructor_defaults_witness :
  let options :=
    OptimizerOptions.mk Z None (Some (Fin 0%Z)) (Some (Fin (-1)%Q))
      (Some (Fin 0%Q)) None None (Some (Fin (-1 # 4)%Q)) (Some (Fin 2%Q)) in
  let o := Optimizer.new (fun _ => []) (fun _ => true) numeric options in
  Optimizer.beamLimit o = Infinity
  /\ Optimizer.turnTime o = 30%Q
  /\ Optimizer.totalTime o = PInf
  /\ Optimizer.utilization options = Qmin (Qabs (-1 # 4)) 1%Q
  /\ Optimizer.optimalTimeRatio o = (33 # 50)%Q.
Proof.
intros options o.
destruct (constructor_defaults (fun _ => []) (fun _ => true) numeric options)
  as (_ & Hbeam & _ & Hturn & _ & Htotal & _ & Hutil & _ & _ & _ & _ & Hratio).
split; [|split; [|split; [|split]]].
- apply Hbeam. intros z [= <-]. lia.
- apply Hturn. intros q [= <-]. lra.
- apply Htotal. intros q [= <-]. lra.
- apply Hutil; [reflexivity|]. intros Hq. discriminate Hq.
- apply Hratio. intros q [= <-]. right. lra.
Defined.

Lemma run_rejects_iff_empty_witness :
  (forall (l : list Z) k c, length (sort_select l k c) = length l)
  /\ ((exists err tr,
         Optimizer.start sort_select two_complete still [] = Optimizer.Rejected err tr)
      <-> @nil Z = [])
  /\ (forall n, Optimizer.run sort_select two_complete still [] n
                = Optimizer.Rejected "Missing Initial States" []).
Proof.
split; [apply sort_select_length|].
destruct (run_rejects_iff_empty sort_select (fun _ => []) (fun _ => true) numeric
            no_options still [] sort_select_length) as (Hiff & Hempty & _).
split; [exact Hiff | exact (Hempty eq_refl)].
Defined.

(** C6, as stated, fails: with [maxSavedEquivalents] 0 the run on the
    complete initial states 5 and 3 resolves with the one-element set
    holding 3. *)
Lemma improvement_exceeds_cap :
  Optimizer.maxSavedEquivalents two_complete = Fin 0%Q
  /\ exists s,
       Optimizer.run sort_select two_complete still [5; 3]%Z 4
       = Optimizer.Resolved [3%Z] 0%Z s.
Proof. split; [reflexivity|]. eexists. vm_compute. reflexivity. Qed.

Lemma equivalents_bound_witness :
  exists E a s,
    Optimizer.run sort_select two_complete still [5; 3]%Z 4 = Optimizer.Resolved E a s
    /\ length E <= (if decide (improvements (Optimizer.trace s) = []) then 0 else 1) + 0
    /\ E = (if decide (improvements (Optimizer.trace s) = []) then []
            else [best_so_far s]).
Proof.
eexists _, _, _. split; [vm_compute; reflexivity|].
match goal with |- context [Optimizer.trace ?s] =>
  destruct (equivalents_bound sort_select two_complete still [5; 3]%Z 4
              [3%Z] 0%Z s eq_refl) as (Hlen & Hzero & _)
end.
split.
- apply (Hlen 0%Q 0); [reflexivity | vm_compute; discriminate].
- apply (Hzero 0%Q); [reflexivity | vm_compute; discriminate].
Defined.

Lemma improvement_kept_unconditionally_witness :
  Optimizer.maxSavedEquivalents two_complete = Fin 0%Q
  /\ exists E a s,
       Optimizer.run sort_select two_complete still [5; 3]%Z 4 = Optimizer.Resolved E a s
       /\ improvements (Optimizer.trace s) <> []
       /\ E <> [] /\ best_so_far s ∈ E.
Proof.
split; [reflexivity|].
eexists _, _, _. split; [vm_compute; reflexivity|].
assert (Hi : improvements
  [Optimizer.SetInterval; Optimizer.Popped 3%Z; Optimizer.Scored 3%Z 5%Z (-2)%Z;
   Optimizer.Popped 5%Z; Optimizer.Scored 5%Z 3%Z 2%Z;
   Optimizer.Console Optimizer.Exhausted;
   Optimizer.Console (Optimizer.Summary 0 0); Optimizer.ClearInterval] <> []).
{ vm_compute. discriminate. }
split; [exact Hi|].
destruct (improvement_kept_unconditionally sort_select two_complete still) as [_ Hkept].
match goal with |- context [best_so_far ?s] =>
  destruct (Hkept [5; 3]%Z 4 [3%Z] 0%Z s eq_refl Hi) as (Hne & Hin & _)
end.
split; [exact Hne | exact Hin].
Defined.





Lemma chain_finite : finite_expansion chain_no_deadline chain_weight.
Proof.
intros c Hc. simpl in *. unfold chain_weight.
destruct (c <? 3)%Z eqn:E; simpl; [|lia]. apply Z.ltb_lt in E. lia.
Qed.

Lemma counters_finite : finite_expansion counters chain_weight.
Proof.
intros c Hc. simpl in *. unfold chain_weight.
destruct (c <? 3)%Z eqn:E; simpl; [|lia]. apply Z.ltb_lt in E. lia.
Qed.

Lemma ticking_live {T : Type} (o : @Optimizer.t T) :
  (1 <= Optimizer.turnTime o)%Q -> live o ticking.
Proof.
intros Hturn. unfold live, ticking. split; [intros n; lia|]. split.
- intros t. exists (Z.to_nat t). lia.
- intros n. rewrite Nat2Z.inj_succ. unfold Z.succ. rewrite inject_Z_plus.
  change (inject_Z 1) with 1%Q. lra.
Qed.

Lemma still_quiet : quiet counters still.
Proof. split; [done|]. intros k. vm_compute. discriminate. Qed.




(** The active time reported is a matter of the clock: when every reading
    is 20 ms after the one before, the turns of 30 ms are overrun and the
    run on the counters reports 120 ms. *)
Lemma counters_slow_clock :
  live counters slow
  /\ exists s,
       Optimizer.run sort_select counters slow [0]%Z 30 = Optimizer.Resolved [] 120%Z s.
Proof.
split; [|eexists; vm_compute; reflexivity].
unfold live, slow. split; [intros n; lia|]. split.
- intros t. exists (Z.to_nat t). lia.
- intros n. change (Optimizer.turnTime counters) with 30%Q.
  rewrite Nat2Z.inj_succ. unfold Z.succ.
  replace (20 * (Z.of_nat n + 1))%Z with (20 * Z.of_nat n + 20)%Z by lia.
  rewrite inject_Z_plus. change (inject_Z 20) with 20%Q. lra.
Qed.



(** ** The further properties on concrete runs *)

Lemma turn_scheduling_witness :
  exists s,
    Optimizer.start sort_select counters ticking [0]%Z = Optimizer.Pending s
    /\ (0 < Optimizer.turnInterval counters)%Q
    /\ Optimizer.phase s = Optimizer.Idle
    /\ (Optimizer.nextLoopTime s <= inject_Z (ticking (Optimizer.ticks s)))%Q
    /\ exists s' n,
         Optimizer.step counters ticking s = Optimizer.Pending s'
         /\ Optimizer.phase s'
            = Optimizer.Turn (ticking (Optimizer.ticks s))
                (inject_Z (ticking (Optimizer.ticks s)) + Optimizer.turnTime counters)%Q
         /\ (0 <= n)%Z
         /\ Optimizer.nextLoopTime s'
            = (Optimizer.nextLoopTime s + inject_Z n * Optimizer.turnInterval counters)%Q
         /\ (inject_Z (ticking (Optimizer.ticks s)) <= Optimizer.nextLoopTime s')%Q
         /\ (Optimizer.nextLoopTime s'
             < inject_Z (ticking (Optimizer.ticks s)) + Optimizer.turnInterval counters)%Q
         /\ Optimizer.partials s' = Optimizer.partials s
         /\ Optimizer.trace s' = Optimizer.trace s.
Proof.
eexists. split; [vm_compute; reflexivity|].
assert (H1 : (0 < Optimizer.turnInterval counters)%Q) by (vm_compute; reflexivity).
split; [exact H1|]. split; [reflexivity|].
match goal with |- (Optimizer.nextLoopTime ?s <= _)%Q /\ _ =>
  assert (H2 : (Optimizer.nextLoopTime s <= inject_Z (ticking (Optimizer.ticks s)))%Q)
    by (vm_compute; discriminate);
  split; [exact H2|];
  exact (proj2 (turn_scheduling counters ticking s H1 eq_refl) H2)
end.
Defined.


Lemma logged_reason_holds_witness :
  num_ge 0%Q (Optimizer.totalTime counters) = false
  /\ exists E a s,
       Optimizer.run sort_select counters still [0]%Z 9 = Optimizer.Resolved E a s
       /\ truthful counters E a s
       /\ (Optimizer.Console Optimizer.Exhausted ∈ Optimizer.trace s ->
           waiting counters (Optimizer.partials s) = 0).
Proof.
split; [reflexivity|]. eexists _, _, _. split; [vm_compute; reflexivity|].
apply (logged_reason_holds sort_select counters still [0]%Z 9 _ _ _
         sort_select_length eq_refl).
vm_compute. reflexivity.
Defined.

Lemma pending_within_limits_witness :
  num_ge 0%Q (Optimizer.totalTime counters) = false
  /\ exists s,
       Optimizer.run sort_select counters slow [0]%Z 4 = Optimizer.Pending s
       /\ num_ge (inject_Z (Optimizer.activeTime s)) (Optimizer.totalTime counters)
          = false
       /\ (Optimizer.equivSize s = 0
           \/ num_gt (inject_Z (Z.of_nat (Optimizer.equivSize s)))
                (Optimizer.equivBailLimit counters) = false).
Proof.
split; [reflexivity|]. eexists. split; [vm_compute; reflexivity|].
apply (pending_within_limits sort_select counters slow [0]%Z 4 _ eq_refl).
vm_compute. reflexivity.
Defined.



Lemma times_ordered_witness :
  (forall i, (slow i <= slow (S i))%Z)
  /\ exists s,
       Optimizer.run sort_select counters slow [0]%Z 30 = Optimizer.Resolved [] 120%Z s
       /\ (0 <= Optimizer.bestTime s <= 120)%Z.
Proof.
assert (Hmono : forall i, (slow i <= slow (S i))%Z) by (intros i; unfold slow; lia).
split; [exact Hmono|]. eexists. split; [vm_compute; reflexivity|].
match goal with |- (0 <= Optimizer.bestTime ?s <= _)%Z =>
  assert (Hrun : Optimizer.run sort_select counters slow [0]%Z 30
                 = Optimizer.Resolved [] 120%Z s) by (vm_compute; reflexivity)
end.
pose proof (times_ordered sort_select counters slow [0]%Z 30 Hmono) as H.
rewrite Hrun in H. exact H.
Defined.

Lemma returned_solutions_unbeaten_witness :
  StrictWeakOrder (Optimizer.evaluate oracle_improving)
  /\ exists s,
       Optimizer.run sort_select oracle_improving still [5]%Z 6
       = Optimizer.Resolved [3%Z] 0%Z s
       /\ (forall e, e ∈ [3%Z] ->
             Optimizer.check oracle_improving e = true
             /\ Optimizer.Popped e ∈ Optimizer.trace s
             /\ forall c, Optimizer.Popped c ∈ Optimizer.trace s ->
                  Optimizer.check oracle_improving c = true ->
                  sign (Optimizer.evaluate oracle_improving c e) <> LT)
       /\ (forall e e', e ∈ [3%Z] -> e' ∈ [3%Z] ->
             sign (Optimizer.evaluate oracle_improving e e') = EQ).
Proof.
split; [exact numeric_swo|]. eexists.
split; [vm_compute; reflexivity|].
match goal with |- (forall e, _ -> _ /\ _ ∈ Optimizer.trace ?s /\ _) /\ _ =>
  assert (Hrun : Optimizer.run sort_select oracle_improving still [5]%Z 6
                 = Optimizer.Resolved [3%Z] 0%Z s) by (vm_compute; reflexivity)
end.
exact (returned_solutions_unbeaten (StrictWeakOrder0 := numeric_swo) sort_select
         oracle_improving still [5]%Z 6 [3%Z] 0%Z _ Hrun).
Defined.

Lemma first_turn_outcome_clock_free_witness :
  quiet counters still /\ quiet counters (fun _ => 7%Z)
  /\ exists s1 s2,
       Optimizer.run sort_select counters still [0]%Z 9 = Optimizer.Resolved [] 0%Z s1
       /\ Optimizer.run sort_select counters (fun _ => 7%Z) [0]%Z 9
          = Optimizer.Resolved [] 0%Z s2
       /\ Optimizer.trace s1 = Optimizer.trace s2.
Proof.
assert (H7 : quiet counters (fun _ => 7%Z)).
{ split; [done|]. intros k. vm_compute. discriminate. }
split; [exact still_quiet|]. split; [exact H7|].
eexists _, _. split; [vm_compute; reflexivity|]. split; [vm_compute; reflexivity|].
match goal with |- Optimizer.trace ?s1 = Optimizer.trace ?s2 =>
  assert (Hrun1 : Optimizer.run sort_select counters still [0]%Z 9
                  = Optimizer.Resolved [] 0%Z s1) by (vm_compute; reflexivity);
  assert (Hrun2 : Optimizer.run sort_select counters (fun _ => 7%Z) [0]%Z 9
                  = Optimizer.Resolved [] 0%Z s2) by (vm_compute; reflexivity)
end.
pose proof (first_turn_outcome_clock_free sort_select counters still (fun _ => 7%Z)
              still_quiet H7 [0]%Z 9) as H.
rewrite Hrun1, Hrun2 in H. exact (proj2 (proj2 (proj2 H))).
Defined.
